(** * Poll message view: nice vote percentages and the answers animation

    A shallow embedding of [history/media/history_media_poll.cpp]
    (Telegram Desktop): the percentage allocator [CountNicePercent] with its
    helper [AdjustPercentCount], the part of [HistoryPoll] that keeps the
    per-answer numbers and the answers animation up to date, the format of
    large numbers, and the layout and hit testing of the answers.

    Conventions of the embedding.
    - A C++ [int] is a [Z].  Signed overflow and division by zero are
      undefined in C++ and outside of the model ([Z.quot x 0] is [0] here);
      [first_loop_within_int] shows that the numbers of the allocator stay
      within the range of [int] when [votes * 100] does and the votes sum to
      at most the total.  Integer division truncates towards zero: [Z.quot].
    - A [float64] is a primitive binary64 [float].
    - A [gsl::span] or a [std::vector] is a [list]; a failed [Expects] or
      [Assert] (which terminates the program) is the result [None].
    - A [std::unique_ptr] that may be null is an [option].
    - [HistoryPoll] reads the poll through a pointer; the methods below take
      the pointed-to [PollData] as an argument.
    - The style constants, the measures of the texts and the sizes that the
      media keeps ([width()], [maxWidth()], [isBubbleTop()]) come from
      outside of the translated file: the layout takes them as arguments. *)

From Stdlib Require Import String Ascii DecimalString Floats Uint63.
From Stdlib Require Import ZArith List Bool Lia Permutation Sorted FinFun.
From Equations Require Import Equations.
Import ListNotations.

Local Open Scope Z_scope.

(* ===================================================================== *)
(** * Part I: definitions *)
(* ===================================================================== *)

(** ** Constants declared outside of the translated file *)

(** Modelled from the spec: [PollData::kMaxOptions], declared in
    [data/data_poll.h], which is not among the sources; the specification
    speaks of a fixed maximum option count that is small, "e.g. <= 10". *)
Definition kMaxOptions : nat := 10.

(** ** The percentage allocator *)

(** [struct PercentCounterItem]. *)
Record PercentCounterItem : Type := mkItem {
  index : nat;
  percent : Z;
  remainder : Z
}.

(** [PercentCounterItem::operator<]: larger remainder first, then smaller
    percent first. *)
Definition item_less (a other : PercentCounterItem) : bool :=
  if remainder a >? remainder other then true
  else if remainder a <? remainder other then false
  else percent a <? percent other.

(** The test that ends the inner scan of [AdjustPercentCount]:
    [items[j].percent != item.percent || items[j].remainder != item.remainder]. *)
Definition item_differs (x item : PercentCounterItem) : bool :=
  negb (percent x =? percent item) || negb (remainder x =? remainder item).

(** The inner [for (; j != count; ++j)] scan: the number of items directly
    after [item] that do not differ from it, that is [j - (i + 1)]. *)
Fixpoint equal_run (item : PercentCounterItem) (rest : list PercentCounterItem)
  : nat :=
  match rest with
  | [] => 0%nat
  | x :: rest' => if item_differs x item then 0%nat else S (equal_run item rest')
  end.

(** [++items[i].percent]. *)
Definition increment (item : PercentCounterItem) : PercentCounterItem :=
  {| index := index item;
     percent := percent item + 1;
     remainder := remainder item |}.

(** The outer loop of [AdjustPercentCount], run on the array from position
    [i] on: [items] is the part of the array that has not been visited yet.
    One iteration finds the end [j] of the group that starts at [i], and either
    increments the whole group (when [equal <= left]) or steps over it; then
    the loop goes on from [j].  ([left_] is the source's [left], a name that
    Rocq reserves in patterns.) *)
Equations? adjust_loop (items : list PercentCounterItem) (left_ : Z)
  : list PercentCounterItem by wf (length items) lt :=
  adjust_loop [] left_ := [];
  adjust_loop (item :: rest) left_ :=
    let equal := S (equal_run item rest) in
    if Z.of_nat equal <=? left_
    then map increment (item :: firstn (equal_run item rest) rest)
           ++ adjust_loop (skipn (equal_run item rest) rest)
                          (left_ - Z.of_nat equal)
    else (item :: firstn (equal_run item rest) rest)
           ++ adjust_loop (skipn (equal_run item rest) rest) left_.
Proof.
  all: pose proof (length_skipn (equal_run item rest) rest) as Hlen;
    simpl in *; lia.
Qed.

(** What [ranges::sort(items, std::less<>())] guarantees about its result
    [sorted]: it is a rearrangement of [items] in which no element is less
    than an element before it.  (range-v3 is an external library; its sort is
    not stable.) *)
Definition sort_result (items sorted : list PercentCounterItem) : Prop :=
  Permutation items sorted
  /\ StronglySorted (fun a b => item_less b a = false) sorted.

Definition sorts (sort : list PercentCounterItem -> list PercentCounterItem)
  : Prop :=
  forall items, sort_result items (sort items).

(** Two sorting functions with this guarantee, used to run the model:
    insertion sort, which keeps equal items in their order, and insertion
    sort of the reversed array, which reverses them. *)
Fixpoint insert_item (x : PercentCounterItem) (l : list PercentCounterItem)
  : list PercentCounterItem :=
  match l with
  | [] => [x]
  | y :: l' => if item_less y x then y :: insert_item x l' else x :: y :: l'
  end.

Fixpoint insertion_sort (l : list PercentCounterItem)
  : list PercentCounterItem :=
  match l with
  | [] => []
  | x :: l' => insert_item x (insertion_sort l')
  end.

Definition reversing_sort (l : list PercentCounterItem)
  : list PercentCounterItem :=
  insertion_sort (rev l).

(** [span[i] = v]; an index out of range fails the span's [Expects]. *)
Fixpoint span_set (s : list Z) (i : nat) (v : Z) : option (list Z) :=
  match s, i with
  | [], _ => None
  | _ :: s', O => Some (v :: s')
  | x :: s', S i' =>
      match span_set s' i' v with
      | Some r => Some (x :: r)
      | None => None
      end
  end.

(** The first loop of [CountNicePercent], over the zip of the votes, the
    items and the indices counted from [index]: it fills the items and
    subtracts their percents from [left]. *)
Fixpoint fill_items (votes : list Z) (total : Z) (index : nat) (left : Z)
  : list PercentCounterItem * Z :=
  match votes with
  | [] => ([], left)
  | v :: votes' =>
      let percent := Z.quot (v * 100) total in
      let remainder := v * 100 - percent * total in
      let '(items, left') :=
        fill_items votes' total (S index) (left - percent) in
      (mkItem index percent remainder :: items, left')
  end.

(** The last loop of [CountNicePercent]:
    [result[item.index] = item.percent] for every item, in array order. *)
Fixpoint store_percents (items : list PercentCounterItem) (result : list Z)
  : option (list Z) :=
  match items with
  | [] => Some result
  | item :: items' =>
      match span_set result (index item) (percent item) with
      | Some result' => store_percents items' result'
      | None => None
      end
  end.

Section Allocator.

(** The sort that [AdjustPercentCount] calls. *)
Variable sort : list PercentCounterItem -> list PercentCounterItem.

(** [AdjustPercentCount(items, left)]: the new contents of [items]. *)
Definition AdjustPercentCount (items : list PercentCounterItem) (left : Z)
  : list PercentCounterItem :=
  adjust_loop (sort items) left.

(** [CountNicePercent(votes, total, result)]: the new contents of the
    span [result], or [None] when one of the two [Expects] fails. *)
Definition CountNicePercent (votes : list Z) (total : Z) (result : list Z)
  : option (list Z) :=
  if negb (length votes <=? length result)%nat then None
  else if negb (length votes <=? kMaxOptions)%nat then None
  else
    let count := length votes in
    let filled := fill_items votes total 0 100 in
    let items := fst filled in
    let left := snd filled in
    let items :=
      if (left >? 0) && (left <=? Z.of_nat count)
      then AdjustPercentCount items left
      else items in
    store_percents items result.

End Allocator.

(** ** Numbers and texts *)

(** [float64(n)] for an [int] [n]. *)
Definition float64_of_int (n : Z) : float :=
  if n <? 0 then PrimFloat.opp (PrimFloat.of_uint63 (Uint63.of_Z (- n)))
  else PrimFloat.of_uint63 (Uint63.of_Z n).

(** [QString::number(n)]: the decimal digits of [n]. *)
Definition QString_number (n : Z) : string :=
  NilZero.string_of_int (Z.to_int n).

Definition isEmpty (s : string) : bool :=
  match s with
  | EmptyString => true
  | String _ _ => false
  end.

(** [struct FormattedLargeNumber]. *)
Record FormattedLargeNumber : Type := mkFormatted {
  rounded : Z;
  shortened : bool;
  formatted_text : string
}.

(** [FormatLargeNumber(number)], with its local lambda [shorten]. *)
Definition FormatLargeNumber (number : Z) : FormattedLargeNumber :=
  let abs := Z.abs number in
  let shorten (divider : Z) (multiplier : string) :=
    let sign := if number >? 0 then 1 else -1 in
    let rounded := Z.quot abs (Z.quot divider 10) in
    let text := QString_number (Z.quot (sign * rounded) 10) in
    let text :=
      if negb (Z.rem rounded 10 =? 0)
      then (text ++ "." ++ QString_number (Z.rem rounded 10) ++ multiplier)%string
      else (text ++ multiplier)%string in
    mkFormatted (sign * rounded * Z.quot divider 10) true text in
  if abs >=? 1000000 then shorten 1000000 "M"%string
  else if abs >=? 10000 then shorten 1000 "K"%string
  else mkFormatted number false (QString_number number).

(** The language keys that the view shows; a text made from a key stands for
    the translated phrase. *)
Inductive LangText : Type :=
| lng_polls_closed
| lng_polls_anonymous
| lng_polls_votes_none
| lng_polls_votes_count (format : FormattedLargeNumber).

(** ** Animation values *)

(** Modelled from the spec: [anim::value], declared in
    [ui/effects/animation_value.h], which is not among the sources: "a value
    that can be independently interpolated between a start and end value",
    moved by the shared progress.  A value made from one number rests at that
    number; [start] aims it at a target, beginning at the number it currently
    shows; [update] moves the shown number along the line from the start to
    the target. *)
Record anim_value : Type := mkValue {
  value_from : float;
  value_to : float;
  value_current : float
}.

Definition anim_value_of (x : float) : anim_value := mkValue x x x.

Definition anim_start (v : anim_value) (to : float) : anim_value :=
  mkValue (value_current v) to (value_current v).

Definition anim_linear (delta dt : float) : float := PrimFloat.mul delta dt.

Definition anim_update (v : anim_value) (dt : float) : anim_value :=
  mkValue (value_from v) (value_to v)
    (PrimFloat.add (value_from v)
       (anim_linear (PrimFloat.sub (value_to v) (value_from v)) dt)).

(** Modelled from the spec: [Ui::Animations::Simple], declared in
    [ui/effects/animations.h], which is not among the sources: the "shared
    progress scalar" that an external clock advances.  Once started it runs
    from [simple_from] to [simple_to]; [value] reads the number the clock has
    reached, or the given final number when nothing is running. *)
Record SimpleAnimation : Type := mkSimple {
  simple_animating : bool;
  simple_from : float;
  simple_to : float;
  simple_duration : Z
}.

Definition Simple_none : SimpleAnimation := mkSimple false 0 0 0.

Definition Simple_start (from to : float) (duration : Z) : SimpleAnimation :=
  mkSimple true from to duration.

Definition Simple_value (a : SimpleAnimation) (final now : float) : float :=
  if simple_animating a then now else final.

(** [struct HistoryPoll::AnswerAnimation]. *)
Module AnswerAnimation.
Record t : Type := make {
  percent : anim_value;
  filling : anim_value;
  opacity : anim_value
}.
End AnswerAnimation.

(** [struct HistoryPoll::AnswersAnimation]. *)
Module AnswersAnimation.
Record t : Type := make {
  data : list AnswerAnimation.t;
  progress : SimpleAnimation
}.
End AnswersAnimation.

(** [struct HistoryPoll::SendingAnimation]; the radial animation it owns is
    painting only and is left out. *)
Module SendingAnimation.
Record t : Type := make {
  option : string
}.
End SendingAnimation.

(** ** The poll data *)

(** Modelled from the spec: [PollAnswer] and [PollData], declared in
    [data/data_poll.h], which is not among the sources.  An option has "a
    stable identifier (opaque byte sequence)", a "raw vote count" and a
    "chosen-by-viewer flag"; a poll has an "ordered sequence of Options, total
    voter count, closed flag, viewer-voted flag", a version counter and the
    option for which a vote is being sent. *)
Module PollAnswer.
Record t : Type := make {
  text : string;
  option : string;
  votes : Z;
  chosen : bool
}.
End PollAnswer.

Module PollData.
Record t : Type := make {
  question : string;
  answers : list PollAnswer.t;
  totalVoters : Z;
  closed : bool;
  voted : bool;
  sendingVote : string;
  version : Z
}.
End PollData.

(** ** The view *)

(** [struct HistoryPoll::Answer].  The pixel width of the percent string,
    the click handler and the ripple belong to layout and painting and are
    left out. *)
Module Answer.
Record t : Type := make {
  text : string;
  option : string;
  votes : Z;
  votesPercent : Z;
  filling : float;
  votesPercentString : string;
  chosen : bool
}.

(** [Answer::Answer()]. *)
Definition new : t := make "" "" 0 0 0 "" false.
End Answer.

(** The members of [HistoryPoll] that the update and paint paths read and
    write. *)
Record HistoryPoll : Type := mkHistoryPoll {
  _pollVersion : Z;
  _question : string;
  _subtitle : option LangText;
  _answers : list Answer.t;
  _totalVotes : Z;
  _totalVotesLabel : option LangText;
  _voted : bool;
  _closed : bool;
  _answersAnimation : option AnswersAnimation.t;
  _sendingAnimation : option SendingAnimation.t
}.

(** The view right after its constructor: [HistoryPoll::HistoryPoll] sets
    none of these members, so each has the value of its default initializer
    (zero, false, empty, null). *)
Definition HistoryPoll_new : HistoryPoll :=
  mkHistoryPoll 0 "" None [] 0 None false false None None.

Definition set_answers (h : HistoryPoll) (answers : list Answer.t)
  : HistoryPoll :=
  mkHistoryPoll (_pollVersion h) (_question h) (_subtitle h) answers
    (_totalVotes h) (_totalVotesLabel h) (_voted h) (_closed h)
    (_answersAnimation h) (_sendingAnimation h).

Definition set_answersAnimation (h : HistoryPoll)
    (animation : option AnswersAnimation.t) : HistoryPoll :=
  mkHistoryPoll (_pollVersion h) (_question h) (_subtitle h) (_answers h)
    (_totalVotes h) (_totalVotesLabel h) (_voted h) (_closed h)
    animation (_sendingAnimation h).

Definition set_sendingAnimation (h : HistoryPoll)
    (animation : option SendingAnimation.t) : HistoryPoll :=
  mkHistoryPoll (_pollVersion h) (_question h) (_subtitle h) (_answers h)
    (_totalVotes h) (_totalVotesLabel h) (_voted h) (_closed h)
    (_answersAnimation h) animation.

(** [ranges::equal(r1, r2, ranges::equal_to(), proj1, proj2)]: the same
    length and equal projections at every position. *)
Fixpoint ranges_equal {A B C : Type} (eqb : C -> C -> bool)
    (proj1 : A -> C) (proj2 : B -> C) (r1 : list A) (r2 : list B) : bool :=
  match r1, r2 with
  | [], [] => true
  | x :: r1', y :: r2' =>
      eqb (proj1 x) (proj2 y) && ranges_equal eqb proj1 proj2 r1' r2'
  | _, _ => false
  end.

(** [Answer::fillText(original)]. *)
Definition fillText (answer : Answer.t) (original : PollAnswer.t) : Answer.t :=
  if negb (isEmpty (Answer.text answer))
     && String.eqb (Answer.text answer) (PollAnswer.text original)
  then answer
  else Answer.make (PollAnswer.text original) (Answer.option answer)
         (Answer.votes answer) (Answer.votesPercent answer)
         (Answer.filling answer) (Answer.votesPercentString answer)
         (Answer.chosen answer).

(** [HistoryPoll::canVote]. *)
Definition canVote (h : HistoryPoll) : bool :=
  negb (_voted h) && negb (_closed h).

(** [HistoryPoll::resetAnswersAnimation]. *)
Definition resetAnswersAnimation (h : HistoryPoll) (poll : PollData.t)
  : HistoryPoll :=
  let h := set_answersAnimation h None in
  if isEmpty (PollData.sendingVote poll) then set_sendingAnimation h None
  else h.

(** [HistoryPoll::answerVotesChanged]. *)
Definition answerVotesChanged (h : HistoryPoll) (poll : PollData.t) : bool :=
  if negb (length (PollData.answers poll) =? length (_answers h))%nat
     || (length (PollData.answers poll) =? 0)%nat
  then false
  else negb (ranges_equal Z.eqb Answer.votes PollAnswer.votes
               (_answers h) (PollData.answers poll)).

(** [HistoryPoll::saveStateInAnimation], with its local lambda [convert]. *)
Definition saveStateInAnimation (h : HistoryPoll) : HistoryPoll :=
  match _answersAnimation h with
  | Some _ => h
  | None =>
      let can := canVote h in
      let convert (answer : Answer.t) :=
        AnswerAnimation.make
          (anim_value_of
             (if can then 0%float
              else float64_of_int (Answer.votesPercent answer)))
          (anim_value_of (if can then 0%float else Answer.filling answer))
          (anim_value_of (if can then 0%float else 1%float)) in
      set_answersAnimation h
        (Some (AnswersAnimation.make (map convert (_answers h)) Simple_none))
  end.

(** [HistoryPoll::checkAnimationStart]: the view afterwards and the value
    returned. *)
Definition checkAnimationStart (h : HistoryPoll) (poll : PollData.t)
  : HistoryPoll * bool :=
  if negb (length (PollData.answers poll) =? length (_answers h))%nat
  then (h, false)
  else
    let result :=
      negb (Bool.eqb (canVote h)
              (negb (PollData.voted poll) && negb (PollData.closed poll)))
      || answerVotesChanged h poll in
    (if result then saveStateInAnimation h else h, result).

(** [HistoryPoll::updateAnswers]. *)
Definition updateAnswers (h : HistoryPoll) (poll : PollData.t) : HistoryPoll :=
  let changed :=
    negb (ranges_equal String.eqb Answer.option PollAnswer.option
            (_answers h) (PollData.answers poll)) in
  if negb changed then
    set_answers h
      (map (fun p => fillText (fst p) (snd p))
         (combine (_answers h) (PollData.answers poll)))
  else
    let h :=
      set_answers h
        (map (fun answer : PollAnswer.t =>
                let result := Answer.new in
                let result :=
                  Answer.make (Answer.text result) (PollAnswer.option answer)
                    (Answer.votes result) (Answer.votesPercent result)
                    (Answer.filling result) (Answer.votesPercentString result)
                    (Answer.chosen result) in
                fillText result answer)
           (PollData.answers poll)) in
    resetAnswersAnimation h poll.

(** [HistoryPoll::updateTotalVotes]. *)
Definition updateTotalVotes (h : HistoryPoll) (poll : PollData.t)
  : HistoryPoll :=
  if (_totalVotes h =? PollData.totalVoters poll)
     && match _totalVotesLabel h with Some _ => true | None => false end
  then h
  else
    let total := PollData.totalVoters poll in
    let label :=
      if total =? 0 then lng_polls_votes_none
      else lng_polls_votes_count (FormatLargeNumber total) in
    mkHistoryPoll (_pollVersion h) (_question h) (_subtitle h) (_answers h)
      total (Some label) (_voted h) (_closed h)
      (_answersAnimation h) (_sendingAnimation h).

(** [HistoryPoll::updateAnswerVotesFromOriginal]; [can] is the value of
    [canVote()] of the view. *)
Definition updateAnswerVotesFromOriginal (can : bool) (answer : Answer.t)
    (original : PollAnswer.t) (percent : Z) (maxVotes : Z) : Answer.t :=
  let '(votesPercent, votesPercentString) :=
    if can then (0, ""%string)
    else if isEmpty (Answer.votesPercentString answer)
            || negb (Answer.votesPercent answer =? percent)
    then (percent, (QString_number percent ++ "%")%string)
    else (Answer.votesPercent answer, Answer.votesPercentString answer) in
  let votes := PollAnswer.votes original in
  Answer.make (Answer.text answer) (Answer.option answer) votes votesPercent
    (PrimFloat.div (float64_of_int votes) (float64_of_int maxVotes))
    votesPercentString (Answer.chosen answer).

(** The loop of [updateAnswerVotes] over the zip of the answers, the poll's
    answers and the percents: it stops with the shortest of the three. *)
Fixpoint update_zipped (can : bool) (maxVotes : Z) (answers : list Answer.t)
    (originals : list PollAnswer.t) (percents : list Z) : list Answer.t :=
  match answers, originals, percents with
  | answer :: answers', original :: originals', percent :: percents' =>
      updateAnswerVotesFromOriginal can answer original percent maxVotes
        :: update_zipped can maxVotes answers' originals' percents'
  | _, _, _ => []
  end.

(** [ranges::max_element(answers, ranges::less(), &PollAnswer::votes)->votes]
    for a range that is not empty. *)
Definition max_element_votes (answers : list PollAnswer.t) : Z :=
  match answers with
  | [] => 0
  | first :: answers' =>
      fold_left Z.max (map PollAnswer.votes answers') (PollAnswer.votes first)
  end.

(** [ranges::copy(source, begin(storage))]: the first elements of [storage]
    are overwritten. *)
Definition ranges_copy (source storage : list Z) : list Z :=
  source ++ skipn (length source) storage.

Section View.

Variable sort : list PercentCounterItem -> list PercentCounterItem.

(** [st::historyPollDuration], a style constant. *)
Variable historyPollDuration : Z.

(** [HistoryPoll::updateAnswerVotes]; [None] when the [Assert], or an
    [Expects] of [CountNicePercent], fails. *)
Definition updateAnswerVotes (h : HistoryPoll) (poll : PollData.t)
  : option HistoryPoll :=
  if negb (length (PollData.answers poll) =? length (_answers h))%nat
     || (length (PollData.answers poll) =? 0)%nat
  then Some h
  else
    let totalVotes := Z.max 1 (PollData.totalVoters poll) in
    let maxVotes := Z.max 1 (max_element_votes (PollData.answers poll)) in
    let kMaxCount := kMaxOptions in
    let count := length (PollData.answers poll) in
    if negb (count <=? kMaxCount)%nat then None
    else
      let PercentsStorage := repeat 0 kMaxCount in
      let VotesStorage := repeat 0 kMaxCount in
      let VotesStorage :=
        ranges_copy (map PollAnswer.votes (PollData.answers poll))
          VotesStorage in
      match CountNicePercent sort (firstn count VotesStorage) totalVotes
              (firstn count PercentsStorage) with
      | None => None
      | Some written =>
          let PercentsStorage := written ++ skipn count PercentsStorage in
          Some (set_answers h
                  (update_zipped (canVote h) maxVotes (_answers h)
                     (PollData.answers poll) PercentsStorage))
      end.

(** [HistoryPoll::updateVotes]. *)
Definition updateVotes (h : HistoryPoll) (poll : PollData.t)
  : option HistoryPoll :=
  let h :=
    mkHistoryPoll (_pollVersion h) (_question h) (_subtitle h) (_answers h)
      (_totalVotes h) (_totalVotesLabel h) (PollData.voted poll) (_closed h)
      (_answersAnimation h) (_sendingAnimation h) in
  match updateAnswerVotes h poll with
  | None => None
  | Some h => Some (updateTotalVotes h poll)
  end.

(** [HistoryPoll::startAnswersAnimation]. *)
Definition startAnswersAnimation (h : HistoryPoll) : HistoryPoll :=
  match _answersAnimation h with
  | None => h
  | Some animation =>
      let can := canVote h in
      let started :=
        map (fun both : Answer.t * AnswerAnimation.t =>
               let answer := fst both in
               let data := snd both in
               AnswerAnimation.make
                 (anim_start (AnswerAnimation.percent data)
                    (if can then 0%float
                     else float64_of_int (Answer.votesPercent answer)))
                 (anim_start (AnswerAnimation.filling data)
                    (if can then 0%float else Answer.filling answer))
                 (anim_start (AnswerAnimation.opacity data)
                    (if can then 0%float else 1%float)))
            (combine (_answers h) (AnswersAnimation.data animation)) in
      (* the zip is as long as the shorter of the two: entries of [data]
         beyond it stay as they are *)
      let data :=
        started
          ++ skipn (length started) (AnswersAnimation.data animation) in
      set_answersAnimation h
        (Some (AnswersAnimation.make data
                 (Simple_start 0 1 historyPollDuration)))
  end.

(** [HistoryPoll::updateTexts]. *)
Definition updateTexts (h : HistoryPoll) (poll : PollData.t)
  : option HistoryPoll :=
  if _pollVersion h =? PollData.version poll then Some h
  else
    let h :=
      mkHistoryPoll (PollData.version poll) (_question h) (_subtitle h)
        (_answers h) (_totalVotes h) (_totalVotesLabel h) (_voted h)
        (_closed h) (_answersAnimation h) (_sendingAnimation h) in
    let '(h, willStartAnimation) := checkAnimationStart h poll in
    let h :=
      if negb (String.eqb (_question h) (PollData.question poll))
      then
        mkHistoryPoll (_pollVersion h) (PollData.question poll)
          (_subtitle h) (_answers h) (_totalVotes h) (_totalVotesLabel h)
          (_voted h) (_closed h) (_answersAnimation h)
          (_sendingAnimation h)
      else h in
    let h :=
      if negb (Bool.eqb (_closed h) (PollData.closed poll))
         || match _subtitle h with None => true | Some _ => false end
      then
        let closed := PollData.closed poll in
        mkHistoryPoll (_pollVersion h) (_question h)
          (Some (if closed then lng_polls_closed else lng_polls_anonymous))
          (_answers h) (_totalVotes h) (_totalVotesLabel h) (_voted h)
          closed (_answersAnimation h) (_sendingAnimation h)
      else h in
    let h := updateAnswers h poll in
    match updateVotes h poll with
    | None => None
    | Some h =>
        Some (if willStartAnimation then startAnswersAnimation h else h)
    end.

End View.

(** [HistoryPoll::checkSendingAnimation]. *)
Definition checkSendingAnimation (h : HistoryPoll) (poll : PollData.t)
  : HistoryPoll :=
  let sending := PollData.sendingVote poll in
  let null := match _sendingAnimation h with None => true | Some _ => false end in
  if Bool.eqb (isEmpty sending) null then
    if negb null
    then set_sendingAnimation h (Some (SendingAnimation.make sending))
    else h
  else if isEmpty sending then
    match _answersAnimation h with
    | None => set_sendingAnimation h None
    | Some _ => h
    end
  else set_sendingAnimation h (Some (SendingAnimation.make sending)).

(** [vector[i] = v] on the animation entries (the index is in range where it
    is used). *)
Fixpoint vector_set (data : list AnswerAnimation.t) (i : nat)
    (v : AnswerAnimation.t) : list AnswerAnimation.t :=
  match data, i with
  | [], _ => []
  | _ :: data', O => v :: data'
  | x :: data', S i' => x :: vector_set data' i' v
  end.

(** The loop of [draw] over the answers zipped with their indices, when an
    answers animation exists: [&_answersAnimation->data[index]] is read for
    every index and its three values are updated.  Reading an entry that the
    vector does not have is an error: [None]. *)
Fixpoint draw_answers (indices : list nat) (data : list AnswerAnimation.t)
    (progress : float) : option (list AnswerAnimation.t) :=
  match indices with
  | [] => Some data
  | index :: indices' =>
      match nth_error data index with
      | None => None
      | Some animation =>
          let animation :=
            AnswerAnimation.make
              (anim_update (AnswerAnimation.percent animation) progress)
              (anim_update (AnswerAnimation.filling animation) progress)
              (anim_update (AnswerAnimation.opacity animation) progress) in
          draw_answers indices' (vector_set data index animation) progress
      end
  end.

(** [HistoryPoll::draw], the part that reads and writes the members (the
    painting itself changes none of them, and a view too narrow to paint
    returns at once, leaving them as they are); [now] is the number the
    running progress animation has reached at the time of the call. *)
Definition draw (h : HistoryPoll) (poll : PollData.t) (now : float)
  : option HistoryPoll :=
  let h := checkSendingAnimation h poll in
  let progress :=
    match _answersAnimation h with
    | Some animation =>
        Simple_value (AnswersAnimation.progress animation) 1 now
    | None => 1%float
    end in
  let h :=
    if PrimFloat.eqb progress 1 then resetAnswersAnimation h poll else h in
  match _answersAnimation h with
  | None => Some h
  | Some animation =>
      match draw_answers (seq 0 (length (_answers h)))
              (AnswersAnimation.data animation) progress with
      | None => None
      | Some data =>
          Some (set_answersAnimation h
                  (Some (AnswersAnimation.make data
                           (AnswersAnimation.progress animation))))
      end
  end.

(** The calls from outside that write the members above: a refresh of the
    texts with the poll as it is then ([countOptimalSize] calls
    [updateTexts]), or a paint.  The other methods ([countCurrentSize],
    [textState], [clickHandlerPressedChanged], [toggleRipple]) touch only
    layout, the last link point and the ripples. *)
Inductive view_step (sort : list PercentCounterItem -> list PercentCounterItem)
    (duration : Z) : HistoryPoll -> HistoryPoll -> Prop :=
| step_updateTexts h poll h' :
    updateTexts sort duration h poll = Some h' ->
    view_step sort duration h h'
| step_draw h poll now h' :
    draw h poll now = Some h' ->
    view_step sort duration h h'.

(** The views that can arise from a new view. *)
Inductive reachable (sort : list PercentCounterItem -> list PercentCounterItem)
    (duration : Z) : HistoryPoll -> Prop :=
| reachable_new : reachable sort duration HistoryPoll_new
| reachable_step h h' :
    reachable sort duration h ->
    view_step sort duration h h' ->
    reachable sort duration h'.

(** ** Layout and hit testing *)

(** [QPoint]. *)
Record QPoint : Type := mkPoint {
  point_x : Z;
  point_y : Z
}.

(** The text of the tooltip over an answer: [lang(lng_polls_votes_none)] or
    [lng_polls_votes_count(lt_count, votes)] (the number as it is, not
    shortened). *)
Inductive TooltipText : Type :=
| tooltip_votes_none
| tooltip_votes_count (count : Z).

(** [HistoryView::TextState], the members that [textState] sets.  The link
    is the click handler of an answer; a handler is named by the index of
    the answer that owns it. *)
Record TextState : Type := mkTextState {
  link : option nat;
  customTooltip : bool;
  customTooltipText : option TooltipText
}.

(** [TextState(_parent)]: nothing is set. *)
Definition TextState_new : TextState := mkTextState None false None.

(** The calls that [toggleRipple] makes on the ripple of an answer: the
    ripple is made with a mask of the given size, a point is added to it, or
    it is told to stop. *)
Inductive RippleCall : Type :=
| Ripple_new (mask_width mask_height : Z)
| Ripple_add (origin : QPoint)
| Ripple_lastStop.

(** The style constants that the layout reads ([st::msgPadding.left()],
    [st::msgDateFont->height], ...). *)
Record Style : Type := mkStyle {
  msgPadding_left : Z;
  msgPadding_right : Z;
  msgPadding_bottom : Z;
  msgFileMinWidth : Z;
  msgFileTopMinus : Z;
  msgDateFont_height : Z;
  historyPollQuestionTop : Z;
  historyPollSubtitleSkip : Z;
  historyPollAnswersSkip : Z;
  historyPollTotalVotesSkip : Z;
  historyPollAnswerPadding_left : Z;
  historyPollAnswerPadding_right : Z;
  historyPollAnswerPadding_top : Z;
  historyPollAnswerPadding_bottom : Z
}.

(** The measures of a [Text] that holds the given string: [maxWidth()],
    [minHeight()] and [countHeight(width)], for the question (set with
    [st::historyPollQuestionStyle]) and for an answer (set with
    [st::historyPollAnswerStyle]). *)
Record TextMeasures : Type := mkTextMeasures {
  question_maxWidth : string -> Z;
  question_minHeight : string -> Z;
  question_countHeight : string -> Z -> Z;
  answer_maxWidth : string -> Z;
  answer_minHeight : string -> Z;
  answer_countHeight : string -> Z -> Z
}.

Section Layout.

Variable st : Style.

Variable text : TextMeasures.

(** [isBubbleTop()] of the media. *)
Variable isBubbleTop : bool.

(** [HistoryPoll::countOptimalSize], the part after [updateTexts()]:
    [accumulate_max(a, b)] leaves the larger of the two in [a]. *)
Definition optimalSize (h : HistoryPoll) : Z * Z :=
  let paddings := msgPadding_left st + msgPadding_right st in
  let maxWidth := msgFileMinWidth st in
  let maxWidth :=
    Z.max maxWidth (paddings + question_maxWidth text (_question h)) in
  let maxWidth :=
    fold_left
      (fun maxWidth answer =>
         Z.max maxWidth
           (paddings
            + historyPollAnswerPadding_left st
            + answer_maxWidth text (Answer.text answer)
            + historyPollAnswerPadding_right st))
      (_answers h) maxWidth in
  let answersHeight :=
    fold_left Z.add
      (map (fun answer =>
              historyPollAnswerPadding_top st
              + answer_minHeight text (Answer.text answer)
              + historyPollAnswerPadding_bottom st)
         (_answers h)) 0 in
  let minHeight :=
    historyPollQuestionTop st
    + question_minHeight text (_question h)
    + historyPollSubtitleSkip st
    + msgDateFont_height st
    + historyPollAnswersSkip st
    + answersHeight
    + msgPadding_bottom st
    + msgDateFont_height st
    + msgPadding_bottom st in
  let minHeight :=
    if negb isBubbleTop then minHeight - msgFileTopMinus st else minHeight in
  (maxWidth, minHeight).

(** [HistoryPoll::countOptimalSize]: the view after [updateTexts()] and the
    size returned. *)
Definition countOptimalSize
    (sort : list PercentCounterItem -> list PercentCounterItem)
    (historyPollDuration : Z) (h : HistoryPoll) (poll : PollData.t)
  : option (HistoryPoll * (Z * Z)) :=
  match updateTexts sort historyPollDuration h poll with
  | None => None
  | Some h => Some (h, optimalSize h)
  end.

(** [HistoryPoll::countAnswerHeight]. *)
Definition countAnswerHeight (answer : Answer.t) (innerWidth : Z) : Z :=
  let answerWidth :=
    innerWidth
    - historyPollAnswerPadding_left st
    - historyPollAnswerPadding_right st in
  historyPollAnswerPadding_top st
  + answer_countHeight text (Answer.text answer) answerWidth
  + historyPollAnswerPadding_bottom st.

(** [HistoryPoll::countAnswerTop]; the answer is given by its position [i]
    in [_answers], the place where [ranges::find] finds its address (the
    length of [_answers] when it is not there). *)
Definition countAnswerTop (h : HistoryPoll) (i : nat) (innerWidth : Z) : Z :=
  let tshift := historyPollQuestionTop st in
  let tshift :=
    if negb isBubbleTop then tshift - msgFileTopMinus st else tshift in
  let tshift :=
    tshift
    + (question_countHeight text (_question h) innerWidth
       + historyPollSubtitleSkip st) in
  let tshift :=
    tshift + (msgDateFont_height st + historyPollAnswersSkip st) in
  tshift
  + fold_left (fun sum answer => sum + countAnswerHeight answer innerWidth)
      (firstn i (_answers h)) 0.

(** [HistoryPoll::countCurrentSize]; [maxWidth] is [maxWidth()] of the
    media, and [accumulate_min(a, b)] leaves the smaller of the two in
    [a]. *)
Definition countCurrentSize (h : HistoryPoll) (newWidth maxWidth : Z)
  : Z * Z :=
  let newWidth := Z.min newWidth maxWidth in
  let innerWidth := newWidth - msgPadding_left st - msgPadding_right st in
  let answersHeight :=
    fold_left Z.add
      (map (fun answer => countAnswerHeight answer innerWidth) (_answers h))
      0 in
  let newHeight :=
    historyPollQuestionTop st
    + question_countHeight text (_question h) innerWidth
    + historyPollSubtitleSkip st
    + msgDateFont_height st
    + historyPollAnswersSkip st
    + answersHeight
    + historyPollTotalVotesSkip st
    + msgDateFont_height st
    + msgPadding_bottom st in
  let newHeight :=
    if negb isBubbleTop then newHeight - msgFileTopMinus st else newHeight in
  (newWidth, newHeight).

(** The loop of [textState] over the answers: the result, and the point
    written to [_lastLinkPoint] when one is written. *)
Fixpoint textState_answers (can lookup : bool) (point : QPoint) (paintw : Z)
    (answers : list Answer.t) (index : nat) (tshift : Z)
  : TextState * option QPoint :=
  match answers with
  | [] => (TextState_new, None)
  | answer :: answers' =>
      let height := countAnswerHeight answer paintw in
      if (point_y point >=? tshift) && (point_y point <? tshift + height)
      then
        if can then (mkTextState (Some index) false None, Some point)
        else
          (mkTextState None true
             (if lookup
              then Some (if negb (Answer.votes answer =? 0)
                         then tooltip_votes_count (Answer.votes answer)
                         else tooltip_votes_none)
              else None),
           None)
      else
        textState_answers can lookup point paintw answers' (S index)
          (tshift + height)
  end.

(** [HistoryPoll::textState]; [lookup] is
    [request.flags & Flag::LookupCustomTooltip] and [width] is [width()] of
    the media. *)
Definition textState (h : HistoryPoll) (poll : PollData.t) (point : QPoint)
    (lookup : bool) (width : Z) : TextState * option QPoint :=
  if negb (isEmpty (PollData.sendingVote poll)) then (TextState_new, None)
  else
    let can := canVote h in
    let paintw := width in
    let tshift := historyPollQuestionTop st in
    let tshift :=
      if negb isBubbleTop then tshift - msgFileTopMinus st else tshift in
    let paintw := paintw - (msgPadding_left st + msgPadding_right st) in
    let tshift :=
      tshift
      + (question_countHeight text (_question h) paintw
         + historyPollSubtitleSkip st) in
    let tshift :=
      tshift + (msgDateFont_height st + historyPollAnswersSkip st) in
    textState_answers can lookup point paintw (_answers h) 0%nat tshift.

(** [HistoryPoll::toggleRipple] for the answer at position [i]: the calls
    made on its ripple, given whether it has one ([None] when there is no
    such answer); [width] is [width()] of the media and [lastLinkPoint] the
    member [_lastLinkPoint]. *)
Definition toggleRipple (h : HistoryPoll) (i : nat) (ripple pressed : bool)
    (width : Z) (lastLinkPoint : QPoint) : option (list RippleCall) :=
  match nth_error (_answers h) i with
  | None => None
  | Some answer =>
      if pressed then
        let outerWidth := width in
        let innerWidth :=
          outerWidth - msgPadding_left st - msgPadding_right st in
        let made :=
          if negb ripple
          then [Ripple_new outerWidth (countAnswerHeight answer innerWidth)]
          else [] in
        let top := countAnswerTop h i innerWidth in
        Some (made
              ++ [Ripple_add
                    (mkPoint (point_x lastLinkPoint - 0)
                       (point_y lastLinkPoint - top))])
      else Some (if ripple then [Ripple_lastStop] else [])
  end.

End Layout.

(* ===================================================================== *)
(** * Part II: vocabulary of the statements *)
(* ===================================================================== *)

(** Two items belong to one group of [AdjustPercentCount] when they agree on
    percent and remainder. *)
Definition same_key (a b : PercentCounterItem) : Prop :=
  percent a = percent b /\ remainder a = remainder b.

Definition sorted_items (items : list PercentCounterItem) : Prop :=
  StronglySorted (fun a b => item_less b a = false) items.

Definition item_key (item : PercentCounterItem) : Z * Z :=
  (percent item, remainder item).

(** [bump chosen item]: [item] with one more percent when [chosen] picks it. *)
Definition bump (chosen : PercentCounterItem -> bool)
    (item : PercentCounterItem) : PercentCounterItem :=
  if chosen item then increment item else item.

Definition sum_list (l : list Z) : Z := fold_right Z.add 0 l.

(** [votes_i * 100 / total], rounded down. *)
Definition base_percent (total v : Z) : Z := (v * 100) / total.


(** The items as the first loop of [CountNicePercent] fills them, for the
    indices counted from [index]. *)
Fixpoint initial_items (votes : list Z) (total : Z) (index : nat)
  : list PercentCounterItem :=
  match votes with
  | [] => []
  | v :: votes' =>
      mkItem index (Z.quot (v * 100) total)
        (v * 100 - Z.quot (v * 100) total * total)
        :: initial_items votes' total (S index)
  end.

(** The largest C++ [int]. *)
Definition int_max : Z := 2147483647.

(** A span write without the range check, and the last loop of
    [CountNicePercent] over it. *)
Fixpoint upd (s : list Z) (i : nat) (v : Z) : list Z :=
  match s, i with
  | [], _ => []
  | _ :: s', O => v :: s'
  | x :: s', S i' => x :: upd s' i' v
  end.

Definition store_all (items : list PercentCounterItem) (result : list Z)
  : list Z :=
  fold_left (fun r item => upd r (index item) (percent item)) items result.

(** The three numbers that an answer shows: nothing while the viewer can
    still vote (the radio button is painted instead), and its percent and
    filling at full opacity otherwise. *)
Definition shown_values (can : bool) (answer : Answer.t)
  : float * float * float :=
  if can then (0%float, 0%float, 0%float)
  else (float64_of_int (Answer.votesPercent answer), Answer.filling answer,
        1%float).

(** The values that an animation entry starts from, aims at and shows. *)
Definition start_values (a : AnswerAnimation.t) : float * float * float :=
  (value_from (AnswerAnimation.percent a),
   value_from (AnswerAnimation.filling a),
   value_from (AnswerAnimation.opacity a)).

Definition target_values (a : AnswerAnimation.t) : float * float * float :=
  (value_to (AnswerAnimation.percent a),
   value_to (AnswerAnimation.filling a),
   value_to (AnswerAnimation.opacity a)).

Definition current_values (a : AnswerAnimation.t) : float * float * float :=
  (value_current (AnswerAnimation.percent a),
   value_current (AnswerAnimation.filling a),
   value_current (AnswerAnimation.opacity a)).

(** The predicate of the poll data that [checkAnimationStart] compares
    [canVote()] with: the viewer has not voted and the poll is not closed. *)
Definition poll_canVote (poll : PollData.t) : bool :=
  negb (PollData.voted poll) && negb (PollData.closed poll).

(** The arguments that [updateAnswerVotes] passes to [CountNicePercent]. *)
Definition poll_votes (poll : PollData.t) : list Z :=
  map PollAnswer.votes (PollData.answers poll).

Definition poll_total (poll : PollData.t) : Z :=
  Z.max 1 (PollData.totalVoters poll).

(** The answers animation, when there is one, has an entry for every
    answer. *)
Definition animation_matches (h : HistoryPoll) : Prop :=
  forall animation,
    _answersAnimation h = Some animation ->
    length (AnswersAnimation.data animation) = length (_answers h).

(** The steps of [updateTexts] between [checkAnimationStart] and
    [updateAnswers], named for the proofs: the new version is stored first,
    the question and the subtitle are refreshed afterwards. *)
Definition with_version (h : HistoryPoll) (poll : PollData.t) : HistoryPoll :=
  mkHistoryPoll (PollData.version poll) (_question h) (_subtitle h)
    (_answers h) (_totalVotes h) (_totalVotesLabel h) (_voted h)
    (_closed h) (_answersAnimation h) (_sendingAnimation h).

Definition refresh_texts (h : HistoryPoll) (poll : PollData.t) : HistoryPoll :=
  let h :=
    if negb (String.eqb (_question h) (PollData.question poll))
    then
      mkHistoryPoll (_pollVersion h) (PollData.question poll)
        (_subtitle h) (_answers h) (_totalVotes h) (_totalVotesLabel h)
        (_voted h) (_closed h) (_answersAnimation h)
        (_sendingAnimation h)
    else h in
  if negb (Bool.eqb (_closed h) (PollData.closed poll))
     || match _subtitle h with None => true | Some _ => false end
  then
    let closed := PollData.closed poll in
    mkHistoryPoll (_pollVersion h) (_question h)
      (Some (if closed then lng_polls_closed else lng_polls_anonymous))
      (_answers h) (_totalVotes h) (_totalVotesLabel h) (_voted h)
      closed (_answersAnimation h) (_sendingAnimation h)
  else h.

(** The subtitle for a closed flag and the label for a number of voters, as
    [updateTexts] and [updateTotalVotes] make them. *)
Definition subtitle_of (closed : bool) : LangText :=
  if closed then lng_polls_closed else lng_polls_anonymous.

Definition total_label_of (total : Z) : LangText :=
  if total =? 0 then lng_polls_votes_none
  else lng_polls_votes_count (FormatLargeNumber total).

(** The percent string of an answer is the text of its percent, or still
    empty. *)
Definition percent_text_fits (answer : Answer.t) : Prop :=
  Answer.votesPercentString answer = ""%string
  \/ Answer.votesPercentString answer
     = (QString_number (Answer.votesPercent answer) ++ "%")%string.

(** What [updateAnswerVotesFromOriginal] leaves in an answer: no percent and
    no string while the viewer can vote, and the text of the percent
    otherwise. *)
Definition percent_label (can : bool) (answer : Answer.t) : Prop :=
  if can
  then Answer.votesPercent answer = 0
       /\ Answer.votesPercentString answer = ""%string
  else Answer.votesPercentString answer
       = (QString_number (Answer.votesPercent answer) ++ "%")%string.

(** The texts of the view agree with the numbers they stand for. *)
Definition labels_consistent (h : HistoryPoll) : Prop :=
  (_subtitle h = None \/ _subtitle h = Some (subtitle_of (_closed h)))
  /\ (_totalVotesLabel h = None
      \/ _totalVotesLabel h = Some (total_label_of (_totalVotes h)))
  /\ Forall (percent_label (canVote h)) (_answers h).

(** Two views that differ in their two animations at most. *)
Definition same_data (h h' : HistoryPoll) : Prop :=
  _pollVersion h' = _pollVersion h
  /\ _question h' = _question h
  /\ _subtitle h' = _subtitle h
  /\ _answers h' = _answers h
  /\ _totalVotes h' = _totalVotes h
  /\ _totalVotesLabel h' = _totalVotesLabel h
  /\ _voted h' = _voted h
  /\ _closed h' = _closed h.



(** The answers animation, when there is one, has been started. *)
Definition animation_started (duration : Z) (h : HistoryPoll) : Prop :=
  forall animation,
    _answersAnimation h = Some animation ->
    AnswersAnimation.progress animation = Simple_start 0 1 duration.

(** A style and text measures to run the layout on: every character is
    ten units wide and every line twenty units high, and a text that does
    not fit the width takes two lines. *)
Definition example_style : Style :=
  mkStyle 13 13 8 236 12 14 10 4 9 5 32 6 7 8.

Definition example_measures : TextMeasures :=
  let width (s : string) := 10 * Z.of_nat (String.length s) in
  let height (s : string) (w : Z) := if width s <=? w then 20 else 40 in
  mkTextMeasures width (fun _ => 20) height width (fun _ => 20) height.

(* ===================================================================== *)
(** * Part III: the allocator *)
(* ===================================================================== *)

(** ** Keys and the order of [operator<] *)

Lemma item_differs_false x item :
  item_differs x item = false <-> same_key x item.
Proof.
  unfold item_differs, same_key.
  rewrite orb_false_iff, !negb_false_iff, !Z.eqb_eq. tauto.
Qed.

Lemma item_differs_true x item :
  item_differs x item = true <-> ~ same_key x item.
Proof.
  rewrite <- item_differs_false.
  destruct (item_differs x item); split; intros; congruence.
Qed.

Lemma same_key_refl a : same_key a a.
Proof. split; reflexivity. Qed.

Lemma same_key_sym a b : same_key a b -> same_key b a.
Proof. intros [H1 H2]; split; congruence. Qed.

Lemma same_key_trans a b c : same_key a b -> same_key b c -> same_key a c.
Proof. intros [H1 H2] [H3 H4]; split; congruence. Qed.

Lemma item_less_antisym a b :
  item_less a b = false -> item_less b a = false -> same_key a b.
Proof.
  unfold item_less, same_key. intros H1 H2.
  destruct (remainder a >? remainder b) eqn:E1; [discriminate|].
  destruct (remainder b >? remainder a) eqn:E2; [discriminate|].
  destruct (remainder a <? remainder b) eqn:E3;
    destruct (remainder b <? remainder a) eqn:E4; lia.
Qed.

Lemma item_less_same_key_l a a' b :
  same_key a a' -> item_less a b = item_less a' b.
Proof. unfold item_less. intros [-> ->]. reflexivity. Qed.

Lemma item_less_asym a b : item_less a b = true -> item_less b a = false.
Proof.
  unfold item_less. intros H.
  destruct (remainder a >? remainder b) eqn:E1;
    destruct (remainder b >? remainder a) eqn:E2;
    destruct (remainder a <? remainder b) eqn:E3;
    destruct (remainder b <? remainder a) eqn:E4; try lia; try discriminate.
Qed.

Lemma item_less_false_trans a b c :
  item_less b a = false -> item_less c b = false -> item_less c a = false.
Proof.
  unfold item_less. intros H1 H2.
  destruct (remainder b >? remainder a) eqn:E1; [discriminate|].
  destruct (remainder c >? remainder b) eqn:E2; [discriminate|].
  destruct (remainder b <? remainder a) eqn:E3;
    destruct (remainder c <? remainder b) eqn:E4;
    destruct (remainder c >? remainder a) eqn:E5;
    destruct (remainder c <? remainder a) eqn:E6; try lia; try reflexivity.
Qed.

(** ** The scan for the end of a group *)

Lemma equal_run_le item rest : (equal_run item rest <= length rest)%nat.
Proof.
  induction rest as [|x rest IH]; simpl; [lia|].
  destruct (item_differs x item); simpl; lia.
Qed.

Lemma equal_run_same item rest :
  Forall (fun x => same_key x item) (firstn (equal_run item rest) rest).
Proof.
  induction rest as [|x rest IH]; simpl; [constructor|].
  destruct (item_differs x item) eqn:E; simpl; [constructor|].
  constructor; [now apply item_differs_false | exact IH].
Qed.

Lemma equal_run_stops item rest :
  match skipn (equal_run item rest) rest with
  | [] => True
  | x :: _ => ~ same_key x item
  end.
Proof.
  induction rest as [|x rest IH]; simpl; [exact I|].
  destruct (item_differs x item) eqn:E; simpl; [|exact IH].
  now apply item_differs_true.
Qed.

Lemma sorted_items_skipn n items :
  sorted_items items -> sorted_items (skipn n items).
Proof.
  unfold sorted_items. revert items.
  induction n as [|n IH]; intros items Hs; [exact Hs|].
  destruct items as [|x items]; [exact Hs|].
  simpl. apply IH. now inversion Hs.
Qed.

(** In a sorted array the scan finds the whole group: no item after the
    position where it stops has the key of [item]. *)
Lemma sorted_rest_differs item rest :
  sorted_items (item :: rest) ->
  Forall (fun y => ~ same_key y item) (skipn (equal_run item rest) rest).
Proof.
  intros Hs.
  pose proof (equal_run_stops item rest) as Hstop.
  assert (Hall : Forall (fun y => item_less y item = false) rest)
    by (inversion Hs; assumption).
  assert (Hrest : sorted_items (skipn (equal_run item rest) rest)).
  { apply sorted_items_skipn. now inversion Hs. }
  assert (Hall' : Forall (fun y => item_less y item = false)
                    (skipn (equal_run item rest) rest)).
  { rewrite <- (firstn_skipn (equal_run item rest) rest) in Hall.
    apply Forall_app in Hall. tauto. }
  destruct (skipn (equal_run item rest) rest) as [|x tail]; [constructor|].
  inversion Hrest as [|? ? Htail Hx]; subst.
  inversion Hall' as [|? ? Hxi Htl]; subst.
  constructor; [exact Hstop|].
  rewrite Forall_forall in *. intros y Hy Hsame.
  apply Hstop. apply same_key_sym.
  apply item_less_antisym.
  - rewrite (item_less_same_key_l item y x) by now apply same_key_sym.
    now apply Hx.
  - exact Hxi.
Qed.

Lemma sorted_group_filter item rest :
  sorted_items (item :: rest) ->
  filter (fun y => negb (item_differs y item)) (item :: rest)
    = item :: firstn (equal_run item rest) rest
  /\ filter (fun y => item_differs y item) (item :: rest)
    = skipn (equal_run item rest) rest.
Proof.
  intros Hs.
  pose proof (sorted_rest_differs item rest Hs) as Hd.
  pose proof (equal_run_same item rest) as He.
  assert (Hi : item_differs item item = false)
    by (apply item_differs_false, same_key_refl).
  simpl. rewrite Hi. simpl.
  assert (F1 : forall l, Forall (fun x => same_key x item) l ->
     filter (fun y => negb (item_differs y item)) l = l
     /\ filter (fun y => item_differs y item) l = []).
  { induction l as [|x l IH]; intros Hl; [now split|].
    inversion Hl as [|? ? Hx Hl']; subst. simpl.
    apply item_differs_false in Hx. rewrite Hx. simpl.
    destruct (IH Hl') as [-> ->]. now split. }
  assert (F2 : forall l, Forall (fun x => ~ same_key x item) l ->
     filter (fun y => negb (item_differs y item)) l = []
     /\ filter (fun y => item_differs y item) l = l).
  { induction l as [|x l IH]; intros Hl; [now split|].
    inversion Hl as [|? ? Hx Hl']; subst. simpl.
    apply item_differs_true in Hx. rewrite Hx. simpl.
    destruct (IH Hl') as [-> ->]. now split. }
  destruct (F1 _ He) as [E1 E2]. destruct (F2 _ Hd) as [E3 E4].
  remember (equal_run item rest) as k eqn:Hk. clear Hk.
  split.
  - f_equal. rewrite <- (firstn_skipn k rest) at 1.
    now rewrite filter_app, E1, E3, app_nil_r.
  - rewrite <- (firstn_skipn k rest) at 1.
    now rewrite filter_app, E2, E4.
Qed.

(** ** The loop of [AdjustPercentCount] *)

Lemma adjust_loop_cons item rest left :
  adjust_loop (item :: rest) left =
  if Z.of_nat (S (equal_run item rest)) <=? left
  then map increment (item :: firstn (equal_run item rest) rest)
         ++ adjust_loop (skipn (equal_run item rest) rest)
              (left - Z.of_nat (S (equal_run item rest)))
  else (item :: firstn (equal_run item rest) rest)
         ++ adjust_loop (skipn (equal_run item rest) rest) left.
Proof. now rewrite adjust_loop_equation_2. Qed.

Lemma bump_index chosen item : index (bump chosen item) = index item.
Proof. unfold bump. now destruct (chosen item). Qed.

Lemma bump_percent chosen item :
  percent (bump chosen item)
  = if chosen item then percent item + 1 else percent item.
Proof. unfold bump. now destruct (chosen item). Qed.

(** On a sorted array the loop is a map: a choice that depends on the key
    alone says which items receive a point. *)
Lemma adjust_loop_as_map items left :
  sorted_items items ->
  exists chosen : PercentCounterItem -> bool,
    (forall a b, same_key a b -> chosen a = chosen b)
    /\ adjust_loop items left = map (bump chosen) items.
Proof.
  revert items left.
  apply (adjust_loop_elim
    (fun items left out =>
       sorted_items items ->
       exists chosen : PercentCounterItem -> bool,
         (forall a b, same_key a b -> chosen a = chosen b)
         /\ out = map (bump chosen) items)).
  - intros left _. exists (fun _ => false). now split.
  - intros item rest left IHfit IHskip Hs. cbv zeta in IHfit, IHskip.
    pose proof (sorted_rest_differs item rest Hs) as Hd.
    pose proof (equal_run_same item rest) as He.
    assert (Hrest : sorted_items (skipn (equal_run item rest) rest)).
    { apply sorted_items_skipn. now inversion Hs. }
    cbv zeta.
    set (k := equal_run item rest) in *.
    destruct (Z.of_nat (S k) <=? left) eqn:Efit.
    + destruct (IHfit Hrest) as (chosen & Hkey & Hout).
      exists (fun x => if item_differs x item then chosen x else true).
      split.
      * intros a b Hab.
        destruct (item_differs a item) eqn:Ea, (item_differs b item) eqn:Eb;
          try reflexivity.
        -- now apply Hkey.
        -- apply item_differs_true in Ea. apply item_differs_false in Eb.
           exfalso. apply Ea. now apply same_key_trans with b.
        -- apply item_differs_false in Ea. apply item_differs_true in Eb.
           exfalso. apply Eb.
           apply same_key_trans with a; [now apply same_key_sym | exact Ea].
      * rewrite Hout.
        rewrite <- (firstn_skipn k rest) at 3.
        change (item :: firstn k rest ++ skipn k rest)
          with ((item :: firstn k rest) ++ skipn k rest).
        rewrite map_app. f_equal.
        -- apply map_ext_in. intros x Hx. unfold bump.
           assert (Hsame : same_key x item).
           { destruct Hx as [<- | Hx]; [apply same_key_refl|].
             rewrite Forall_forall in He. now apply He. }
           apply item_differs_false in Hsame. now rewrite Hsame.
        -- apply map_ext_in. intros x Hx. unfold bump.
           rewrite Forall_forall in Hd. apply Hd in Hx.
           apply item_differs_true in Hx. now rewrite Hx.
    + destruct (IHskip Hrest) as (chosen & Hkey & Hout).
      exists (fun x => if item_differs x item then chosen x else false).
      split.
      * intros a b Hab.
        destruct (item_differs a item) eqn:Ea, (item_differs b item) eqn:Eb;
          try reflexivity.
        -- now apply Hkey.
        -- apply item_differs_true in Ea. apply item_differs_false in Eb.
           exfalso. apply Ea. now apply same_key_trans with b.
        -- apply item_differs_false in Ea. apply item_differs_true in Eb.
           exfalso. apply Eb.
           apply same_key_trans with a; [now apply same_key_sym | exact Ea].
      * rewrite Hout.
        rewrite <- (firstn_skipn k rest) at 3.
        change (item :: firstn k rest ++ skipn k rest)
          with ((item :: firstn k rest) ++ skipn k rest).
        rewrite map_app. f_equal.
        -- rewrite <- (map_id (item :: firstn k rest)) at 1.
           apply map_ext_in. intros x Hx. unfold bump.
           assert (Hsame : same_key x item).
           { destruct Hx as [<- | Hx]; [apply same_key_refl|].
             rewrite Forall_forall in He. now apply He. }
           apply item_differs_false in Hsame. now rewrite Hsame.
        -- apply map_ext_in. intros x Hx. unfold bump.
           rewrite Forall_forall in Hd. apply Hd in Hx.
           apply item_differs_true in Hx. now rewrite Hx.
Qed.


Lemma filter_permutation {A : Type} (f : A -> bool) (l l' : list A) :
  Permutation l l' -> Permutation (filter f l) (filter f l').
Proof.
  induction 1 as [|x l l' _ IH|x y l|l l' l'' _ IH1 _ IH2]; simpl.
  - constructor.
  - destruct (f x); [now constructor | exact IH].
  - destruct (f x), (f y); try reflexivity. apply perm_swap.
  - now transitivity (filter f l').
Qed.

Lemma item_differs_same_key y a a' :
  same_key a a' -> item_differs y a = item_differs y a'.
Proof. unfold item_differs. intros [-> ->]. reflexivity. Qed.

Lemma item_less_irrefl a : item_less a a = false.
Proof.
  unfold item_less.
  destruct (remainder a >? remainder a) eqn:E1; [lia|].
  destruct (remainder a <? remainder a) eqn:E2; [lia|].
  apply Z.ltb_irrefl.
Qed.

Lemma sorted_head_least a items x :
  sorted_items (a :: items) -> In x (a :: items) -> item_less x a = false.
Proof.
  intros Hs [<- | Hx]; [apply item_less_irrefl|].
  inversion Hs as [|? ? _ Hall]; subst.
  rewrite Forall_forall in Hall. now apply Hall.
Qed.

(** Two sorted arrangements of the same items give rearrangements of the
    same adjusted items: the order inside a group does not matter. *)
Lemma adjust_loop_perm items1 items2 left :
  sorted_items items1 -> sorted_items items2 ->
  Permutation items1 items2 ->
  Permutation (adjust_loop items1 left) (adjust_loop items2 left).
Proof.
  remember (length items1) as n eqn:Hn.
  assert (Hle : (length items1 <= n)%nat) by lia. clear Hn.
  revert items1 items2 left Hle.
  induction n as [|n IH]; intros s1 s2 left Hle Hs1 Hs2 Hp.
  - destruct s1; [|simpl in Hle; lia].
    apply Permutation_nil in Hp. subst. reflexivity.
  - destruct s1 as [|a1 t1].
    { apply Permutation_nil in Hp. subst. reflexivity. }
    destruct s2 as [|a2 t2].
    { apply Permutation_sym, Permutation_nil in Hp. discriminate. }
    assert (Hkey : same_key a1 a2).
    { apply item_less_antisym.
      - apply (sorted_head_least a2 t2); [exact Hs2|].
        apply (Permutation_in _ Hp). now left.
      - apply (sorted_head_least a1 t1); [exact Hs1|].
        apply (Permutation_in _ (Permutation_sym Hp)). now left. }
    destruct (sorted_group_filter a1 t1 Hs1) as [G1 R1].
    destruct (sorted_group_filter a2 t2 Hs2) as [G2 R2].
    assert (Hrun : Permutation (a1 :: firstn (equal_run a1 t1) t1)
                     (a2 :: firstn (equal_run a2 t2) t2)).
    { rewrite <- G1, <- G2.
      rewrite (filter_ext _ (fun y => negb (item_differs y a2))
                 (fun y => f_equal negb (item_differs_same_key y a1 a2 Hkey))).
      now apply filter_permutation. }
    assert (Hrest : Permutation (skipn (equal_run a1 t1) t1)
                      (skipn (equal_run a2 t2) t2)).
    { rewrite <- R1, <- R2.
      rewrite (filter_ext _ (fun y => item_differs y a2)
                 (fun y => item_differs_same_key y a1 a2 Hkey)).
      now apply filter_permutation. }
    assert (Hk : equal_run a1 t1 = equal_run a2 t2).
    { apply Permutation_length in Hrun. simpl in Hrun.
      rewrite !firstn_length_le in Hrun by apply equal_run_le. lia. }
    assert (Hlen : (length (skipn (equal_run a1 t1) t1) <= n)%nat).
    { rewrite length_skipn. simpl in Hle. lia. }
    assert (Hs1' : sorted_items (skipn (equal_run a1 t1) t1)).
    { apply sorted_items_skipn. now inversion Hs1. }
    assert (Hs2' : sorted_items (skipn (equal_run a2 t2) t2)).
    { apply sorted_items_skipn. now inversion Hs2. }
    rewrite !adjust_loop_cons. rewrite <- Hk in Hrun, Hrest, Hs2' |- *.
    destruct (Z.of_nat (S (equal_run a1 t1)) <=? left).
    + apply Permutation_app.
      * now apply Permutation_map.
      * now apply IH.
    + apply Permutation_app; [exact Hrun | now apply IH].
Qed.

(** ** The two sorting functions meet the guarantee of the sort *)

Lemma insert_item_perm x l : Permutation (x :: l) (insert_item x l).
Proof.
  induction l as [|y l IH]; simpl; [reflexivity|].
  destruct (item_less y x); [|reflexivity].
  rewrite perm_swap. now constructor.
Qed.

Lemma insert_item_sorted x l :
  sorted_items l -> sorted_items (insert_item x l).
Proof.
  unfold sorted_items.
  induction l as [|y l IH]; intros Hs; simpl.
  - repeat constructor.
  - inversion Hs as [|? ? Hl Hy]; subst.
    destruct (item_less y x) eqn:E.
    + constructor; [now apply IH|].
      apply (Permutation_Forall (insert_item_perm x l)).
      constructor; [now apply item_less_asym | exact Hy].
    + constructor; [exact Hs|].
      constructor; [exact E|].
      rewrite Forall_forall in *. intros z Hz.
      apply item_less_false_trans with y; [exact E | now apply Hy].
Qed.

Lemma insertion_sort_sorts : sorts insertion_sort.
Proof.
  intros items. split.
  - induction items as [|x items IH]; simpl; [reflexivity|].
    rewrite <- insert_item_perm. now constructor.
  - induction items as [|x items IH]; simpl; [constructor|].
    now apply insert_item_sorted.
Qed.

Lemma reversing_sort_sorts : sorts reversing_sort.
Proof.
  intros items. unfold reversing_sort.
  destruct (insertion_sort_sorts (rev items)) as [Hp Hs].
  split; [|exact Hs].
  rewrite <- Hp. apply Permutation_rev.
Qed.

(** ** The first and the last loop of [CountNicePercent] *)

Lemma fill_items_eq votes total i left :
  fill_items votes total i left
  = (initial_items votes total i,
     left - sum_list (map percent (initial_items votes total i))).
Proof.
  revert i left.
  induction votes as [|v votes IH]; intros i left; simpl.
  - f_equal. lia.
  - rewrite IH. f_equal. lia.
Qed.

Lemma initial_items_length votes total i :
  length (initial_items votes total i) = length votes.
Proof.
  revert i. induction votes as [|v votes IH]; intros i; simpl; [reflexivity|].
  now rewrite IH.
Qed.

Lemma initial_items_index votes total i :
  map index (initial_items votes total i) = seq i (length votes).
Proof.
  revert i. induction votes as [|v votes IH]; intros i; simpl; [reflexivity|].
  now rewrite IH.
Qed.

Lemma initial_items_percent votes total i :
  map percent (initial_items votes total i)
  = map (fun v => Z.quot (v * 100) total) votes.
Proof.
  revert i. induction votes as [|v votes IH]; intros i; simpl; [reflexivity|].
  now rewrite IH.
Qed.

Lemma length_upd s i v : length (upd s i v) = length s.
Proof.
  revert i. induction s as [|x s IH]; intros [|i]; simpl; try reflexivity.
  now rewrite IH.
Qed.

Lemma span_set_upd s i v :
  (i < length s)%nat -> span_set s i v = Some (upd s i v).
Proof.
  revert i. induction s as [|x s IH]; intros [|i] Hi; simpl in *; try lia.
  - reflexivity.
  - rewrite IH by lia. reflexivity.
Qed.

Lemma upd_comm s i j a b :
  i <> j -> upd (upd s i a) j b = upd (upd s j b) i a.
Proof.
  revert i j. induction s as [|x s IH]; intros [|i] [|j] Hij; simpl;
    try reflexivity; try congruence.
  f_equal. apply IH. congruence.
Qed.

Lemma upd_app_here pre x post v :
  upd (pre ++ x :: post) (length pre) v = pre ++ v :: post.
Proof.
  induction pre as [|y pre IH]; simpl; [reflexivity|]. now rewrite IH.
Qed.

Lemma store_percents_all items result :
  Forall (fun item => (index item < length result)%nat) items ->
  store_percents items result = Some (store_all items result).
Proof.
  revert result.
  induction items as [|item items IH]; intros result Hall; simpl.
  - reflexivity.
  - inversion Hall as [|? ? Hi Hrest]; subst.
    rewrite span_set_upd by exact Hi.
    unfold store_all in *. simpl. apply IH.
    rewrite length_upd. exact Hrest.
Qed.

(** The order of the writes does not matter when no index repeats. *)
Lemma store_all_perm items1 items2 :
  Permutation items1 items2 ->
  NoDup (map index items1) ->
  forall result, store_all items1 result = store_all items2 result.
Proof.
  unfold store_all.
  induction 1 as [|x l l' Hp IH|x y l|l l' l'' Hp1 IH1 Hp2 IH2];
    intros Hnd result; simpl.
  - reflexivity.
  - apply IH. now inversion Hnd.
  - rewrite upd_comm; [reflexivity|].
    inversion Hnd as [|? ? Hin _]; subst. simpl in Hin. intuition.
  - rewrite IH1 by exact Hnd. apply IH2.
    apply (Permutation_NoDup (Permutation_map index Hp1) Hnd).
Qed.

(** Items whose indices count up from the length of [pre] overwrite the
    next entries, in order. *)
Lemma store_all_in_order items pre mid post :
  map index items = seq (length pre) (length items) ->
  length mid = length items ->
  store_all items (pre ++ mid ++ post) = pre ++ map percent items ++ post.
Proof.
  unfold store_all. revert pre mid.
  induction items as [|item items IH]; intros pre mid Hidx Hlen.
  - destruct mid; [reflexivity | discriminate].
  - destruct mid as [|m mid]; [discriminate|].
    simpl in Hidx, Hlen. injection Hidx as Hi Hidx. injection Hlen as Hlen.
    cbn [fold_left map]. rewrite Hi.
    change ((m :: mid) ++ post) with (m :: mid ++ post).
    rewrite upd_app_here.
    specialize (IH (pre ++ [percent item]) mid).
    rewrite length_app in IH. simpl in IH.
    replace (length pre + 1)%nat with (S (length pre)) in IH by lia.
    specialize (IH Hidx Hlen).
    rewrite <- !app_assoc in IH. simpl in IH.
    rewrite <- app_comm_cons. exact IH.
Qed.

Lemma map_bump_index chosen items :
  map index (map (bump chosen) items) = map index items.
Proof.
  rewrite map_map. apply map_ext. intros item. apply bump_index.
Qed.

(** Writing back a rearrangement of the bumped items gives the bumped
    percents in the order of the indices. *)
Lemma store_percents_permuted chosen items final result :
  map index items = seq 0 (length items) ->
  (length items <= length result)%nat ->
  Permutation (map (bump chosen) items) final ->
  store_percents final result
  = Some (map (fun item => percent (bump chosen item)) items
            ++ skipn (length items) result).
Proof.
  intros Hidx Hlen Hp.
  assert (Hfinal : Permutation (seq 0 (length items)) (map index final)).
  { rewrite <- Hidx, <- (map_bump_index chosen). now apply Permutation_map. }
  rewrite store_percents_all.
  - f_equal.
    rewrite <- (store_all_perm _ _ Hp).
    + rewrite <- (firstn_skipn (length items) result) at 1.
      rewrite <- (map_map (bump chosen) percent).
      apply (store_all_in_order _ [] (firstn (length items) result)).
      * rewrite map_bump_index, length_map. exact Hidx.
      * rewrite length_map. apply firstn_length_le. exact Hlen.
    + rewrite map_bump_index, Hidx. apply seq_NoDup.
  - assert (Hall : Forall (fun i => (i < length result)%nat) (map index final)).
    { apply (Permutation_Forall Hfinal).
      rewrite Forall_forall. intros i Hi. apply in_seq in Hi. lia. }
    rewrite Forall_map in Hall. exact Hall.
Qed.

Lemma map_bump_none items : map (bump (fun _ => false)) items = items.
Proof.
  rewrite <- (map_id items) at 2. apply map_ext. reflexivity.
Qed.

Section AllocatorFacts.

Variable sort : list PercentCounterItem -> list PercentCounterItem.
Hypothesis sort_sorts : sorts sort.

(** The shape of every result of [CountNicePercent]: each option keeps
    the percent of the first loop or gets one more, by a choice that depends
    on the key alone; the entries of [result] beyond the votes stay. *)
Lemma CountNicePercent_shape votes total result :
  (length votes <= length result)%nat ->
  (length votes <= kMaxOptions)%nat ->
  let items := initial_items votes total 0 in
  let left := 100 - sum_list (map percent items) in
  exists chosen : PercentCounterItem -> bool,
    (forall a b, same_key a b -> chosen a = chosen b)
    /\ CountNicePercent sort votes total result
       = Some (map (fun item => percent (bump chosen item)) items
                 ++ skipn (length votes) result)
    /\ (if (left >? 0) && (left <=? Z.of_nat (length votes))
        then Permutation (map (bump chosen) items)
               (adjust_loop (sort items) left)
        else forall item, chosen item = false).
Proof.
  intros Hres Hmax items left.
  unfold CountNicePercent.
  apply Nat.leb_le in Hres, Hmax. rewrite Hres, Hmax. simpl negb. cbv iota.
  apply Nat.leb_le in Hres.
  rewrite fill_items_eq. cbn [fst snd]. fold items. fold left.
  assert (Hidx : map index items = seq 0 (length items)).
  { unfold items. rewrite initial_items_index, initial_items_length.
    reflexivity. }
  assert (Hlen : length items = length votes)
    by apply initial_items_length.
  destruct ((left >? 0) && (left <=? Z.of_nat (length votes))) eqn:Hadj.
  - unfold AdjustPercentCount.
    destruct (sort_sorts items) as [Hp Hs].
    destruct (adjust_loop_as_map (sort items) left Hs)
      as (chosen & Hkey & Hout).
    exists chosen. split; [exact Hkey|].
    assert (Hperm : Permutation (map (bump chosen) items)
                      (adjust_loop (sort items) left)).
    { rewrite Hout. now apply Permutation_map. }
    split; [|exact Hperm].
    rewrite <- Hlen.
    apply store_percents_permuted; [exact Hidx | lia | exact Hperm].
  - exists (fun _ => false). split; [reflexivity|].
    split; [|reflexivity].
    rewrite <- Hlen.
    apply store_percents_permuted; [exact Hidx | lia |].
    now rewrite map_bump_none.
Qed.

End AllocatorFacts.

(** ** The result does not depend on the sort *)

Lemma adjust_loop_index items left :
  sorted_items items ->
  map index (adjust_loop items left) = map index items.
Proof.
  intros Hs. destruct (adjust_loop_as_map items left Hs) as (chosen & _ & ->).
  apply map_bump_index.
Qed.

Lemma store_percents_perm items1 items2 result :
  Permutation items1 items2 ->
  NoDup (map index items1) ->
  Forall (fun item => (index item < length result)%nat) items1 ->
  store_percents items1 result = store_percents items2 result.
Proof.
  intros Hp Hnd Hall.
  rewrite (store_percents_all items1) by exact Hall.
  rewrite (store_percents_all items2)
    by (apply (Permutation_Forall Hp); exact Hall).
  f_equal. now apply store_all_perm.
Qed.

Lemma CountNicePercent_any_sort sort1 sort2 votes total result :
  sorts sort1 -> sorts sort2 ->
  CountNicePercent sort1 votes total result
  = CountNicePercent sort2 votes total result.
Proof.
  intros H1 H2. unfold CountNicePercent.
  destruct (length votes <=? length result)%nat eqn:Hres; [|reflexivity].
  destruct (length votes <=? kMaxOptions)%nat eqn:Hmax; [|reflexivity].
  simpl negb. cbv iota zeta.
  rewrite fill_items_eq. cbn [fst snd].
  set (items := initial_items votes total 0).
  set (left := 100 - sum_list (map percent items)).
  destruct ((left >? 0) && (left <=? Z.of_nat (length votes)));
    [|reflexivity].
  unfold AdjustPercentCount.
  destruct (H1 items) as [Hp1 Hs1]. destruct (H2 items) as [Hp2 Hs2].
  assert (Hidx : Permutation (seq 0 (length votes))
                   (map index (adjust_loop (sort1 items) left))).
  { rewrite adjust_loop_index by exact Hs1.
    unfold items in *. rewrite <- (initial_items_index votes total 0).
    now apply Permutation_map. }
  apply store_percents_perm.
  - apply adjust_loop_perm; [exact Hs1 | exact Hs2 |].
    now rewrite <- Hp1.
  - apply (Permutation_NoDup Hidx). apply seq_NoDup.
  - rewrite <- Forall_map with (f := index) (P := fun i => (i < length result)%nat).
    apply (Permutation_Forall Hidx).
    rewrite Forall_forall. intros i Hi. apply in_seq in Hi.
    apply Nat.leb_le in Hres. lia.
Qed.

(** C8.  [CountNicePercent] is deterministic although the sort inside it
    is not specified as stable: whatever sorting function is used, as long
    as it returns a sorted rearrangement of its input, the same votes, total
    and result span give the same outcome (the same percentages, or the same
    failed precondition). *)
Theorem CountNicePercent_deterministic :
  forall (sort1 sort2 : list PercentCounterItem -> list PercentCounterItem)
         (votes : list Z) (total : Z) (result : list Z),
    sorts sort1 -> sorts sort2 ->
    CountNicePercent sort1 votes total result
    = CountNicePercent sort2 votes total result.
Proof.
  intros sort1 sort2 votes total result H1 H2.
  now apply CountNicePercent_any_sort.
Qed.

Lemma CountNicePercent_deterministic_witness :
  CountNicePercent insertion_sort [2; 1; 1; 2] 6 [0; 0; 0; 0]
  = CountNicePercent reversing_sort [2; 1; 1; 2] 6 [0; 0; 0; 0].
Proof.
  apply (CountNicePercent_deterministic insertion_sort reversing_sort).
  - exact insertion_sort_sorts.
  - exact reversing_sort_sorts.
Defined.

(** ** Groups of equal items *)



(** ** Percents of the first loop *)


Lemma quot_base_percent total v :
  0 <= v -> 0 < total -> Z.quot (v * 100) total = base_percent total v.
Proof.
  intros Hv Ht. unfold base_percent. apply Z.quot_div_nonneg; lia.
Qed.

Lemma initial_items_base votes total i :
  Forall (fun v => 0 <= v) votes -> 0 < total ->
  map percent (initial_items votes total i) = map (base_percent total) votes.
Proof.
  intros Hv Ht. rewrite initial_items_percent.
  apply map_ext_in. intros v Hin.
  rewrite Forall_forall in Hv. apply quot_base_percent; auto.
Qed.


(** Without the adjustment the result holds the percents of the first loop;
    this does not involve the sort. *)
Lemma CountNicePercent_unadjusted sort votes total result :
  (length votes <= length result)%nat ->
  (length votes <= kMaxOptions)%nat ->
  (let left := 100 - sum_list (map percent (initial_items votes total 0)) in
   (left >? 0) && (left <=? Z.of_nat (length votes)) = false) ->
  CountNicePercent sort votes total result
  = Some (map percent (initial_items votes total 0)
            ++ skipn (length votes) result).
Proof.
  intros Hres Hmax Hno. cbv zeta in Hno.
  unfold CountNicePercent.
  apply Nat.leb_le in Hres, Hmax. rewrite Hres, Hmax. simpl negb. cbv iota.
  apply Nat.leb_le in Hres.
  rewrite fill_items_eq. cbn [fst snd]. rewrite Hno.
  set (items := initial_items votes total 0).
  assert (Hlen : length items = length votes)
    by apply initial_items_length.
  rewrite (store_percents_permuted (fun _ => false) items items result).
  - rewrite Hlen. reflexivity.
  - unfold items. rewrite initial_items_index, initial_items_length.
    reflexivity.
  - lia.
  - now rewrite map_bump_none.
Qed.

(** ** No votes at all *)

Lemma initial_items_zero n i :
  map percent (initial_items (repeat 0 n) 1 i) = repeat 0 n.
Proof.
  revert i. induction n as [|n IH]; intros i; simpl; [reflexivity|].
  now rewrite IH.
Qed.

Lemma sum_list_zero n : sum_list (repeat 0 n) = 0.
Proof. induction n as [|n IH]; simpl; [reflexivity | exact IH]. Qed.

(** C9.  For a vote vector of [N] zeros, [1 <= N <= kMaxOptions], with the
    total normalized to 1, [CountNicePercent] writes [N] zeros (sum 0, not
    100), whatever the sort is. *)
Theorem CountNicePercent_all_zero :
  forall (sort : list PercentCounterItem -> list PercentCounterItem)
         (N : nat) (result : list Z),
    (1 <= N <= kMaxOptions)%nat ->
    (N <= length result)%nat ->
    CountNicePercent sort (repeat 0 N) 1 result
    = Some (repeat 0 N ++ skipn N result)
    /\ sum_list (repeat 0 N) = 0
    /\ sum_list (repeat 0 N) <> 100.
Proof.
  intros sort N result HN Hres.
  split; [|rewrite sum_list_zero; split; [reflexivity | discriminate]].
  rewrite CountNicePercent_unadjusted.
  - now rewrite initial_items_zero, repeat_length.
  - now rewrite repeat_length.
  - rewrite repeat_length. lia.
  - cbv zeta. rewrite initial_items_zero, sum_list_zero, repeat_length.
    unfold kMaxOptions in HN.
    apply andb_false_iff. right. apply Z.leb_gt. lia.
Qed.

Lemma CountNicePercent_all_zero_witness :
  CountNicePercent reversing_sort (repeat 0 4%nat) 1 [7; 7; 7; 7; 7]
  = Some (repeat 0 4%nat ++ skipn 4 [7; 7; 7; 7; 7])
  /\ sum_list (repeat 0 4%nat) = 0
  /\ sum_list (repeat 0 4%nat) <> 100.
Proof.
  apply (CountNicePercent_all_zero reversing_sort 4 [7; 7; 7; 7; 7]).
  - unfold kMaxOptions. lia.
  - simpl. lia.
Defined.

(** ** Three options with one vote each *)

(** C2, as the code behaves.  For votes [1,1,1] and total 3 every option has
    base percent 33 and remainder 1, so the deficit is 1 and the three items
    form one group.  The group does not fit into the deficit and is stepped
    over: no option receives the extra point and the result is [33,33,33],
    whatever the sort does. *)
Theorem CountNicePercent_three_way_tie :
  forall (sort : list PercentCounterItem -> list PercentCounterItem)
         (result : list Z),
    sorts sort ->
    (3 <= length result)%nat ->
    fill_items [1; 1; 1] 3 0 100
    = ([mkItem 0 33 1; mkItem 1 33 1; mkItem 2 33 1], 1)
    /\ CountNicePercent sort [1; 1; 1] 3 result
       = Some ([33; 33; 33] ++ skipn 3 result)
    /\ sum_list [33; 33; 33] = 99.
Proof.
  intros sort result Hs Hres.
  split; [reflexivity|]. split; [|reflexivity].
  rewrite (CountNicePercent_any_sort sort insertion_sort)
    by (exact Hs || exact insertion_sort_sorts).
  destruct result as [|r0 [|r1 [|r2 result]]]; simpl in Hres; try lia.
  reflexivity.
Qed.

Lemma CountNicePercent_three_way_tie_witness :
  fill_items [1; 1; 1] 3 0 100
  = ([mkItem 0 33 1; mkItem 1 33 1; mkItem 2 33 1], 1)
  /\ CountNicePercent reversing_sort [1; 1; 1] 3 [0; 0; 0]
     = Some ([33; 33; 33] ++ skipn 3 [0; 0; 0])
  /\ sum_list [33; 33; 33] = 99.
Proof.
  apply (CountNicePercent_three_way_tie reversing_sort [0; 0; 0]).
  - exact reversing_sort_sorts.
  - simpl. lia.
Defined.

(** C2 as stated fails: for votes [1,1,1] and total 3 no option gets 34 and
    the percentages sum to 99, not to 100. *)
Lemma CountNicePercent_three_way_tie_no_extra_point :
  CountNicePercent insertion_sort [1; 1; 1] 3 [0; 0; 0] = Some [33; 33; 33]
  /\ ~ In 34 [33; 33; 33]
  /\ sum_list [33; 33; 33] <> 100.
Proof.
  split; [reflexivity|]. split.
  - simpl. intros [H | [H | [H | []]]]; discriminate.
  - discriminate.
Qed.

(** ** Every percent is the rounded-down share or one more *)




(** ** Range and sum of the percents *)

Lemma base_percent_range total v :
  0 <= v <= total -> 0 < total -> 0 <= base_percent total v <= 100.
Proof.
  intros Hv Ht. unfold base_percent. split.
  - apply Z.div_pos; lia.
  - apply Z.div_le_upper_bound; lia.
Qed.

Lemma sum_list_nonneg l : Forall (fun x => 0 <= x) l -> 0 <= sum_list l.
Proof.
  induction 1 as [|x l Hx _ IH]; unfold sum_list in *; simpl; lia.
Qed.

Lemma sum_list_bounds_member l x :
  Forall (fun y => 0 <= y) l -> In x l -> x <= sum_list l.
Proof.
  induction 1 as [|y l Hy Hl IH]; intros Hin; [destruct Hin|].
  pose proof (sum_list_nonneg l Hl) as Hn.
  destruct Hin as [-> | Hin]; simpl; unfold sum_list in *.
  - lia.
  - specialize (IH Hin). lia.
Qed.


(** The rounded-down shares use up at most the votes, and fall short of
    them by less than one point per option. *)
Lemma sum_base_percent_bounds votes total :
  Forall (fun v => 0 <= v) votes -> 0 < total ->
  total * sum_list (map (base_percent total) votes) <= 100 * sum_list votes
  /\ 100 * sum_list votes - total * sum_list (map (base_percent total) votes)
     <= Z.of_nat (length votes) * (total - 1).
Proof.
  intros Hv Ht.
  induction Hv as [|v votes Hv0 Hv IH]; [simpl; lia|].
  cbn [map sum_list fold_right length]. unfold sum_list in IH.
  destruct IH as [IH1 IH2]. unfold base_percent at 1 3.
  pose proof (Z.mul_div_le (v * 100) total Ht) as H1.
  pose proof (Z.mod_pos_bound (v * 100) total Ht) as H2.
  pose proof (Z.div_mod (v * 100) total ltac:(lia)) as H3.
  split; nia.
Qed.

Lemma item_differs_key x item :
  item_key x <> item_key item -> item_differs x item = true.
Proof.
  intros Hne. apply item_differs_true. intros [H1 H2]. apply Hne.
  unfold item_key. congruence.
Qed.



(** The integers of the model are those of the machine: for non-negative
    votes that sum to at most the total, with [votes * 100] and the total
    within the range of [int], every number that the first loop of
    [CountNicePercent] computes (the products, the percents, the remainders
    and the running value of [left]) is non-negative and within that range,
    so the C++ arithmetic does not overflow and agrees with the arithmetic
    on [Z]; one more point on a percent stays in range as well. *)
Lemma first_loop_within_int votes total i :
  Forall (fun v => 0 <= v /\ v * 100 <= int_max) votes ->
  0 < total <= int_max ->
  sum_list votes <= total ->
  Forall (fun item =>
            0 <= percent item <= 100
            /\ 0 <= percent item * total <= int_max
            /\ 0 <= remainder item < total)
    (initial_items votes total i)
  /\ forall n,
       0 <= 100 - sum_list (map percent (firstn n (initial_items votes total i)))
         <= 100.
Proof.
  intros Hv Ht Hsum.
  assert (Hv0 : Forall (fun v => 0 <= v) votes).
  { apply (Forall_impl _ (P := fun v => 0 <= v /\ v * 100 <= int_max));
      [tauto | exact Hv]. }
  assert (Hitems : Forall (fun item =>
            0 <= percent item <= 100
            /\ 0 <= percent item * total <= int_max
            /\ 0 <= remainder item < total)
    (initial_items votes total i)).
  { assert (Hmember : forall v, In v votes ->
              0 <= v <= total /\ v * 100 <= int_max).
    { intros v Hin. rewrite Forall_forall in Hv.
      pose proof (sum_list_bounds_member votes v Hv0 Hin).
      specialize (Hv v Hin). lia. }
    clear Hv Hv0 Hsum. revert i.
    induction votes as [|v votes IH]; intros i; simpl; constructor.
    - destruct (Hmember v (or_introl eq_refl)) as [Hrange Hfit].
      cbn [percent remainder].
      rewrite quot_base_percent by lia.
      pose proof (base_percent_range total v Hrange (proj1 Ht)) as Hb.
      unfold base_percent in *.
      pose proof (Z.mul_div_le (v * 100) total (proj1 Ht)) as H1.
      pose proof (Z.mod_pos_bound (v * 100) total (proj1 Ht)) as H2.
      pose proof (Z.div_mod (v * 100) total ltac:(lia)) as H3.
      repeat split; nia.
    - apply IH. intros v' Hin. apply Hmember. now right. }
  split; [exact Hitems|].
  intros n.
  assert (Hall : Forall (fun p => 0 <= p)
                   (map percent (initial_items votes total i))).
  { rewrite Forall_map.
    apply (Forall_impl _ (P := fun item =>
            0 <= percent item <= 100
            /\ 0 <= percent item * total <= int_max
            /\ 0 <= remainder item < total)); [|exact Hitems].
    intros item H. lia. }
  assert (Hprefix : forall l k,
            Forall (fun p => 0 <= p) l ->
            0 <= sum_list (firstn k l) <= sum_list l).
  { clear. induction l as [|x l IH]; intros [|k] Hl; simpl;
      try (pose proof (sum_list_nonneg _ Hl); simpl in *; lia).
    inversion Hl as [|? ? Hx Hl']; subst.
    specialize (IH k Hl'). unfold sum_list in *. simpl. lia. }
  rewrite <- firstn_map.
  specialize (Hprefix _ n Hall).
  rewrite (initial_items_base votes total i Hv0 (proj1 Ht)) in Hprefix |- *.
  destruct (sum_base_percent_bounds votes total Hv0 (proj1 Ht)) as [Hlow _].
  assert (Hle : sum_list (map (base_percent total) votes) <= 100) by nia.
  lia.
Qed.




(* ===================================================================== *)
(** * Part IV: the view *)
(* ===================================================================== *)

(** ** Pieces of the update *)

Lemma store_percents_length items result out :
  store_percents items result = Some out -> length out = length result.
Proof.
  revert result out.
  induction items as [|item items IH]; intros result out H; simpl in H.
  - now injection H as <-.
  - destruct (span_set result (index item) (percent item)) as [r|] eqn:E;
      [|discriminate].
    rewrite (IH _ _ H).
    clear - E. revert E. generalize (index item) as i. revert r.
    induction result as [|x result IHr]; intros r [|i] E; simpl in E;
      try discriminate.
    + now injection E as <-.
    + destruct (span_set result i (percent item)) as [r'|] eqn:E';
        [|discriminate].
      injection E as <-. simpl. f_equal. now apply (IHr r' i).
Qed.

Lemma CountNicePercent_length sort votes total result out :
  CountNicePercent sort votes total result = Some out ->
  length out = length result.
Proof.
  unfold CountNicePercent.
  destruct (negb (length votes <=? length result)%nat); [discriminate|].
  destruct (negb (length votes <=? kMaxOptions)%nat); [discriminate|].
  cbv zeta. apply store_percents_length.
Qed.

Lemma CountNicePercent_succeeds sort votes total result :
  sorts sort ->
  (length votes <= length result)%nat ->
  (length votes <= kMaxOptions)%nat ->
  exists out, CountNicePercent sort votes total result = Some out.
Proof.
  intros Hs Hres Hmax.
  destruct (CountNicePercent_shape sort Hs votes total result Hres Hmax)
    as (chosen & _ & Hout & _).
  eexists. exact Hout.
Qed.

Lemma ranges_equal_length {A B C : Type} (eqb : C -> C -> bool)
    (proj1 : A -> C) (proj2 : B -> C) r1 r2 :
  ranges_equal eqb proj1 proj2 r1 r2 = true -> length r1 = length r2.
Proof.
  revert r2. induction r1 as [|x r1 IH]; intros [|y r2] H; simpl in *;
    try discriminate; [reflexivity|].
  apply andb_true_iff in H. f_equal. now apply IH.
Qed.

Lemma ranges_equal_differ_length {A B C : Type} (eqb : C -> C -> bool)
    (proj1 : A -> C) (proj2 : B -> C) r1 r2 :
  length r1 <> length r2 -> ranges_equal eqb proj1 proj2 r1 r2 = false.
Proof.
  intros Hne. destruct (ranges_equal eqb proj1 proj2 r1 r2) eqn:E;
    [|reflexivity].
  now apply ranges_equal_length in E.
Qed.

Lemma update_zipped_length can maxVotes answers originals percents :
  length originals = length answers ->
  (length answers <= length percents)%nat ->
  length (update_zipped can maxVotes answers originals percents)
  = length answers.
Proof.
  revert originals percents.
  induction answers as [|a answers IH]; intros [|o originals] [|p percents];
    simpl; intros H1 H2; try lia; try discriminate.
  f_equal. apply IH; lia.
Qed.

Lemma firstn_repeat {A : Type} (x : A) n m :
  (n <= m)%nat -> firstn n (repeat x m) = repeat x n.
Proof.
  revert m. induction n as [|n IH]; intros [|m] H; simpl; try lia;
    try reflexivity.
  f_equal. apply IH. lia.
Qed.

Lemma update_zipped_app can maxVotes answers originals percents extra :
  length percents = length answers ->
  update_zipped can maxVotes answers originals (percents ++ extra)
  = update_zipped can maxVotes answers originals percents.
Proof.
  revert originals percents.
  induction answers as [|a answers IH]; intros [|o originals] [|p percents] H;
    simpl in *; try discriminate; try reflexivity.
  f_equal. apply IH. lia.
Qed.

Lemma set_answers_same h : set_answers h (_answers h) = h.
Proof. now destruct h. Qed.

Lemma updateAnswerVotes_eq sort h poll :
  sorts sort ->
  length (PollData.answers poll) = length (_answers h) ->
  (length (PollData.answers poll) <= kMaxOptions)%nat ->
  exists percents,
    CountNicePercent sort (poll_votes poll) (poll_total poll)
      (repeat 0 (length (PollData.answers poll))) = Some percents
    /\ length percents = length (PollData.answers poll)
    /\ updateAnswerVotes sort h poll
       = Some (set_answers h
                 (update_zipped (canVote h)
                    (Z.max 1 (max_element_votes (PollData.answers poll)))
                    (_answers h) (PollData.answers poll) percents)).
Proof.
  intros Hs Hlen Hmax.
  assert (Hvotes : length (poll_votes poll) = length (PollData.answers poll))
    by (unfold poll_votes; apply length_map).
  destruct (CountNicePercent_succeeds sort (poll_votes poll) (poll_total poll)
              (repeat 0 (length (PollData.answers poll))) Hs)
    as [percents Hp].
  { rewrite repeat_length, Hvotes. lia. }
  { rewrite Hvotes. exact Hmax. }
  pose proof (CountNicePercent_length _ _ _ _ _ Hp) as Hpl.
  rewrite repeat_length in Hpl.
  exists percents. split; [exact Hp|]. split; [exact Hpl|].
  unfold updateAnswerVotes.
  rewrite Hlen at 1. rewrite Nat.eqb_refl. simpl negb. cbv iota.
  destruct (length (PollData.answers poll) =? 0)%nat eqn:E0.
  - apply Nat.eqb_eq in E0. simpl orb. cbv iota.
    rewrite E0 in Hlen, Hpl.
    destruct (PollData.answers poll); [|discriminate].
    destruct (_answers h) eqn:Ea; [|discriminate].
    simpl. rewrite <- Ea. now rewrite set_answers_same.
  - simpl orb. cbv iota zeta.
    apply Nat.leb_le in Hmax. rewrite Hmax. simpl negb. cbv iota.
    apply Nat.leb_le in Hmax.
    unfold ranges_copy.
    fold (poll_votes poll). fold (poll_total poll).
    rewrite <- Hvotes at 1.
    rewrite firstn_app, firstn_all, Nat.sub_diag, firstn_O, app_nil_r.
    rewrite firstn_repeat by exact Hmax.
    rewrite Hp.
    rewrite update_zipped_app by lia.
    reflexivity.
Qed.

Lemma updateTexts_steps sort duration h poll :
  updateTexts sort duration h poll =
  if _pollVersion h =? PollData.version poll then Some h
  else
    match updateVotes sort
            (updateAnswers
               (refresh_texts
                  (fst (checkAnimationStart (with_version h poll) poll)) poll)
               poll) poll with
    | None => None
    | Some h' =>
        Some (if snd (checkAnimationStart (with_version h poll) poll)
              then startAnswersAnimation duration h' else h')
    end.
Proof.
  unfold updateTexts, with_version, refresh_texts.
  destruct (_pollVersion h =? PollData.version poll); [reflexivity|].
  destruct (checkAnimationStart _ poll) as [h1 will]. reflexivity.
Qed.

Lemma refresh_texts_fields h poll :
  _answers (refresh_texts h poll) = _answers h
  /\ _voted (refresh_texts h poll) = _voted h
  /\ _closed (refresh_texts h poll) = PollData.closed poll
  /\ _answersAnimation (refresh_texts h poll) = _answersAnimation h
  /\ _pollVersion (refresh_texts h poll) = _pollVersion h.
Proof.
  unfold refresh_texts.
  destruct (negb (String.eqb (_question h) (PollData.question poll)));
    cbn [_closed _subtitle _answers _voted _answersAnimation _pollVersion].
  - destruct (Bool.eqb (_closed h) (PollData.closed poll)) eqn:E;
      [apply eqb_prop in E|]; destruct (_subtitle h); simpl; auto 10.
  - destruct (Bool.eqb (_closed h) (PollData.closed poll)) eqn:E;
      [apply eqb_prop in E|]; destruct (_subtitle h); simpl; auto 10.
Qed.

Lemma fillText_fields answer original :
  Answer.option (fillText answer original) = Answer.option answer
  /\ Answer.votes (fillText answer original) = Answer.votes answer
  /\ Answer.votesPercent (fillText answer original)
     = Answer.votesPercent answer
  /\ Answer.filling (fillText answer original) = Answer.filling answer
  /\ Answer.votesPercentString (fillText answer original)
     = Answer.votesPercentString answer.
Proof.
  unfold fillText.
  destruct (negb (isEmpty (Answer.text answer))
            && String.eqb (Answer.text answer) (PollAnswer.text original));
    simpl; auto.
Qed.

Lemma fillText_text answer original :
  Answer.text (fillText answer original) = PollAnswer.text original.
Proof.
  unfold fillText.
  destruct (negb (isEmpty (Answer.text answer))) eqn:E1; simpl;
    [|reflexivity].
  destruct (String.eqb (Answer.text answer) (PollAnswer.text original)) eqn:E2;
    simpl; [|reflexivity].
  now apply String.eqb_eq.
Qed.

(** [updateAnswers] when the options are the same as before: the answers
    keep their numbers and the animation stays. *)
Lemma updateAnswers_same_options h poll :
  ranges_equal String.eqb Answer.option PollAnswer.option
    (_answers h) (PollData.answers poll) = true ->
  length (_answers (updateAnswers h poll)) = length (_answers h)
  /\ map (shown_values true) (_answers (updateAnswers h poll))
     = map (shown_values true) (_answers h)
  /\ map (shown_values false) (_answers (updateAnswers h poll))
     = map (shown_values false) (_answers h)
  /\ map Answer.option (_answers (updateAnswers h poll))
     = map Answer.option (_answers h)
  /\ map Answer.votesPercentString (_answers (updateAnswers h poll))
     = map Answer.votesPercentString (_answers h)
  /\ _voted (updateAnswers h poll) = _voted h
  /\ _closed (updateAnswers h poll) = _closed h
  /\ _answersAnimation (updateAnswers h poll) = _answersAnimation h
  /\ _pollVersion (updateAnswers h poll) = _pollVersion h.
Proof.
  intros Heq. unfold updateAnswers. rewrite Heq. simpl negb. cbv iota.
  apply ranges_equal_length in Heq.
  cbn [set_answers _answers _voted _closed _answersAnimation _pollVersion].
  assert (Hmap : forall (C : Type) (f : Answer.t -> C),
            (forall a o, f (fillText a o) = f a) ->
            forall (l1 : list Answer.t) (l2 : list PollAnswer.t),
              length l1 = length l2 ->
            map f (map (fun p => fillText (fst p) (snd p)) (combine l1 l2))
            = map f l1).
  { intros C f Hf. induction l1 as [|a l1 IH]; intros [|o l2] Hl;
      simpl in *; try discriminate; [reflexivity|].
    rewrite Hf. f_equal. apply IH. lia. }
  repeat split.
  - rewrite length_map, length_combine. lia.
  - apply Hmap; [|exact Heq]. reflexivity.
  - apply Hmap; [|exact Heq]. intros a o. unfold shown_values.
    destruct (fillText_fields a o) as (_ & _ & -> & -> & _). reflexivity.
  - apply Hmap; [|exact Heq]. intros a o. apply fillText_fields.
  - apply Hmap; [|exact Heq]. intros a o. apply fillText_fields.
Qed.

(** [updateAnswers] when the options differ: the answers are built anew
    from the poll and the animation is dropped. *)
Lemma updateAnswers_new_options h poll :
  ranges_equal String.eqb Answer.option PollAnswer.option
    (_answers h) (PollData.answers poll) = false ->
  length (_answers (updateAnswers h poll)) = length (PollData.answers poll)
  /\ map Answer.option (_answers (updateAnswers h poll))
     = map PollAnswer.option (PollData.answers poll)
  /\ map Answer.text (_answers (updateAnswers h poll))
     = map PollAnswer.text (PollData.answers poll)
  /\ _voted (updateAnswers h poll) = _voted h
  /\ _closed (updateAnswers h poll) = _closed h
  /\ _answersAnimation (updateAnswers h poll) = None
  /\ _pollVersion (updateAnswers h poll) = _pollVersion h.
Proof.
  intros Hne. unfold updateAnswers, resetAnswersAnimation.
  rewrite Hne. simpl negb. cbv iota zeta.
  destruct (isEmpty (PollData.sendingVote poll));
    cbn [set_answers set_answersAnimation set_sendingAnimation
         _answers _voted _closed _answersAnimation _pollVersion];
    (repeat split;
     [ now rewrite length_map
     | rewrite map_map; apply map_ext; intros a; apply fillText_fields
     | rewrite map_map; apply map_ext; intros a; apply fillText_text ]).
Qed.

Lemma updateAnswerVotesFromOriginal_percent can answer original percent m :
  Answer.votesPercent
    (updateAnswerVotesFromOriginal can answer original percent m)
  = if can then 0 else percent.
Proof.
  unfold updateAnswerVotesFromOriginal.
  destruct can; [reflexivity|].
  destruct (isEmpty (Answer.votesPercentString answer)); [reflexivity|].
  destruct (Answer.votesPercent answer =? percent) eqn:E; simpl;
    [|reflexivity].
  now apply Z.eqb_eq.
Qed.

Lemma updateAnswerVotesFromOriginal_fields can answer original percent m :
  Answer.option (updateAnswerVotesFromOriginal can answer original percent m)
  = Answer.option answer
  /\ Answer.text (updateAnswerVotesFromOriginal can answer original percent m)
     = Answer.text answer
  /\ Answer.votes (updateAnswerVotesFromOriginal can answer original percent m)
     = PollAnswer.votes original
  /\ Answer.filling
       (updateAnswerVotesFromOriginal can answer original percent m)
     = PrimFloat.div (float64_of_int (PollAnswer.votes original))
         (float64_of_int m).
Proof.
  unfold updateAnswerVotesFromOriginal.
  destruct can; [simpl; auto|].
  destruct (isEmpty (Answer.votesPercentString answer) ||
            negb (Answer.votesPercent answer =? percent)); simpl; auto.
Qed.

Lemma update_zipped_map {C : Type} (f : Answer.t -> C)
    (g : Answer.t -> PollAnswer.t -> Z -> C) can m :
  (forall a o p, f (updateAnswerVotesFromOriginal can a o p m) = g a o p) ->
  forall answers originals percents,
    length originals = length answers ->
    length percents = length answers ->
    map f (update_zipped can m answers originals percents)
    = map (fun t => g (fst (fst t)) (snd (fst t)) (snd t))
        (combine (combine answers originals) percents).
Proof.
  intros Hf.
  induction answers as [|a answers IH]; intros [|o originals] [|p percents];
    simpl; intros H1 H2; try discriminate; [reflexivity|].
  rewrite Hf. f_equal. apply IH; lia.
Qed.

Lemma map_combine_fst {A B C : Type} (f : A -> C) (l1 : list A) (l2 : list B) :
  length l1 = length l2 ->
  map (fun t => f (fst t)) (combine l1 l2) = map f l1.
Proof.
  revert l2. induction l1 as [|a l1 IH]; intros [|b l2] H; simpl in *;
    try discriminate; [reflexivity|].
  f_equal. apply IH. lia.
Qed.

Lemma map_combine_snd {A B C : Type} (f : B -> C) (l1 : list A) (l2 : list B) :
  length l1 = length l2 ->
  map (fun t => f (snd t)) (combine l1 l2) = map f l2.
Proof.
  revert l2. induction l1 as [|a l1 IH]; intros [|b l2] H; simpl in *;
    try discriminate; [reflexivity|].
  f_equal. apply IH. lia.
Qed.

(** The answers after the loop of [updateAnswerVotes]. *)
Lemma update_zipped_fields can m answers originals percents :
  length originals = length answers ->
  length percents = length answers ->
  let answers' := update_zipped can m answers originals percents in
  length answers' = length answers
  /\ map Answer.option answers' = map Answer.option answers
  /\ map Answer.text answers' = map Answer.text answers
  /\ map Answer.votes answers' = map PollAnswer.votes originals
  /\ map Answer.votesPercent answers'
     = map (fun p => if can then 0 else p) percents
  /\ map Answer.filling answers'
     = map (fun original =>
              PrimFloat.div (float64_of_int (PollAnswer.votes original))
                (float64_of_int m)) originals.
Proof.
  intros H1 H2 answers'. unfold answers'.
  assert (Hc : length (combine answers originals) = length percents)
    by (rewrite length_combine; lia).
  repeat split.
  - apply update_zipped_length; lia.
  - rewrite (update_zipped_map Answer.option (fun a _ _ => Answer.option a))
      by (try lia; intros; apply updateAnswerVotesFromOriginal_fields).
    rewrite (map_combine_fst (fun t => Answer.option (fst t))) by exact Hc.
    apply map_combine_fst. lia.
  - rewrite (update_zipped_map Answer.text (fun a _ _ => Answer.text a))
      by (try lia; intros; apply updateAnswerVotesFromOriginal_fields).
    rewrite (map_combine_fst (fun t => Answer.text (fst t))) by exact Hc.
    apply map_combine_fst. lia.
  - rewrite (update_zipped_map Answer.votes (fun _ o _ => PollAnswer.votes o))
      by (try lia; intros; apply updateAnswerVotesFromOriginal_fields).
    rewrite (map_combine_fst (fun t => PollAnswer.votes (snd t))) by exact Hc.
    apply map_combine_snd. lia.
  - rewrite (update_zipped_map Answer.votesPercent
               (fun _ _ p => if can then 0 else p))
      by (try lia; intros; apply updateAnswerVotesFromOriginal_percent).
    apply (map_combine_snd (fun p => if can then 0 else p)). exact Hc.
  - rewrite (update_zipped_map Answer.filling
               (fun _ o _ =>
                  PrimFloat.div (float64_of_int (PollAnswer.votes o))
                    (float64_of_int m)))
      by (try lia; intros; apply updateAnswerVotesFromOriginal_fields).
    rewrite (map_combine_fst
               (fun t => PrimFloat.div
                           (float64_of_int (PollAnswer.votes (snd t)))
                           (float64_of_int m))) by exact Hc.
    apply (map_combine_snd
             (fun o => PrimFloat.div (float64_of_int (PollAnswer.votes o))
                         (float64_of_int m))). lia.
Qed.

Lemma updateTotalVotes_fields h poll :
  _answers (updateTotalVotes h poll) = _answers h
  /\ _voted (updateTotalVotes h poll) = _voted h
  /\ _closed (updateTotalVotes h poll) = _closed h
  /\ _answersAnimation (updateTotalVotes h poll) = _answersAnimation h
  /\ _pollVersion (updateTotalVotes h poll) = _pollVersion h.
Proof.
  unfold updateTotalVotes.
  destruct ((_totalVotes h =? PollData.totalVoters poll)
            && match _totalVotesLabel h with
               | Some _ => true
               | None => false
               end); simpl; auto.
Qed.

(** [updateVotes] succeeds when the view has as many answers as the poll and
    the poll is within the capacity; it installs the numbers computed from
    the poll and leaves the animation alone. *)
Lemma updateVotes_fields sort h poll :
  sorts sort ->
  length (PollData.answers poll) = length (_answers h) ->
  (length (PollData.answers poll) <= kMaxOptions)%nat ->
  exists percents h',
    CountNicePercent sort (poll_votes poll) (poll_total poll)
      (repeat 0 (length (PollData.answers poll))) = Some percents
    /\ length percents = length (PollData.answers poll)
    /\ updateVotes sort h poll = Some h'
    /\ _answers h'
       = update_zipped (negb (PollData.voted poll) && negb (_closed h))
           (Z.max 1 (max_element_votes (PollData.answers poll)))
           (_answers h) (PollData.answers poll) percents
    /\ _voted h' = PollData.voted poll
    /\ _closed h' = _closed h
    /\ _answersAnimation h' = _answersAnimation h
    /\ _pollVersion h' = _pollVersion h.
Proof.
  intros Hs Hlen Hmax. unfold updateVotes.
  set (hv := mkHistoryPoll (_pollVersion h) (_question h) (_subtitle h)
               (_answers h) (_totalVotes h) (_totalVotesLabel h)
               (PollData.voted poll) (_closed h) (_answersAnimation h)
               (_sendingAnimation h)).
  destruct (updateAnswerVotes_eq sort hv poll Hs Hlen Hmax)
    as (percents & Hp & Hpl & Hup).
  rewrite Hup.
  exists percents. eexists. split; [exact Hp|]. split; [exact Hpl|].
  split; [reflexivity|].
  destruct (updateTotalVotes_fields
              (set_answers hv
                 (update_zipped (canVote hv)
                    (Z.max 1 (max_element_votes (PollData.answers poll)))
                    (_answers hv) (PollData.answers poll) percents)) poll)
    as (-> & -> & -> & -> & ->).
  repeat split.
Qed.

(** ** Saving and starting the animation *)

Lemma saveStateInAnimation_fields h :
  _answers (saveStateInAnimation h) = _answers h
  /\ _voted (saveStateInAnimation h) = _voted h
  /\ _closed (saveStateInAnimation h) = _closed h
  /\ _pollVersion (saveStateInAnimation h) = _pollVersion h.
Proof.
  unfold saveStateInAnimation. destruct (_answersAnimation h); simpl; auto.
Qed.

(** With no animation yet, [saveStateInAnimation] makes one that rests at
    what the answers show now. *)
Lemma saveStateInAnimation_new h :
  _answersAnimation h = None ->
  exists animation,
    _answersAnimation (saveStateInAnimation h) = Some animation
    /\ AnswersAnimation.progress animation = Simple_none
    /\ length (AnswersAnimation.data animation) = length (_answers h)
    /\ map current_values (AnswersAnimation.data animation)
       = map (shown_values (canVote h)) (_answers h).
Proof.
  intros Hnone. unfold saveStateInAnimation. rewrite Hnone.
  eexists. split; [reflexivity|]. cbn [AnswersAnimation.progress
    AnswersAnimation.data].
  split; [reflexivity|]. split; [apply length_map|].
  rewrite map_map. apply map_ext. intros a.
  unfold current_values, shown_values. simpl.
  now destruct (canVote h).
Qed.

(** An animation that exists is kept as it is. *)
Lemma saveStateInAnimation_kept h animation :
  _answersAnimation h = Some animation -> saveStateInAnimation h = h.
Proof. intros H. unfold saveStateInAnimation. now rewrite H. Qed.

Lemma checkAnimationStart_fields h poll :
  let h' := fst (checkAnimationStart h poll) in
  _answers h' = _answers h
  /\ _voted h' = _voted h
  /\ _closed h' = _closed h
  /\ _pollVersion h' = _pollVersion h.
Proof.
  unfold checkAnimationStart.
  destruct (negb (length (PollData.answers poll) =? length (_answers h))%nat);
    [simpl; auto|].
  cbv zeta.
  destruct (negb (Bool.eqb (canVote h) _) || answerVotesChanged h poll);
    cbn [fst]; [apply saveStateInAnimation_fields | auto].
Qed.

Lemma startAnswersAnimation_fields duration h :
  _answers (startAnswersAnimation duration h) = _answers h
  /\ _voted (startAnswersAnimation duration h) = _voted h
  /\ _closed (startAnswersAnimation duration h) = _closed h
  /\ _pollVersion (startAnswersAnimation duration h) = _pollVersion h.
Proof.
  unfold startAnswersAnimation. destruct (_answersAnimation h); simpl; auto.
Qed.

Lemma canVote_fields h h' :
  _voted h' = _voted h -> _closed h' = _closed h -> canVote h' = canVote h.
Proof. unfold canVote. now intros -> ->. Qed.

(** [startAnswersAnimation] aims every entry at what its answer shows now,
    beginning at the number the entry currently shows, and starts the
    progress from 0 towards 1. *)
Lemma startAnswersAnimation_started duration h animation :
  _answersAnimation h = Some animation ->
  exists animation',
    _answersAnimation (startAnswersAnimation duration h) = Some animation'
    /\ AnswersAnimation.progress animation' = Simple_start 0 1 duration
    /\ length (AnswersAnimation.data animation')
       = length (AnswersAnimation.data animation)
    /\ (length (AnswersAnimation.data animation) = length (_answers h) ->
        map start_values (AnswersAnimation.data animation')
        = map current_values (AnswersAnimation.data animation)
        /\ map target_values (AnswersAnimation.data animation')
           = map (shown_values (canVote h)) (_answers h)).
Proof.
  intros Hsome. unfold startAnswersAnimation. rewrite Hsome.
  eexists. split; [reflexivity|].
  cbn [AnswersAnimation.progress AnswersAnimation.data].
  split; [reflexivity|].
  set (start := fun both : Answer.t * AnswerAnimation.t => _).
  split.
  - rewrite length_app, length_skipn, length_map, length_combine. lia.
  - intros Hlen.
    rewrite length_map, length_combine, <- Hlen, Nat.min_id, skipn_all,
      app_nil_r.
    rewrite !map_map. split.
    + rewrite <- (map_combine_snd current_values (_answers h)
                    (AnswersAnimation.data animation)) by lia.
      apply map_ext. intros [a d]. reflexivity.
    + rewrite <- (map_combine_fst (shown_values (canVote h)) (_answers h)
                    (AnswersAnimation.data animation)) by lia.
      apply map_ext. intros [a d]. unfold start, target_values, shown_values.
      simpl. now destruct (canVote h).
Qed.

Lemma ranges_equal_map {A B C : Type} (eqb : C -> C -> bool)
    (proj1 : A -> C) (proj2 : B -> C) :
  (forall x y, eqb x y = true <-> x = y) ->
  forall r1 r2,
    ranges_equal eqb proj1 proj2 r1 r2 = true <-> map proj1 r1 = map proj2 r2.
Proof.
  intros Heqb.
  induction r1 as [|x r1 IH]; intros [|y r2]; simpl; split; intros H;
    try discriminate; try reflexivity.
  - apply andb_true_iff in H. destruct H as [H1 H2].
    apply Heqb in H1. apply IH in H2. congruence.
  - injection H as H1 H2. apply andb_true_iff. split.
    + now apply Heqb.
    + now apply IH.
Qed.

Lemma same_options_equal answers originals :
  map Answer.option answers = map PollAnswer.option originals ->
  ranges_equal String.eqb Answer.option PollAnswer.option answers originals
  = true.
Proof. apply ranges_equal_map. apply String.eqb_eq. Qed.

(** ** A change of the number of options *)

(** C5.  When the number of options of the new poll data differs from the
    number of stored answers, [checkAnimationStart] returns false and
    creates nothing; the update (of a poll within the capacity) ends without
    an answers animation, whether or not one was running before, and with
    the answer list built anew from the poll: its options, texts and votes
    are the poll's, and its percents are the ones [CountNicePercent]
    computes (zero while the viewer can vote). *)
Theorem updateTexts_option_count_changed :
  forall (sort : list PercentCounterItem -> list PercentCounterItem)
         (duration : Z) (h : HistoryPoll) (poll : PollData.t),
    sorts sort ->
    length (PollData.answers poll) <> length (_answers h) ->
    checkAnimationStart h poll = (h, false)
    /\ (PollData.version poll <> _pollVersion h ->
        (length (PollData.answers poll) <= kMaxOptions)%nat ->
        exists h' percents,
          updateTexts sort duration h poll = Some h'
          /\ _answersAnimation h' = None
          /\ _pollVersion h' = PollData.version poll
          /\ canVote h' = poll_canVote poll
          /\ map Answer.option (_answers h')
             = map PollAnswer.option (PollData.answers poll)
          /\ map Answer.text (_answers h')
             = map PollAnswer.text (PollData.answers poll)
          /\ map Answer.votes (_answers h') = poll_votes poll
          /\ CountNicePercent sort (poll_votes poll) (poll_total poll)
               (repeat 0 (length (PollData.answers poll))) = Some percents
          /\ map Answer.votesPercent (_answers h')
             = map (fun p => if poll_canVote poll then 0 else p) percents
          /\ map Answer.filling (_answers h')
             = map (fun original =>
                      PrimFloat.div
                        (float64_of_int (PollAnswer.votes original))
                        (float64_of_int
                           (Z.max 1
                              (max_element_votes (PollData.answers poll)))))
                 (PollData.answers poll)).
Proof.
  intros sort duration h poll Hs Hlen.
  assert (Hcheck : forall h0, _answers h0 = _answers h ->
            checkAnimationStart h0 poll = (h0, false)).
  { intros h0 H0. unfold checkAnimationStart. rewrite H0.
    apply Nat.eqb_neq in Hlen. now rewrite Hlen. }
  split; [now apply Hcheck|].
  intros Hver Hmax.
  rewrite updateTexts_steps.
  destruct (_pollVersion h =? PollData.version poll) eqn:E;
    [apply Z.eqb_eq in E; congruence|].
  rewrite (Hcheck (with_version h poll)) by reflexivity. cbn [fst snd].
  set (h3 := refresh_texts (with_version h poll) poll).
  destruct (refresh_texts_fields (with_version h poll) poll)
    as (Ha3 & Hv3 & Hc3 & Hn3 & Hp3). fold h3 in Ha3, Hv3, Hc3, Hn3, Hp3.
  assert (Hne : ranges_equal String.eqb Answer.option PollAnswer.option
                  (_answers h3) (PollData.answers poll) = false).
  { apply ranges_equal_differ_length. rewrite Ha3. simpl. congruence. }
  destruct (updateAnswers_new_options h3 poll Hne)
    as (Hl4 & Ho4 & Ht4 & Hv4 & Hc4 & Hn4 & Hp4).
  set (h4 := updateAnswers h3 poll) in *.
  destruct (updateVotes_fields sort h4 poll Hs (eq_sym Hl4) Hmax)
    as (percents & h5 & Hper & Hpl & Hup & Ha5 & Hv5 & Hc5 & Hn5 & Hp5).
  rewrite Hup. exists h5, percents.
  destruct (update_zipped_fields
              (negb (PollData.voted poll) && negb (_closed h4))
              (Z.max 1 (max_element_votes (PollData.answers poll)))
              (_answers h4) (PollData.answers poll) percents
              (eq_sym Hl4) (eq_trans Hpl (eq_sym Hl4)))
    as (_ & Fo & Ft & Fv & Fp & Ff).
  rewrite <- Ha5 in Fo, Ft, Fv, Fp, Ff.
  assert (Hcan : canVote h5 = poll_canVote poll).
  { unfold canVote, poll_canVote. now rewrite Hv5, Hc5, Hc4, Hc3. }
  rewrite Hc4, Hc3 in Fp. fold (poll_canVote poll) in Fp.
  repeat split; try assumption; try congruence.
  rewrite Hp5, Hp4, Hp3. reflexivity.
Qed.

Lemma updateTexts_option_count_changed_witness :
  let poll :=
    PollData.make "Tea or coffee?"
      [PollAnswer.make "Tea" "0" 3 true; PollAnswer.make "Coffee" "1" 1 false]
      4 false true "" 1 in
  checkAnimationStart HistoryPoll_new poll = (HistoryPoll_new, false)
  /\ exists h',
       updateTexts insertion_sort 300 HistoryPoll_new poll = Some h'
       /\ _answersAnimation h' = None
       /\ map Answer.votesPercent (_answers h') = [75; 25].
Proof.
  intros poll.
  destruct (updateTexts_option_count_changed insertion_sort 300
              HistoryPoll_new poll insertion_sort_sorts)
    as [Hcheck Hupdate].
  { simpl. discriminate. }
  split; [exact Hcheck|].
  destruct Hupdate as (h' & percents & Hup & Hnone & _ & _ & _ & _ & _
                       & Hper & Hpercent & _).
  { simpl. discriminate. }
  { unfold kMaxOptions. simpl. lia. }
  exists h'. split; [exact Hup|]. split; [exact Hnone|].
  rewrite Hpercent.
  assert (Hvalue : percents = [75; 25]).
  { vm_compute in Hper. now injection Hper as <-. }
  rewrite Hvalue. reflexivity.
Defined.

(** ** A change with the same options *)

Lemma animation_matches_none h :
  _answersAnimation h = None -> animation_matches h.
Proof. intros Hnone animation H. congruence. Qed.

(** The update of a view whose options are the poll's (and within the
    capacity), when [checkAnimationStart] asks for the animation: the
    numbers of the poll are installed, and an animation exists afterwards
    whose progress runs from 0 to 1.  Its entries aim at what the answers
    show after the update (when the animation before the update, if any, had
    an entry for every answer), and when no animation existed before they
    start from what the answers showed before the update. *)
Lemma updateTexts_animated sort duration h poll :
  sorts sort ->
  PollData.version poll <> _pollVersion h ->
  map Answer.option (_answers h)
  = map PollAnswer.option (PollData.answers poll) ->
  (length (PollData.answers poll) <= kMaxOptions)%nat ->
  snd (checkAnimationStart (with_version h poll) poll) = true ->
  exists h' animation percents,
    updateTexts sort duration h poll = Some h'
    /\ _answersAnimation h' = Some animation
    /\ AnswersAnimation.progress animation = Simple_start 0 1 duration
    /\ (animation_matches h ->
        map target_values (AnswersAnimation.data animation)
        = map (shown_values (canVote h')) (_answers h'))
    /\ (_answersAnimation h = None ->
        map start_values (AnswersAnimation.data animation)
        = map (shown_values (canVote h)) (_answers h))
    /\ canVote h' = poll_canVote poll
    /\ CountNicePercent sort (poll_votes poll) (poll_total poll)
         (repeat 0 (length (PollData.answers poll))) = Some percents
    /\ map Answer.votesPercent (_answers h')
       = map (fun p => if poll_canVote poll then 0 else p) percents
    /\ map Answer.votes (_answers h') = poll_votes poll
    /\ map Answer.filling (_answers h')
       = map (fun original =>
                PrimFloat.div (float64_of_int (PollAnswer.votes original))
                  (float64_of_int
                     (Z.max 1 (max_element_votes (PollData.answers poll)))))
           (PollData.answers poll).
Proof.
  intros Hs Hver Hopt Hmax Hwill.
  rewrite updateTexts_steps.
  destruct (_pollVersion h =? PollData.version poll) eqn:E;
    [apply Z.eqb_eq in E; congruence|].
  rewrite Hwill.
  set (h0 := with_version h poll) in *.
  (* the animation after [checkAnimationStart] *)
  assert (Hsaved : exists saved,
            _answersAnimation (fst (checkAnimationStart h0 poll)) = Some saved
            /\ (animation_matches h ->
                length (AnswersAnimation.data saved) = length (_answers h))
            /\ (_answersAnimation h = None ->
                map current_values (AnswersAnimation.data saved)
                = map (shown_values (canVote h)) (_answers h))).
  { unfold checkAnimationStart in Hwill |- *.
    destruct (negb (length (PollData.answers poll) =? length (_answers h0))%nat);
      [discriminate|].
    cbv zeta in Hwill |- *. cbn [snd] in Hwill. rewrite Hwill. cbn [fst].
    destruct (_answersAnimation h) as [old|] eqn:Hold.
    - exists old. rewrite (saveStateInAnimation_kept h0 old) by exact Hold.
      split; [exact Hold|]. split; [|discriminate].
      intros Hinv. now apply Hinv.
    - destruct (saveStateInAnimation_new h0 Hold)
        as (saved & Hs1 & _ & Hs3 & Hs4).
      exists saved. split; [exact Hs1|]. split; [intros _; exact Hs3|].
      intros _. exact Hs4. }
  destruct Hsaved as (saved & Hsaved & Hsavedlen & Hsavedvalues).
  destruct (checkAnimationStart_fields h0 poll) as (Ha1 & Hv1 & Hc1 & Hp1).
  set (h1 := fst (checkAnimationStart h0 poll)) in *.
  cbv zeta in Ha1, Hv1, Hc1, Hp1.
  destruct (refresh_texts_fields h1 poll) as (Ha3 & Hv3 & Hc3 & Hn3 & Hp3).
  set (h3 := refresh_texts h1 poll) in *.
  assert (Heq : ranges_equal String.eqb Answer.option PollAnswer.option
                  (_answers h3) (PollData.answers poll) = true).
  { apply same_options_equal. rewrite Ha3, Ha1. exact Hopt. }
  destruct (updateAnswers_same_options h3 poll Heq)
    as (Hl4 & _ & _ & Ho4 & _ & Hv4 & Hc4 & Hn4 & Hp4).
  set (h4 := updateAnswers h3 poll) in *.
  assert (Hlen : length (PollData.answers poll) = length (_answers h)).
  { rewrite <- (length_map PollAnswer.option), <- Hopt. apply length_map. }
  assert (Hlen4 : length (PollData.answers poll) = length (_answers h4)).
  { rewrite Hl4, Ha3, Ha1. exact Hlen. }
  destruct (updateVotes_fields sort h4 poll Hs Hlen4 Hmax)
    as (percents & h5 & Hper & Hpl & Hup & Ha5 & Hv5 & Hc5 & Hn5 & Hp5).
  rewrite Hup.
  destruct (update_zipped_fields
              (negb (PollData.voted poll) && negb (_closed h4))
              (Z.max 1 (max_element_votes (PollData.answers poll)))
              (_answers h4) (PollData.answers poll) percents
              Hlen4 (eq_trans Hpl Hlen4))
    as (Fl & _ & _ & Fv & Fp & Ff).
  rewrite <- Ha5 in Fl, Fv, Fp, Ff.
  assert (Hcan : canVote h5 = poll_canVote poll).
  { unfold canVote, poll_canVote. now rewrite Hv5, Hc5, Hc4, Hc3. }
  rewrite Hc4, Hc3 in Fp. fold (poll_canVote poll) in Fp.
  assert (Hanim5 : _answersAnimation h5 = Some saved).
  { now rewrite Hn5, Hn4, Hn3. }
  destruct (startAnswersAnimation_started duration h5 saved Hanim5)
    as (animation & Hanim & Hprog & _ & Hvalues).
  assert (Hmatch : animation_matches h ->
            length (AnswersAnimation.data saved) = length (_answers h5)).
  { intros Hinv. rewrite (Hsavedlen Hinv), Fl. lia. }
  destruct (startAnswersAnimation_fields duration h5)
    as (Ha6 & Hv6 & Hc6 & _).
  exists (startAnswersAnimation duration h5), animation, percents.
  rewrite Ha6, (canVote_fields h5 _ Hv6 Hc6).
  repeat split; try assumption.
  - intros Hinv. now apply Hvalues, Hmatch.
  - intros Hnone.
    destruct (Hvalues (Hmatch (animation_matches_none h Hnone))) as [-> _].
    now apply Hsavedvalues.
Qed.


(** C4, as the code behaves.  When the poll data version changes with the
    options unchanged and some vote count different from the stored one, and
    no answers animation exists yet, the update creates one whose progress
    runs from 0 to 1.  Every entry starts from what its answer showed before
    the update and aims at what it shows after the update: the stored
    percent and filling with opacity 1 when the viewer cannot vote, and 0,
    0, 0 when the viewer can.  The values after the update are the ones
    computed from the new poll data. *)
Theorem updateTexts_votes_changed :
  forall (sort : list PercentCounterItem -> list PercentCounterItem)
         (duration : Z) (h : HistoryPoll) (poll : PollData.t),
    sorts sort ->
    PollData.version poll <> _pollVersion h ->
    map Answer.option (_answers h)
    = map PollAnswer.option (PollData.answers poll) ->
    map Answer.votes (_answers h) <> poll_votes poll ->
    (length (PollData.answers poll) <= kMaxOptions)%nat ->
    _answersAnimation h = None ->
    exists h' animation percents,
      updateTexts sort duration h poll = Some h'
      /\ _answersAnimation h' = Some animation
      /\ AnswersAnimation.progress animation = Simple_start 0 1 duration
      /\ map start_values (AnswersAnimation.data animation)
         = map (shown_values (canVote h)) (_answers h)
      /\ map target_values (AnswersAnimation.data animation)
         = map (shown_values (canVote h')) (_answers h')
      /\ canVote h' = poll_canVote poll
      /\ CountNicePercent sort (poll_votes poll) (poll_total poll)
           (repeat 0 (length (PollData.answers poll))) = Some percents
      /\ map Answer.votesPercent (_answers h')
         = map (fun p => if poll_canVote poll then 0 else p) percents
      /\ map Answer.votes (_answers h') = poll_votes poll
      /\ map Answer.filling (_answers h')
         = map (fun original =>
                  PrimFloat.div (float64_of_int (PollAnswer.votes original))
                    (float64_of_int
                       (Z.max 1 (max_element_votes (PollData.answers poll)))))
             (PollData.answers poll).
Proof.
  intros sort duration h poll Hs Hver Hopt Hvotes Hmax Hnone.
  assert (Hlen : length (PollData.answers poll) = length (_answers h)).
  { rewrite <- (length_map PollAnswer.option), <- Hopt. apply length_map. }
  assert (Hwill : snd (checkAnimationStart (with_version h poll) poll) = true).
  { unfold checkAnimationStart. cbn [with_version _answers].
    rewrite Hlen, Nat.eqb_refl. simpl negb. cbv iota zeta. cbn [snd].
    apply orb_true_iff. right.
    unfold answerVotesChanged. cbn [_answers].
    rewrite Hlen, Nat.eqb_refl. simpl negb. simpl orb.
    destruct (length (_answers h) =? 0)%nat eqn:E0.
    - exfalso. apply Nat.eqb_eq in E0. apply Hvotes. unfold poll_votes.
      rewrite E0 in Hlen.
      destruct (_answers h); [|discriminate].
      destruct (PollData.answers poll); [reflexivity | discriminate].
    - apply negb_true_iff.
      destruct (ranges_equal Z.eqb Answer.votes PollAnswer.votes
                  (_answers h) (PollData.answers poll)) eqn:Er; [|reflexivity].
      exfalso. apply Hvotes.
      apply (ranges_equal_map Z.eqb Answer.votes PollAnswer.votes Z.eqb_eq).
      exact Er. }
  destruct (updateTexts_animated sort duration h poll Hs Hver Hopt Hmax Hwill)
    as (h' & animation & percents & H1 & H2 & H3 & H4 & H5 & H6 & H7 & H8
        & H9 & H10).
  exists h', animation, percents.
  repeat split; try assumption.
  - now apply H5.
  - now apply H4, animation_matches_none.
Qed.

Lemma updateTexts_votes_changed_witness :
  let h :=
    mkHistoryPoll 1 "Tea or coffee?" (Some lng_polls_anonymous)
      [Answer.make "Tea" "0" 1 100 1 "100%" false;
       Answer.make "Coffee" "1" 0 0 0 "0%" false]
      1 (Some (lng_polls_votes_count (FormatLargeNumber 1)))
      true false None None in
  let poll :=
    PollData.make "Tea or coffee?"
      [PollAnswer.make "Tea" "0" 1 true; PollAnswer.make "Coffee" "1" 2 false]
      3 false true "" 2 in
  exists h' animation,
    updateTexts insertion_sort 300 h poll = Some h'
    /\ _answersAnimation h' = Some animation
    /\ AnswersAnimation.progress animation = Simple_start 0 1 300
    /\ map start_values (AnswersAnimation.data animation)
       = [(100, 1, 1); (0, 0, 1)]%float
    /\ map target_values (AnswersAnimation.data animation)
       = [(33, 0.5, 1); (67, 1, 1)]%float.
Proof.
  intros h poll.
  destruct (updateTexts_votes_changed insertion_sort 300 h poll
              insertion_sort_sorts)
    as (h' & animation & percents & Hup & Hanim & Hprog & Hstart & Htarget
        & Hcan & Hper & Hpercent & _ & Hfilling).
  - simpl. discriminate.
  - reflexivity.
  - simpl. discriminate.
  - unfold kMaxOptions. simpl. lia.
  - reflexivity.
  - exists h', animation.
    split; [exact Hup|]. split; [exact Hanim|]. split; [exact Hprog|].
    split; [rewrite Hstart; reflexivity|].
    rewrite Htarget, Hcan.
    assert (Hvalue : percents = [33; 67]).
    { vm_compute in Hper. now injection Hper as <-. }
    rewrite Hvalue in Hpercent. clear - Hpercent Hfilling.
    destruct (_answers h') as [|a [|b [|c rest]]]; try discriminate.
    simpl in Hpercent, Hfilling.
    injection Hpercent as Hp1 Hp2. injection Hfilling as Hf1 Hf2.
    unfold shown_values. simpl. rewrite Hp1, Hp2, Hf1, Hf2. reflexivity.
Defined.

(** C4 as stated fails while the viewer can still vote.  After a first
    update the option "Tea" has one vote and the stored filling 1; a second
    update changes the votes of "Coffee".  The animation that the second
    update creates starts every entry at filling 0, not at the stored
    filling 1, and aims it at 0, not at the computed filling 1. *)
Lemma updateTexts_votes_changed_while_can_vote :
  let poll1 :=
    PollData.make "Tea or coffee?"
      [PollAnswer.make "Tea" "0" 1 false; PollAnswer.make "Coffee" "1" 0 false]
      1 false false "" 1 in
  let poll2 :=
    PollData.make "Tea or coffee?"
      [PollAnswer.make "Tea" "0" 1 false; PollAnswer.make "Coffee" "1" 1 false]
      2 false false "" 2 in
  exists h1 h2 animation,
    updateTexts insertion_sort 300 HistoryPoll_new poll1 = Some h1
    /\ _answersAnimation h1 = None
    /\ map Answer.option (_answers h1)
       = map PollAnswer.option (PollData.answers poll2)
    /\ map Answer.votes (_answers h1) = [1; 0]
    /\ poll_votes poll2 = [1; 1]
    /\ map Answer.filling (_answers h1) = [1; 0]%float
    /\ updateTexts insertion_sort 300 h1 poll2 = Some h2
    /\ _answersAnimation h2 = Some animation
    /\ map Answer.filling (_answers h2) = [1; 1]%float
    /\ map start_values (AnswersAnimation.data animation)
       = [(0, 0, 0); (0, 0, 0)]%float
    /\ map target_values (AnswersAnimation.data animation)
       = [(0, 0, 0); (0, 0, 0)]%float
    /\ PrimFloat.eqb 0 1 = false.
Proof.
  intros poll1 poll2.
  eexists. eexists. eexists.
  split; [vm_compute; reflexivity|].
  split; [reflexivity|]. split; [reflexivity|]. split; [reflexivity|].
  split; [reflexivity|]. split; [reflexivity|].
  split; [vm_compute; reflexivity|].
  split; [reflexivity|]. repeat split.
Qed.

(** ** A flip of the viewer's eligibility *)




(** ** The animation has an entry for every answer *)

Lemma updateAnswerVotes_keeps sort h poll h' :
  updateAnswerVotes sort h poll = Some h' ->
  length (_answers h') = length (_answers h)
  /\ _answersAnimation h' = _answersAnimation h.
Proof.
  unfold updateAnswerVotes.
  destruct (length (PollData.answers poll) =? length (_answers h))%nat eqn:El;
    simpl negb; simpl orb; cbv iota.
  2:{ intros H. injection H as <-. now split. }
  destruct (length (PollData.answers poll) =? 0)%nat;
    [intros H; injection H as <-; now split|].
  cbv zeta.
  destruct (length (PollData.answers poll) <=? kMaxOptions)%nat eqn:Em;
    simpl negb; cbv iota; [|discriminate].
  destruct (CountNicePercent sort _ _ _) as [written|] eqn:Ec; [|discriminate].
  intros H. injection H as <-.
  cbn [set_answers _answers _answersAnimation]. split; [|reflexivity].
  apply Nat.eqb_eq in El. apply Nat.leb_le in Em.
  apply CountNicePercent_length in Ec.
  rewrite firstn_repeat, repeat_length in Ec by exact Em.
  apply update_zipped_length; [exact El|].
  rewrite length_app, Ec. lia.
Qed.

Lemma updateVotes_keeps sort h poll h' :
  updateVotes sort h poll = Some h' ->
  length (_answers h') = length (_answers h)
  /\ _answersAnimation h' = _answersAnimation h.
Proof.
  unfold updateVotes.
  destruct (updateAnswerVotes sort _ poll) as [h1|] eqn:E; [|discriminate].
  intros H. injection H as <-.
  apply updateAnswerVotes_keeps in E. cbn [_answers _answersAnimation] in E.
  destruct (updateTotalVotes_fields h1 poll) as (-> & _ & _ & -> & _).
  exact E.
Qed.

Lemma checkAnimationStart_matches h poll :
  animation_matches h -> animation_matches (fst (checkAnimationStart h poll)).
Proof.
  intros Hinv. unfold checkAnimationStart.
  destruct (negb (length (PollData.answers poll) =? length (_answers h))%nat);
    [exact Hinv|].
  cbv zeta.
  destruct (negb (Bool.eqb (canVote h) _) || answerVotesChanged h poll);
    cbn [fst]; [|exact Hinv].
  destruct (_answersAnimation h) as [old|] eqn:Hold.
  - now rewrite (saveStateInAnimation_kept h old Hold).
  - destruct (saveStateInAnimation_new h Hold) as (saved & Hs1 & _ & Hs3 & _).
    intros animation Ha. rewrite Hs1 in Ha. injection Ha as <-.
    rewrite Hs3.
    destruct (saveStateInAnimation_fields h) as (-> & _). reflexivity.
Qed.

Lemma startAnswersAnimation_matches duration h :
  animation_matches h -> animation_matches (startAnswersAnimation duration h).
Proof.
  intros Hinv animation' Ha.
  destruct (startAnswersAnimation_fields duration h) as (-> & _).
  destruct (_answersAnimation h) as [animation|] eqn:Hold.
  - destruct (startAnswersAnimation_started duration h animation Hold)
      as (started & Hs1 & _ & Hs3 & _).
    rewrite Hs1 in Ha. injection Ha as <-. rewrite Hs3. now apply Hinv.
  - unfold startAnswersAnimation in Ha. rewrite Hold in Ha. congruence.
Qed.

Lemma updateTexts_matches sort duration h poll h' :
  animation_matches h ->
  updateTexts sort duration h poll = Some h' ->
  animation_matches h'.
Proof.
  intros Hinv. rewrite updateTexts_steps.
  destruct (_pollVersion h =? PollData.version poll).
  { intros H. now injection H as <-. }
  pose proof (checkAnimationStart_matches (with_version h poll) poll Hinv)
    as Hinv1.
  set (h1 := fst (checkAnimationStart (with_version h poll) poll)) in *.
  destruct (refresh_texts_fields h1 poll) as (Ha3 & _ & _ & Hn3 & _).
  set (h3 := refresh_texts h1 poll) in *.
  assert (Hinv4 : animation_matches (updateAnswers h3 poll)).
  { destruct (ranges_equal String.eqb Answer.option PollAnswer.option
                (_answers h3) (PollData.answers poll)) eqn:Eo.
    - destruct (updateAnswers_same_options h3 poll Eo)
        as (Hl & _ & _ & _ & _ & _ & _ & Hn & _).
      intros animation Ha. rewrite Hn, Hn3 in Ha.
      rewrite Hl, Ha3. now apply Hinv1.
    - apply animation_matches_none.
      apply (updateAnswers_new_options h3 poll Eo). }
  destruct (updateVotes sort (updateAnswers h3 poll) poll) as [h5|] eqn:Ev;
    [|discriminate].
  apply updateVotes_keeps in Ev. destruct Ev as [Hl5 Hn5].
  assert (Hinv5 : animation_matches h5).
  { intros animation Ha. rewrite Hn5 in Ha. rewrite Hl5. now apply Hinv4. }
  intros H. injection H as <-.
  destruct (snd (checkAnimationStart (with_version h poll) poll));
    [now apply startAnswersAnimation_matches | exact Hinv5].
Qed.

Lemma length_vector_set data i v :
  length (vector_set data i v) = length data.
Proof.
  revert i. induction data as [|x data IH]; intros [|i]; simpl;
    try reflexivity.
  now rewrite IH.
Qed.

Lemma draw_answers_reads indices data progress :
  Forall (fun i => (i < length data)%nat) indices ->
  exists data',
    draw_answers indices data progress = Some data'
    /\ length data' = length data.
Proof.
  revert data.
  induction indices as [|i indices IH]; intros data Hall; simpl.
  - now exists data.
  - inversion Hall as [|? ? Hi Hrest]; subst.
    destruct (nth_error data i) as [entry|] eqn:E.
    + destruct (IH (vector_set data i
                      (AnswerAnimation.make
                         (anim_update (AnswerAnimation.percent entry) progress)
                         (anim_update (AnswerAnimation.filling entry) progress)
                         (anim_update (AnswerAnimation.opacity entry)
                            progress))))
        as (data' & Hd & Hl).
      { now rewrite length_vector_set. }
      exists data'. split; [exact Hd|]. now rewrite Hl, length_vector_set.
    + apply nth_error_None in E. lia.
Qed.

Lemma checkSendingAnimation_fields h poll :
  _answers (checkSendingAnimation h poll) = _answers h
  /\ _answersAnimation (checkSendingAnimation h poll) = _answersAnimation h.
Proof.
  unfold checkSendingAnimation. cbv zeta.
  destruct (_sendingAnimation h), (isEmpty (PollData.sendingVote poll));
    simpl; auto;
    destruct (_answersAnimation h) eqn:E; simpl; rewrite ?E; auto.
Qed.

Lemma resetAnswersAnimation_fields h poll :
  _answers (resetAnswersAnimation h poll) = _answers h
  /\ _answersAnimation (resetAnswersAnimation h poll) = None.
Proof.
  unfold resetAnswersAnimation. cbv zeta.
  destruct (isEmpty (PollData.sendingVote poll)); simpl; auto.
Qed.

(** A paint of a view whose animation has an entry for every answer reads
    only entries that exist, and keeps it that way. *)
Lemma draw_matches h poll now :
  animation_matches h ->
  exists h', draw h poll now = Some h' /\ animation_matches h'.
Proof.
  intros Hinv. unfold draw. cbv zeta.
  destruct (checkSendingAnimation_fields h poll) as (Ha1 & Hn1).
  set (h1 := checkSendingAnimation h poll) in *.
  assert (Hinv1 : animation_matches h1).
  { intros animation Ha. rewrite Hn1 in Ha. rewrite Ha1. now apply Hinv. }
  set (progress := match _answersAnimation h1 with
                   | Some animation => _
                   | None => 1%float
                   end).
  assert (Hinv2 : animation_matches
                    (if PrimFloat.eqb progress 1
                     then resetAnswersAnimation h1 poll else h1)).
  { destruct (PrimFloat.eqb progress 1); [|exact Hinv1].
    apply animation_matches_none. apply resetAnswersAnimation_fields. }
  set (h2 := if PrimFloat.eqb progress 1
             then resetAnswersAnimation h1 poll else h1) in *.
  destruct (_answersAnimation h2) as [animation|] eqn:Han.
  - destruct (draw_answers_reads (seq 0 (length (_answers h2)))
                (AnswersAnimation.data animation) progress)
      as (data' & Hd & Hl).
    { rewrite Forall_forall. intros i Hi. apply in_seq in Hi.
      rewrite (Hinv2 animation Han). lia. }
    rewrite Hd. eexists. split; [reflexivity|].
    intros animation' Ha. cbn [set_answersAnimation _answersAnimation
      _answers] in Ha |- *.
    injection Ha as <-. cbn [AnswersAnimation.data].
    rewrite Hl. now apply Hinv2.
  - exists h2. split; [reflexivity|]. now apply animation_matches_none.
Qed.

(** C7.  In every view that can arise from a new view through updates and
    paints, the answers animation, when there is one, has exactly as many
    entries as there are stored answers; so the paint, which reads the entry
    at the index of every answer, finds each of them. *)
Theorem animation_entries_match_answers :
  forall (sort : list PercentCounterItem -> list PercentCounterItem)
         (duration : Z) (h : HistoryPoll),
    reachable sort duration h ->
    animation_matches h
    /\ forall poll now, exists h', draw h poll now = Some h'.
Proof.
  intros sort duration h Hreach.
  assert (Hinv : animation_matches h).
  { induction Hreach as [|h h' _ IH Hstep].
    - now apply animation_matches_none.
    - destruct Hstep as [h poll h' Hup | h poll now h' Hdraw].
      + now apply (updateTexts_matches sort duration h poll h').
      + destruct (draw_matches h poll now IH) as (h'' & Hd & Hm).
        rewrite Hd in Hdraw. now injection Hdraw as <-. }
  split; [exact Hinv|].
  intros poll now. destruct (draw_matches h poll now Hinv) as (h' & Hd & _).
  now exists h'.
Qed.

Lemma animation_entries_match_answers_witness :
  let poll1 :=
    PollData.make "Tea or coffee?"
      [PollAnswer.make "Tea" "0" 1 true; PollAnswer.make "Coffee" "1" 0 false]
      1 false true "" 1 in
  let poll2 :=
    PollData.make "Tea or coffee?"
      [PollAnswer.make "Tea" "0" 1 true; PollAnswer.make "Coffee" "1" 2 false]
      3 false true "" 2 in
  let after h poll :=
    match updateTexts insertion_sort 300 h poll with
    | Some h' => h'
    | None => h
    end in
  let h := after (after HistoryPoll_new poll1) poll2 in
  (exists animation,
     _answersAnimation h = Some animation
     /\ length (AnswersAnimation.data animation) = 2%nat
     /\ length (_answers h) = 2%nat)
  /\ animation_matches h
  /\ forall poll now, exists h', draw h poll now = Some h'.
Proof.
  intros poll1 poll2 after h.
  split.
  { vm_compute. eexists. repeat split. }
  apply (animation_entries_match_answers insertion_sort 300 h).
  apply reachable_step with (h := after HistoryPoll_new poll1).
  - apply reachable_step with (h := HistoryPoll_new).
    + apply reachable_new.
    + apply step_updateTexts with (poll := poll1). vm_compute. reflexivity.
  - apply step_updateTexts with (poll := poll2). vm_compute. reflexivity.
Defined.

(* ===================================================================== *)
(** * Part V: further properties of the allocator *)
(* ===================================================================== *)

(** ** The order that the sort uses *)

Lemma item_less_trans a b c :
  item_less a b = true -> item_less b c = true -> item_less a c = true.
Proof.
  unfold item_less. intros H1 H2.
  destruct (remainder a >? remainder b) eqn:E1;
    destruct (remainder b >? remainder c) eqn:E2;
    destruct (remainder a <? remainder b) eqn:E3;
    destruct (remainder b <? remainder c) eqn:E4;
    destruct (remainder a >? remainder c) eqn:E5;
    destruct (remainder a <? remainder c) eqn:E6;
    try discriminate; try reflexivity; try lia.
Qed.

Lemma item_less_same_key_false a b : same_key a b -> item_less a b = false.
Proof.
  intros Hk. rewrite (item_less_same_key_l a b b Hk). apply item_less_irrefl.
Qed.

Lemma item_less_cases a b :
  item_less a b = true \/ item_less b a = true \/ same_key a b.
Proof.
  destruct (item_less a b) eqn:E1; [now left|].
  destruct (item_less b a) eqn:E2; [now right; left|].
  right; right. now apply item_less_antisym.
Qed.

(** X1.  [PercentCounterItem::operator<] is a strict weak order, as the
    sort requires: it is irreflexive, asymmetric and transitive, and two
    items are unordered exactly when they have the same percent and
    remainder, so that being unordered is an equivalence whose classes are
    the groups of [AdjustPercentCount]. *)
Theorem item_less_strict_weak_order :
  (forall a, item_less a a = false)
  /\ (forall a b, item_less a b = true -> item_less b a = false)
  /\ (forall a b c,
        item_less a b = true -> item_less b c = true -> item_less a c = true)
  /\ (forall a b,
        (item_less a b = false /\ item_less b a = false) <-> same_key a b)
  /\ (forall a b c,
        item_less a b = false -> item_less b a = false ->
        item_less b c = false -> item_less c b = false ->
        item_less a c = false /\ item_less c a = false).
Proof.
  split; [exact item_less_irrefl|].
  split; [exact item_less_asym|].
  split; [exact item_less_trans|].
  split.
  - intros a b. split.
    + intros [H1 H2]. now apply item_less_antisym.
    + intros Hk. split; apply item_less_same_key_false;
        [exact Hk | now apply same_key_sym].
  - intros a b c H1 H2 H3 H4.
    assert (Hac : same_key a c).
    { apply same_key_trans with b; now apply item_less_antisym. }
    split; apply item_less_same_key_false;
      [exact Hac | now apply same_key_sym].
Qed.

(** ** Failure and success of [CountNicePercent] *)

(** X2.  [CountNicePercent] fails exactly when one of its two [Expects]
    does: the result span is shorter than the votes, or there are more votes
    than [kMaxOptions].  When it succeeds the result span keeps its length
    and its entries beyond the votes. *)
Theorem CountNicePercent_fails_iff :
  forall (sort : list PercentCounterItem -> list PercentCounterItem)
         (votes : list Z) (total : Z) (result : list Z),
    sorts sort ->
    (CountNicePercent sort votes total result = None
     <-> (length result < length votes)%nat
         \/ (kMaxOptions < length votes)%nat)
    /\ (forall out,
          CountNicePercent sort votes total result = Some out ->
          length out = length result
          /\ skipn (length votes) out = skipn (length votes) result).
Proof.
  intros sort votes total result Hs.
  destruct (Nat.le_gt_cases (length votes) (length result)) as [Hres|Hres];
    [destruct (Nat.le_gt_cases (length votes) kMaxOptions) as [Hmax|Hmax]|].
  - destruct (CountNicePercent_shape sort Hs votes total result Hres Hmax)
      as (chosen & _ & Hout & _).
    rewrite Hout. split.
    + split; [discriminate | lia].
    + intros out H. injection H as <-.
      assert (Hlen : length (map (fun item => percent (bump chosen item))
                               (initial_items votes total 0))
                     = length votes)
        by now rewrite length_map, initial_items_length.
      split.
      * rewrite length_app, length_skipn, Hlen. lia.
      * rewrite <- Hlen at 1. rewrite skipn_app, skipn_all, Nat.sub_diag.
        reflexivity.
  - assert (Hnone : CountNicePercent sort votes total result = None).
    { unfold CountNicePercent.
      destruct (negb (length votes <=? length result)%nat); [reflexivity|].
      apply Nat.leb_gt in Hmax. now rewrite Hmax. }
    rewrite Hnone. split; [split; auto | discriminate].
  - assert (Hnone : CountNicePercent sort votes total result = None).
    { unfold CountNicePercent. apply Nat.leb_gt in Hres. now rewrite Hres. }
    rewrite Hnone. split; [split; auto | discriminate].
Qed.

Lemma CountNicePercent_fails_iff_witness :
  (CountNicePercent insertion_sort [3; 1] 4 [0] = None
   <-> (length [0] < length [3; 1])%nat
       \/ (kMaxOptions < length [3; 1])%nat)
  /\ (forall out,
        CountNicePercent insertion_sort [3; 1] 4 [0] = Some out ->
        length out = length [0]
        /\ skipn (length [3; 1]) out = skipn (length [3; 1]) [0]).
Proof.
  apply (CountNicePercent_fails_iff insertion_sort [3; 1] 4 [0]).
  exact insertion_sort_sorts.
Defined.

(** ** Equal votes, equal percents *)

Lemma nth_initial_items votes total k i d :
  (i < length votes)%nat ->
  nth i (initial_items votes total k) d
  = mkItem (k + i) (Z.quot (nth i votes 0 * 100) total)
      (nth i votes 0 * 100 - Z.quot (nth i votes 0 * 100) total * total).
Proof.
  revert k i. induction votes as [|v votes IH]; intros k [|i] Hi;
    simpl in *; try lia.
  - now rewrite Nat.add_0_r.
  - rewrite IH by lia. f_equal. lia.
Qed.

(** X3.  Two options with the same number of votes always get the same
    percentage, whatever the other votes, the total and the sort are. *)
Theorem CountNicePercent_equal_votes :
  forall (sort : list PercentCounterItem -> list PercentCounterItem)
         (votes : list Z) (total : Z) (result out : list Z) (i j : nat),
    sorts sort ->
    CountNicePercent sort votes total result = Some out ->
    (i < length votes)%nat ->
    (j < length votes)%nat ->
    nth i votes 0 = nth j votes 0 ->
    nth i out 0 = nth j out 0.
Proof.
  intros sort votes total result out i j Hs Hout Hi Hj Heq.
  destruct (CountNicePercent_fails_iff sort votes total result Hs)
    as [Hfail _].
  assert (Hok : (length votes <= length result)%nat
                /\ (length votes <= kMaxOptions)%nat).
  { destruct (Nat.le_gt_cases (length votes) (length result));
      destruct (Nat.le_gt_cases (length votes) kMaxOptions); try tauto;
      rewrite (proj2 Hfail) in Hout by tauto; discriminate. }
  destruct Hok as [Hres Hmax].
  destruct (CountNicePercent_shape sort Hs votes total result Hres Hmax)
    as (chosen & Hkey & Hshape & _).
  rewrite Hshape in Hout. injection Hout as <-.
  set (items := initial_items votes total 0).
  set (f := fun item => percent (bump chosen item)).
  assert (Hlen : length (map f items) = length votes)
    by (unfold items; now rewrite length_map, initial_items_length).
  assert (Hnth : forall n, (n < length votes)%nat ->
            nth n (map f items ++ skipn (length votes) result) 0
            = f (nth n items (mkItem 0 0 0))).
  { intros n Hn. rewrite app_nth1 by lia.
    rewrite (nth_indep _ 0 (f (mkItem 0 0 0))) by lia. apply map_nth. }
  rewrite !Hnth by assumption. unfold f, items.
  rewrite !nth_initial_items by assumption. rewrite Heq.
  rewrite !bump_percent. cbn [percent].
  rewrite (Hkey (mkItem (0 + i) _ _) (mkItem (0 + j)
             (Z.quot (nth j votes 0 * 100) total)
             (nth j votes 0 * 100
              - Z.quot (nth j votes 0 * 100) total * total)));
    [reflexivity | split; reflexivity].
Qed.

Lemma CountNicePercent_equal_votes_witness :
  CountNicePercent insertion_sort [1; 3; 1; 3] 8 [0; 0; 0; 0]
  = Some [13; 37; 13; 37]
  /\ nth 0 [13; 37; 13; 37] 0 = nth 2 [13; 37; 13; 37] 0.
Proof.
  split; [reflexivity|].
  apply (CountNicePercent_equal_votes insertion_sort [1; 3; 1; 3] 8
           [0; 0; 0; 0] [13; 37; 13; 37] 0 2).
  - exact insertion_sort_sorts.
  - reflexivity.
  - simpl. lia.
  - simpl. lia.
  - reflexivity.
Defined.

(** ** Edge cases and the case without ties *)





Lemma adjust_loop_distinct items left :
  NoDup (map item_key items) ->
  0 <= left ->
  adjust_loop items left
  = map increment (firstn (Z.to_nat left) items)
      ++ skipn (Z.to_nat left) items.
Proof.
  revert left.
  induction items as [|item rest IH]; intros left Hnd Hleft.
  - rewrite adjust_loop_equation_1, firstn_nil, skipn_nil. reflexivity.
  - inversion Hnd as [|? ? Hnotin Hnd']; subst.
    assert (Hrun : equal_run item rest = 0%nat).
    { destruct rest as [|x rest']; [reflexivity|]. simpl.
      rewrite item_differs_key; [reflexivity|].
      intros Heq. apply Hnotin. simpl. left. exact Heq. }
    rewrite adjust_loop_cons, Hrun. cbn [firstn skipn].
    destruct (Z.of_nat 1 <=? left) eqn:E.
    + apply Z.leb_le in E.
      rewrite IH by (assumption || lia).
      replace (Z.to_nat left) with (S (Z.to_nat (left - Z.of_nat 1))) by lia.
      reflexivity.
    + apply Z.leb_gt in E.
      rewrite IH by (assumption || lia).
      replace left with 0 by lia. reflexivity.
Qed.

Lemma sorted_items_app_order l1 l2 a b :
  sorted_items (l1 ++ l2) -> In a l1 -> In b l2 -> item_less b a = false.
Proof.
  unfold sorted_items.
  induction l1 as [|x l1 IH]; intros Hs Ha Hb; [destruct Ha|].
  simpl in Hs. inversion Hs as [|? ? Hrest Hall]; subst.
  destruct Ha as [-> | Ha]; [|now apply IH].
  rewrite Forall_forall in Hall. apply Hall. apply in_or_app. now right.
Qed.

Lemma distinct_keys_app l1 l2 a b :
  NoDup (map item_key (l1 ++ l2)) -> In a l1 -> In b l2 -> ~ same_key a b.
Proof.
  induction l1 as [|x l1 IH]; intros Hnd Ha Hb; [destruct Ha|].
  simpl in Hnd. inversion Hnd as [|? ? Hnotin Hnd']; subst.
  destruct Ha as [-> | Ha]; [|now apply IH].
  intros [H1 H2]. apply Hnotin.
  replace (item_key a) with (item_key b) by (unfold item_key; congruence).
  apply in_map. apply in_or_app. now right.
Qed.

Lemma taken_before_others items n a b :
  sorted_items items ->
  NoDup (map item_key items) ->
  In a (firstn n items) -> In b (skipn n items) ->
  remainder b < remainder a
  \/ (remainder b = remainder a /\ percent a < percent b).
Proof.
  intros Hsorted Hnd Ha Hb.
  rewrite <- (firstn_skipn n items) in Hsorted, Hnd.
  pose proof (distinct_keys_app _ _ a b Hnd Ha Hb) as Hne.
  pose proof (sorted_items_app_order _ _ a b Hsorted Ha Hb) as Hba.
  destruct (item_less_cases a b) as [Hab | [Hab | Hab]];
    [|congruence | contradiction].
  unfold item_less in Hab.
  destruct (remainder a >? remainder b) eqn:E1; [lia|].
  destruct (remainder a <? remainder b) eqn:E2; [discriminate|].
  right. lia.
Qed.

(** X5.  Without ties [AdjustPercentCount] is the largest-remainder method:
    when no two items agree on both percent and remainder, exactly the first
    [left] items of the sorted array get one point each, and each of them
    has a remainder at least as large as every item that gets none (with the
    smaller percent when the remainders are equal). *)
Theorem AdjustPercentCount_largest_remainders :
  forall (sort : list PercentCounterItem -> list PercentCounterItem)
         (items : list PercentCounterItem) (left : Z),
    sorts sort ->
    NoDup (map item_key items) ->
    0 <= left ->
    let taken := firstn (Z.to_nat left) (sort items) in
    let others := skipn (Z.to_nat left) (sort items) in
    AdjustPercentCount sort items left = map increment taken ++ others
    /\ forall a b,
         In a taken -> In b others ->
         remainder b < remainder a
         \/ (remainder b = remainder a /\ percent a < percent b).
Proof.
  intros sort items left Hs Hnd Hleft taken others.
  destruct (Hs items) as [Hp Hsorted].
  assert (Hnd' : NoDup (map item_key (sort items))).
  { apply (Permutation_NoDup (Permutation_map item_key Hp) Hnd). }
  split.
  - unfold AdjustPercentCount. now apply adjust_loop_distinct.
  - intros a b Ha Hb.
    now apply (taken_before_others (sort items) (Z.to_nat left)).
Qed.

Lemma AdjustPercentCount_largest_remainders_witness :
  let items := [mkItem 0 14 2; mkItem 1 28 4; mkItem 2 57 1] in
  AdjustPercentCount insertion_sort items 1
  = [mkItem 1 29 4; mkItem 0 14 2; mkItem 2 57 1].
Proof.
  intros items.
  destruct (AdjustPercentCount_largest_remainders insertion_sort items 1
              insertion_sort_sorts) as [Heq _].
  - repeat constructor; simpl; intuition discriminate.
  - lia.
  - rewrite Heq. reflexivity.
Defined.

(** ** More votes, no smaller percent (without ties) *)




(* ===================================================================== *)
(** * Part VI: the format of large numbers *)
(* ===================================================================== *)

Lemma sign_quot n u :
  0 < u -> (if n >? 0 then 1 else -1) * Z.quot (Z.abs n) u = Z.quot n u.
Proof.
  intros Hu. destruct (n >? 0) eqn:E.
  - rewrite Z.abs_eq by lia. lia.
  - rewrite Z.abs_neq by lia. rewrite Z.quot_opp_l by lia. lia.
Qed.

Lemma quot_abs_bounds n u :
  0 < u ->
  u * Z.quot (Z.abs n) u <= Z.abs n < u * Z.quot (Z.abs n) u + u.
Proof.
  intros Hu. rewrite Z.quot_div_nonneg by lia.
  pose proof (Z.mul_div_le (Z.abs n) u Hu).
  pose proof (Z.mod_pos_bound (Z.abs n) u Hu).
  pose proof (Z.div_mod (Z.abs n) u ltac:(lia)). lia.
Qed.

(** X7.  [FormatLargeNumber] rounds towards zero.  The number fits an
    [int], as the field [rounded] does and as every caller's argument does.
    Below 10000 in absolute value the number is kept and not shortened.  From
    10000 on it is shortened and cut down to a multiple of a hundred (of a
    hundred thousand from a million on), positive or negative alike, so the
    rounded number still fits an [int]; the text shows the thousands
    (millions), then a point and one more digit unless that digit is zero,
    then the letter K (M). *)
Theorem FormatLargeNumber_rounds_towards_zero :
  forall number : Z,
    Z.abs number <= int_max ->
    let unit :=
      if Z.abs number >=? 1000000 then 100000
      else if Z.abs number >=? 10000 then 100 else 1 in
    let letter := if Z.abs number >=? 1000000 then "M"%string else "K"%string in
    let digit := Z.rem (Z.quot (Z.abs number) unit) 10 in
    rounded (FormatLargeNumber number) = Z.quot number unit * unit
    /\ shortened (FormatLargeNumber number) = (Z.abs number >=? 10000)
    /\ Z.abs (rounded (FormatLargeNumber number)) <= Z.abs number
    /\ Z.abs (number - rounded (FormatLargeNumber number)) < unit
    /\ formatted_text (FormatLargeNumber number)
       = if Z.abs number >=? 10000
         then
           (QString_number (Z.quot number (unit * 10))
              ++ (if (digit =? 0)%Z then "" else "." ++ QString_number digit)
              ++ letter)%string
         else QString_number number.
Proof.
  intros number _ unit letter digit.
  assert (Hcases : (Z.abs number >=? 1000000) = true /\ unit = 100000
                   \/ (Z.abs number >=? 1000000) = false
                      /\ (Z.abs number >=? 10000) = true /\ unit = 100
                   \/ (Z.abs number >=? 1000000) = false
                      /\ (Z.abs number >=? 10000) = false /\ unit = 1).
  { unfold unit. destruct (Z.abs number >=? 1000000);
      [now left | right].
    destruct (Z.abs number >=? 10000); [now left | now right]. }
  assert (Hshort : forall u, 0 < u ->
            let r := (if number >? 0 then 1 else -1)
                     * Z.quot (Z.abs number) u * u in
            r = Z.quot number u * u
            /\ Z.abs r <= Z.abs number
            /\ Z.abs (number - r) < u).
  { intros u Hu r. unfold r.
    pose proof (quot_abs_bounds number u Hu) as Hb.
    pose proof (sign_quot number u Hu) as Hs.
    split; [now rewrite Hs|].
    clear Hs. revert Hb. generalize (Z.quot (Z.abs number) u) as q.
    intros q Hb.
    assert (Hq : 0 <= q) by nia.
    assert (Hqu : 0 <= q * u) by nia.
    destruct (number >? 0) eqn:E.
    - rewrite Z.abs_eq in Hb by lia. rewrite (Z.abs_eq number) by lia.
      split; [apply Z.abs_le | apply Z.abs_lt]; lia.
    - rewrite Z.abs_neq in Hb by lia. rewrite (Z.abs_neq number) by lia.
      split; [apply Z.abs_le | apply Z.abs_lt]; lia. }
  assert (Htext : forall u, 0 < u ->
            Z.quot ((if number >? 0 then 1 else -1)
                    * Z.quot (Z.abs number) u) 10
            = Z.quot number (u * 10)).
  { intros u Hu. rewrite sign_quot by exact Hu.
    rewrite Z.quot_quot by lia. reflexivity. }
  unfold FormatLargeNumber. cbv zeta.
  destruct Hcases as [[E1 Hu] | [[E1 [E2 Hu]] | [E1 [E2 Hu]]]];
    unfold digit, letter; rewrite ?E1, ?E2, Hu;
    cbn [rounded shortened formatted_text].
  - change (Z.quot 1000000 10) with 100000.
    destruct (Hshort 100000 ltac:(lia)) as (H1 & H2 & H3).
    rewrite (Htext 100000) by lia.
    replace (Z.abs number >=? 10000) with true by lia.
    repeat split; try assumption.
    destruct (Z.rem (Z.quot (Z.abs number) 100000) 10 =? 0); reflexivity.
  - change (Z.quot 1000 10) with 100.
    destruct (Hshort 100 ltac:(lia)) as (H1 & H2 & H3).
    rewrite (Htext 100) by lia.
    repeat split; try assumption.
    destruct (Z.rem (Z.quot (Z.abs number) 100) 10 =? 0); reflexivity.
  - rewrite Z.quot_1_r. repeat split; lia.
Qed.

Lemma FormatLargeNumber_rounds_towards_zero_witness :
  Z.abs (-1234567) <= int_max
  /\ rounded (FormatLargeNumber (-1234567)) = -1200000
  /\ shortened (FormatLargeNumber (-1234567)) = true
  /\ formatted_text (FormatLargeNumber (-1234567)) = "-1.2M"%string.
Proof.
  assert (Hfit : Z.abs (-1234567) <= int_max) by (vm_compute; discriminate).
  split; [exact Hfit|].
  destruct (FormatLargeNumber_rounds_towards_zero (-1234567) Hfit)
    as (Hr & Hs & _ & _ & Ht).
  split; [rewrite Hr; reflexivity|].
  split; [rewrite Hs; reflexivity|].
  rewrite Ht. reflexivity.
Defined.

Lemma rounded_shortened number u k :
  0 < u -> 0 < k -> u * k <= Z.abs number ->
  let r := (if number >? 0 then 1 else -1) * Z.quot (Z.abs number) u * u in
  (r >? 0) = (number >? 0)
  /\ Z.quot (Z.abs r) u = Z.quot (Z.abs number) u
  /\ u * k <= Z.abs r <= Z.abs number.
Proof.
  intros Hu Hk Hbig r.
  pose proof (quot_abs_bounds number u Hu) as Hb.
  assert (Hkq : k <= Z.quot (Z.abs number) u).
  { destruct (Z_le_gt_dec k (Z.quot (Z.abs number) u)) as [Hle | Hgt];
      [exact Hle|].
    assert (u * (Z.quot (Z.abs number) u + 1) <= u * k)
      by (apply Z.mul_le_mono_nonneg_l; lia).
    lia. }
  assert (Hku : u * k <= Z.quot (Z.abs number) u * u).
  { rewrite (Z.mul_comm _ u). apply Z.mul_le_mono_nonneg_l; lia. }
  assert (Habs : Z.abs r = Z.quot (Z.abs number) u * u).
  { unfold r. revert Hb Hku. generalize (Z.quot (Z.abs number) u) as q.
    intros q Hb Hku.
    destruct (number >? 0); [rewrite Z.abs_eq | rewrite Z.abs_neq]; nia. }
  assert (Hsign : (r >? 0) = (number >? 0)).
  { unfold r. revert Hb Hku.
    generalize (Z.quot (Z.abs number) u) as q. intros q Hb Hku.
    assert (Hq : 0 < q * u) by nia.
    destruct (number >? 0); lia. }
  split; [exact Hsign|].
  split; [rewrite Habs; apply Z.quot_mul; lia|].
  rewrite Habs. lia.
Qed.

(** X8.  Formatting is stable: the rounded number that [FormatLargeNumber]
    returns for a number that fits an [int] formats to the very same result
    (the same rounded number, the same flag and the same text), so the count
    that [updateTotalVotes] hands to the translated phrase stands for the
    text that replaces it. *)
Theorem FormatLargeNumber_of_rounded :
  forall number : Z,
    Z.abs number <= int_max ->
    FormatLargeNumber (rounded (FormatLargeNumber number))
    = FormatLargeNumber number.
Proof.
  intros number _.
  remember (rounded (FormatLargeNumber number)) as r eqn:Er.
  unfold FormatLargeNumber in Er. cbv zeta in Er.
  destruct (Z.abs number >=? 1000000) eqn:E1.
  - change (Z.quot 1000000 10) with 100000 in Er. cbn [rounded] in Er.
    destruct (rounded_shortened number 100000 10
                ltac:(lia) ltac:(lia) ltac:(lia)) as (Hs & Hq & Hr).
    cbv zeta in Hs, Hq, Hr. rewrite <- Er in Hs, Hq, Hr.
    unfold FormatLargeNumber. cbv zeta.
    change (Z.quot 1000000 10) with 100000.
    rewrite E1.
    replace (Z.abs r >=? 1000000) with true by lia.
    rewrite Hs, Hq. reflexivity.
  - destruct (Z.abs number >=? 10000) eqn:E2.
    + change (Z.quot 1000 10) with 100 in Er. cbn [rounded] in Er.
      destruct (rounded_shortened number 100 100
                  ltac:(lia) ltac:(lia) ltac:(lia)) as (Hs & Hq & Hr).
      cbv zeta in Hs, Hq, Hr. rewrite <- Er in Hs, Hq, Hr.
      unfold FormatLargeNumber. cbv zeta.
      change (Z.quot 1000 10) with 100.
      rewrite E1, E2.
      replace (Z.abs r >=? 1000000) with false by lia.
      replace (Z.abs r >=? 10000) with true by lia.
      rewrite Hs, Hq. reflexivity.
    + cbn [rounded] in Er. subst r. reflexivity.
Qed.

Lemma FormatLargeNumber_of_rounded_witness :
  Z.abs 123456 <= int_max
  /\ rounded (FormatLargeNumber 123456) = 123400
  /\ FormatLargeNumber 123400 = FormatLargeNumber 123456.
Proof.
  assert (Hfit : Z.abs 123456 <= int_max) by (vm_compute; discriminate).
  split; [exact Hfit|].
  split; [reflexivity|].
  exact (FormatLargeNumber_of_rounded 123456 Hfit).
Defined.

(* ===================================================================== *)
(** * Part VII: further properties of the view *)
(* ===================================================================== *)

(** ** What the steps leave alone *)

Lemma same_data_refl h : same_data h h.
Proof. unfold same_data. auto 10. Qed.

Lemma same_data_trans h1 h2 h3 :
  same_data h1 h2 -> same_data h2 h3 -> same_data h1 h3.
Proof.
  unfold same_data.
  intros (A1 & A2 & A3 & A4 & A5 & A6 & A7 & A8)
         (B1 & B2 & B3 & B4 & B5 & B6 & B7 & B8).
  repeat split; congruence.
Qed.

Lemma set_answersAnimation_data h animation :
  same_data h (set_answersAnimation h animation).
Proof. unfold same_data. simpl. auto 10. Qed.

Lemma set_sendingAnimation_data h animation :
  same_data h (set_sendingAnimation h animation).
Proof. unfold same_data. simpl. auto 10. Qed.

Lemma saveStateInAnimation_data h : same_data h (saveStateInAnimation h).
Proof.
  unfold saveStateInAnimation. destruct (_answersAnimation h).
  - apply same_data_refl.
  - apply set_answersAnimation_data.
Qed.

Lemma checkAnimationStart_result h poll :
  fst (checkAnimationStart h poll)
  = if snd (checkAnimationStart h poll) then saveStateInAnimation h else h.
Proof.
  unfold checkAnimationStart.
  destruct (negb (length (PollData.answers poll) =? length (_answers h))%nat);
    [reflexivity|].
  cbv zeta.
  destruct (negb (Bool.eqb (canVote h) _) || answerVotesChanged h poll);
    reflexivity.
Qed.

Lemma checkAnimationStart_data h poll :
  same_data h (fst (checkAnimationStart h poll)).
Proof.
  rewrite checkAnimationStart_result.
  destruct (snd (checkAnimationStart h poll)).
  - apply saveStateInAnimation_data.
  - apply same_data_refl.
Qed.

Lemma startAnswersAnimation_data duration h :
  same_data h (startAnswersAnimation duration h).
Proof.
  unfold startAnswersAnimation. destruct (_answersAnimation h).
  - apply set_answersAnimation_data.
  - apply same_data_refl.
Qed.

Lemma resetAnswersAnimation_data h poll :
  same_data h (resetAnswersAnimation h poll).
Proof.
  unfold resetAnswersAnimation. cbv zeta.
  destruct (isEmpty (PollData.sendingVote poll)).
  - eapply same_data_trans; [apply set_answersAnimation_data|].
    apply set_sendingAnimation_data.
  - apply set_answersAnimation_data.
Qed.

Lemma checkSendingAnimation_data h poll :
  same_data h (checkSendingAnimation h poll).
Proof.
  unfold checkSendingAnimation. cbv zeta.
  destruct (Bool.eqb _ _).
  - destruct (negb _);
      [apply set_sendingAnimation_data | apply same_data_refl].
  - destruct (isEmpty (PollData.sendingVote poll)).
    + destruct (_answersAnimation h);
        [apply same_data_refl | apply set_sendingAnimation_data].
    + apply set_sendingAnimation_data.
Qed.

Lemma draw_data h poll now h' : draw h poll now = Some h' -> same_data h h'.
Proof.
  unfold draw. cbv zeta.
  set (h1 := checkSendingAnimation h poll).
  set (progress := match _answersAnimation h1 with
                   | Some animation => _
                   | None => 1%float
                   end).
  set (h2 := if PrimFloat.eqb progress 1
             then resetAnswersAnimation h1 poll else h1).
  assert (H2 : same_data h h2).
  { eapply same_data_trans; [apply checkSendingAnimation_data|].
    fold h1. unfold h2. destruct (PrimFloat.eqb progress 1).
    - apply resetAnswersAnimation_data.
    - apply same_data_refl. }
  destruct (_answersAnimation h2) as [animation|].
  - destruct (draw_answers _ _ _) as [data|]; [|discriminate].
    intros H. injection H as <-.
    eapply same_data_trans; [exact H2|]. apply set_answersAnimation_data.
  - intros H. injection H as <-. exact H2.
Qed.

Lemma labels_consistent_data h h' :
  same_data h h' -> labels_consistent h -> labels_consistent h'.
Proof.
  unfold same_data, labels_consistent, canVote.
  intros (_ & _ & -> & -> & -> & -> & -> & ->). auto.
Qed.

(** ** The texts after an update *)

Lemma refresh_texts_others h poll :
  _question (refresh_texts h poll) = PollData.question poll
  /\ _totalVotes (refresh_texts h poll) = _totalVotes h
  /\ _totalVotesLabel (refresh_texts h poll) = _totalVotesLabel h
  /\ _sendingAnimation (refresh_texts h poll) = _sendingAnimation h
  /\ (_subtitle h = None \/ _subtitle h = Some (subtitle_of (_closed h)) ->
      _subtitle (refresh_texts h poll)
      = Some (subtitle_of (PollData.closed poll))).
Proof.
  unfold refresh_texts, subtitle_of.
  destruct (String.eqb (_question h) (PollData.question poll)) eqn:Eq;
    [apply String.eqb_eq in Eq|];
    simpl negb; cbv iota;
    cbn [_closed _subtitle _question _totalVotes _totalVotesLabel
         _sendingAnimation];
    (destruct (Bool.eqb (_closed h) (PollData.closed poll)) eqn:E;
     [apply eqb_prop in E|]; destruct (_subtitle h) eqn:Es; simpl;
     repeat split; auto;
     try (rewrite ?Es, <- ?E; intros [H | H]; congruence)).
Qed.

Lemma updateAnswers_installs h poll :
  length (_answers (updateAnswers h poll)) = length (PollData.answers poll)
  /\ map Answer.option (_answers (updateAnswers h poll))
     = map PollAnswer.option (PollData.answers poll)
  /\ map Answer.text (_answers (updateAnswers h poll))
     = map PollAnswer.text (PollData.answers poll)
  /\ _pollVersion (updateAnswers h poll) = _pollVersion h
  /\ _question (updateAnswers h poll) = _question h
  /\ _subtitle (updateAnswers h poll) = _subtitle h
  /\ _totalVotes (updateAnswers h poll) = _totalVotes h
  /\ _totalVotesLabel (updateAnswers h poll) = _totalVotesLabel h
  /\ _voted (updateAnswers h poll) = _voted h
  /\ _closed (updateAnswers h poll) = _closed h.
Proof.
  unfold updateAnswers.
  destruct (ranges_equal String.eqb Answer.option PollAnswer.option
              (_answers h) (PollData.answers poll)) eqn:E;
    simpl negb; cbv iota zeta.
  - pose proof (ranges_equal_length _ _ _ _ _ E) as Hlen.
    apply (ranges_equal_map String.eqb Answer.option PollAnswer.option
             String.eqb_eq) in E.
    cbn [set_answers _answers _pollVersion _question _subtitle _totalVotes
         _totalVotesLabel _voted _closed].
    repeat split.
    + rewrite length_map, length_combine. lia.
    + rewrite map_map, <- E.
      rewrite <- (map_combine_fst Answer.option (_answers h)
                    (PollData.answers poll)) by exact Hlen.
      apply map_ext. intros [a o]. apply fillText_fields.
    + rewrite map_map.
      rewrite <- (map_combine_snd PollAnswer.text (_answers h)
                    (PollData.answers poll)) by exact Hlen.
      apply map_ext. intros [a o]. apply fillText_text.
  - unfold resetAnswersAnimation. cbv zeta.
    destruct (isEmpty (PollData.sendingVote poll));
      cbn [set_answers set_answersAnimation set_sendingAnimation
           _answers _pollVersion _question _subtitle _totalVotes
           _totalVotesLabel _voted _closed];
      (repeat split;
       [ now rewrite length_map
       | rewrite map_map; apply map_ext; intros a; apply fillText_fields
       | rewrite map_map; apply map_ext; intros a; apply fillText_text ]).
Qed.

Lemma updateAnswerVotes_sets sort h poll h' :
  updateAnswerVotes sort h poll = Some h' ->
  exists answers, h' = set_answers h answers.
Proof.
  unfold updateAnswerVotes.
  destruct (negb (length (PollData.answers poll) =? length (_answers h))%nat
            || (length (PollData.answers poll) =? 0)%nat).
  { intros H. injection H as <-. exists (_answers h).
    symmetry. apply set_answers_same. }
  cbv zeta.
  destruct (negb (length (PollData.answers poll) <=? kMaxOptions)%nat);
    [discriminate|].
  destruct (CountNicePercent sort _ _ _) as [written|]; [|discriminate].
  intros H. injection H as <-. eexists. reflexivity.
Qed.

Lemma updateVotes_others sort h poll h' :
  updateVotes sort h poll = Some h' ->
  _pollVersion h' = _pollVersion h
  /\ _question h' = _question h
  /\ _subtitle h' = _subtitle h
  /\ _closed h' = _closed h
  /\ _voted h' = PollData.voted poll
  /\ _totalVotes h' = PollData.totalVoters poll
  /\ _sendingAnimation h' = _sendingAnimation h
  /\ (_totalVotesLabel h = None
      \/ _totalVotesLabel h = Some (total_label_of (_totalVotes h)) ->
      _totalVotesLabel h'
      = Some (total_label_of (PollData.totalVoters poll))).
Proof.
  unfold updateVotes.
  destruct (updateAnswerVotes sort _ poll) as [h1|] eqn:E; [|discriminate].
  intros H. injection H as <-.
  apply updateAnswerVotes_sets in E. destruct E as [answers ->].
  unfold updateTotalVotes, total_label_of.
  cbn [set_answers _totalVotes _totalVotesLabel].
  destruct (_totalVotes h =? PollData.totalVoters poll) eqn:Et;
    [apply Z.eqb_eq in Et|];
    destruct (_totalVotesLabel h) as [label|] eqn:El; simpl;
    repeat split; auto; try (rewrite <- ?Et; intros [H | H]; congruence).
Qed.

(** ** The percent strings *)

Lemma percent_label_fits can answer :
  percent_label can answer -> percent_text_fits answer.
Proof.
  unfold percent_label, percent_text_fits. destruct can.
  - intros [_ H]. now left.
  - intros H. now right.
Qed.

Lemma updateAnswerVotesFromOriginal_label can answer original percent m :
  percent_text_fits answer ->
  percent_label can
    (updateAnswerVotesFromOriginal can answer original percent m).
Proof.
  unfold percent_text_fits, percent_label, updateAnswerVotesFromOriginal.
  intros Hfits. destruct can; [simpl; auto|].
  destruct (isEmpty (Answer.votesPercentString answer)) eqn:Ee;
    [reflexivity|].
  destruct (Answer.votesPercent answer =? percent) eqn:Ep; [|reflexivity].
  simpl. destruct Hfits as [H | H]; [|exact H].
  rewrite H in Ee. discriminate.
Qed.

Lemma update_zipped_labels can m answers originals percents :
  Forall percent_text_fits answers ->
  Forall (percent_label can) (update_zipped can m answers originals percents).
Proof.
  intros Hall. revert originals percents.
  induction Hall as [|a answers Ha _ IH]; intros [|o originals] [|p percents];
    simpl; try constructor.
  - now apply updateAnswerVotesFromOriginal_label.
  - apply IH.
Qed.

Lemma updateAnswers_fits h poll :
  Forall percent_text_fits (_answers h) ->
  Forall percent_text_fits (_answers (updateAnswers h poll)).
Proof.
  intros Hall. unfold updateAnswers.
  assert (Hfill : forall a o, percent_text_fits a ->
            percent_text_fits (fillText a o)).
  { intros a o. unfold percent_text_fits.
    destruct (fillText_fields a o) as (_ & _ & -> & _ & ->). auto. }
  destruct (ranges_equal String.eqb Answer.option PollAnswer.option
              (_answers h) (PollData.answers poll));
    simpl negb; cbv iota zeta.
  - cbn [set_answers _answers].
    apply Forall_forall. intros x Hx. apply in_map_iff in Hx.
    destruct Hx as ([a o] & <- & Hin). apply Hfill.
    apply in_combine_l in Hin.
    rewrite Forall_forall in Hall. now apply Hall.
  - unfold resetAnswersAnimation. cbv zeta.
    destruct (isEmpty (PollData.sendingVote poll));
      cbn [set_answers set_answersAnimation set_sendingAnimation _answers];
      apply Forall_forall; intros x Hx; apply in_map_iff in Hx;
      destruct Hx as (o & <- & _); apply Hfill; now left.
Qed.

Lemma updateVotes_labels sort h poll h' :
  length (PollData.answers poll) = length (_answers h) ->
  Forall percent_text_fits (_answers h) ->
  updateVotes sort h poll = Some h' ->
  Forall (percent_label (canVote h')) (_answers h').
Proof.
  intros Hlen Hall. unfold updateVotes.
  set (hv := mkHistoryPoll (_pollVersion h) (_question h) (_subtitle h)
               (_answers h) (_totalVotes h) (_totalVotesLabel h)
               (PollData.voted poll) (_closed h) (_answersAnimation h)
               (_sendingAnimation h)).
  destruct (updateAnswerVotes sort hv poll) as [h1|] eqn:E; [|discriminate].
  intros H. injection H as <-.
  destruct (updateTotalVotes_fields h1 poll) as (Ha & Hv & Hc & _).
  rewrite Ha, (canVote_fields h1 _ Hv Hc).
  revert E. unfold updateAnswerVotes. cbn [_answers hv].
  rewrite Hlen, Nat.eqb_refl. simpl negb. simpl orb.
  destruct (length (_answers h) =? 0)%nat eqn:E0.
  { intros H. injection H as <-. cbn [_answers hv].
    apply Nat.eqb_eq in E0. destruct (_answers h); [constructor|discriminate]. }
  cbv zeta.
  destruct (negb (length (_answers h) <=? kMaxOptions)%nat); [discriminate|].
  destruct (CountNicePercent sort _ _ _) as [written|]; [|discriminate].
  intros H. injection H as <-.
  cbn [set_answers _answers]. unfold canVote at 1. cbn [_voted _closed].
  fold (canVote hv).
  now apply update_zipped_labels.
Qed.

(** An update keeps the texts in agreement with the numbers. *)
Lemma updateTexts_labels sort duration h poll h' :
  labels_consistent h ->
  updateTexts sort duration h poll = Some h' ->
  labels_consistent h'.
Proof.
  intros Hinv. rewrite updateTexts_steps.
  destruct (_pollVersion h =? PollData.version poll).
  { intros H. now injection H as <-. }
  pose proof (checkAnimationStart_data (with_version h poll) poll) as Hd1.
  set (h1 := fst (checkAnimationStart (with_version h poll) poll)) in *.
  assert (Hinv1 : labels_consistent h1).
  { apply (labels_consistent_data (with_version h poll)); [exact Hd1|].
    exact Hinv. }
  destruct Hinv1 as (Hsub1 & Hlab1 & Hper1).
  destruct (refresh_texts_fields h1 poll) as (Ha3 & Hv3 & Hc3 & _ & _).
  destruct (refresh_texts_others h1 poll) as (_ & Ht3 & Hl3 & _ & Hs3).
  specialize (Hs3 Hsub1).
  set (h3 := refresh_texts h1 poll) in *.
  destruct (updateAnswers_installs h3 poll)
    as (Hl4 & _ & _ & _ & _ & Hs4 & Ht4 & Hb4 & Hv4 & Hc4).
  assert (Hfit4 : Forall percent_text_fits (_answers (updateAnswers h3 poll))).
  { apply updateAnswers_fits. rewrite Ha3.
    apply (Forall_impl _ (percent_label_fits (canVote h1))). exact Hper1. }
  set (h4 := updateAnswers h3 poll) in *.
  destruct (updateVotes sort h4 poll) as [h5|] eqn:Ev; [|discriminate].
  pose proof (updateVotes_labels sort h4 poll h5 (eq_sym Hl4) Hfit4 Ev)
    as Hper5.
  destruct (updateVotes_others sort h4 poll h5 Ev)
    as (_ & _ & Hs5 & Hc5 & _ & Ht5 & _ & Hb5).
  assert (Hinv5 : labels_consistent h5).
  { split; [|split].
    - right. rewrite Hs5, Hs4, Hs3, Hc5, Hc4, Hc3. reflexivity.
    - right. rewrite Ht5. apply Hb5. rewrite Hb4, Ht4, Hl3, Ht3. exact Hlab1.
    - exact Hper5. }
  intros H. injection H as <-.
  destruct (snd (checkAnimationStart (with_version h poll) poll)).
  - apply (labels_consistent_data h5); [|exact Hinv5].
    apply startAnswersAnimation_data.
  - exact Hinv5.
Qed.

(** X9.  In every view that can arise from a new view through updates and
    paints, the texts agree with the numbers they stand for: the subtitle,
    once set, says closed exactly when the stored closed flag is set; the
    label of the total, once set, is the one made from the stored total; and
    every answer shows no percent (zero and an empty string) while the
    viewer can vote, and otherwise the string [QString::number] makes of its
    stored percent, followed by a percent sign. *)
Theorem reachable_labels_consistent :
  forall (sort : list PercentCounterItem -> list PercentCounterItem)
         (duration : Z) (h : HistoryPoll),
    reachable sort duration h -> labels_consistent h.
Proof.
  intros sort duration h Hreach.
  induction Hreach as [|h h' _ IH Hstep].
  - split; [now left | split; [now left | constructor]].
  - destruct Hstep as [h poll h' Hup | h poll now h' Hdraw].
    + now apply (updateTexts_labels sort duration h poll h').
    + apply (labels_consistent_data h); [|exact IH].
      now apply (draw_data h poll now).
Qed.

Lemma reachable_labels_consistent_witness :
  let poll :=
    PollData.make "Tea or coffee?"
      [PollAnswer.make "Tea" "0" 3 true; PollAnswer.make "Coffee" "1" 1 false]
      4 false true "" 1 in
  let h :=
    match updateTexts insertion_sort 300 HistoryPoll_new poll with
    | Some h' => h'
    | None => HistoryPoll_new
    end in
  map Answer.votesPercentString (_answers h) = ["75%"; "25%"]%string
  /\ _totalVotesLabel h = Some (total_label_of 4)
  /\ labels_consistent h.
Proof.
  intros poll h.
  split; [vm_compute; reflexivity|].
  split; [vm_compute; reflexivity|].
  apply (reachable_labels_consistent insertion_sort 300 h).
  apply reachable_step with (h := HistoryPoll_new).
  - apply reachable_new.
  - apply step_updateTexts with (poll := poll). vm_compute. reflexivity.
Defined.

(** ** What an update installs *)

(** X10.  Whatever the view held before, an update with a poll of another
    version (and within the capacity) succeeds and leaves the view with the
    poll's data: its version, question, closed and voted flags and total,
    and an answer for every option of the poll, in the poll's order, with
    the poll's option, text and votes, the percent that [CountNicePercent]
    computes for it (zero while the viewer can vote) and the filling
    votes / max (1, largest vote count). *)
Theorem updateTexts_installs_poll :
  forall (sort : list PercentCounterItem -> list PercentCounterItem)
         (duration : Z) (h : HistoryPoll) (poll : PollData.t),
    sorts sort ->
    PollData.version poll <> _pollVersion h ->
    (length (PollData.answers poll) <= kMaxOptions)%nat ->
    exists h' percents,
      updateTexts sort duration h poll = Some h'
      /\ _pollVersion h' = PollData.version poll
      /\ _question h' = PollData.question poll
      /\ _closed h' = PollData.closed poll
      /\ _voted h' = PollData.voted poll
      /\ _totalVotes h' = PollData.totalVoters poll
      /\ map Answer.option (_answers h')
         = map PollAnswer.option (PollData.answers poll)
      /\ map Answer.text (_answers h')
         = map PollAnswer.text (PollData.answers poll)
      /\ map Answer.votes (_answers h') = poll_votes poll
      /\ CountNicePercent sort (poll_votes poll) (poll_total poll)
           (repeat 0 (length (PollData.answers poll))) = Some percents
      /\ map Answer.votesPercent (_answers h')
         = map (fun p => if poll_canVote poll then 0 else p) percents
      /\ map Answer.filling (_answers h')
         = map (fun original =>
                  PrimFloat.div (float64_of_int (PollAnswer.votes original))
                    (float64_of_int
                       (Z.max 1 (max_element_votes (PollData.answers poll)))))
             (PollData.answers poll).
Proof.
  intros sort duration h poll Hs Hver Hmax.
  rewrite updateTexts_steps.
  destruct (_pollVersion h =? PollData.version poll) eqn:E;
    [apply Z.eqb_eq in E; congruence|].
  destruct (checkAnimationStart_data (with_version h poll) poll)
    as (Hp1 & _).
  set (h1 := fst (checkAnimationStart (with_version h poll) poll)) in *.
  destruct (refresh_texts_fields h1 poll) as (_ & _ & Hc3 & _ & Hp3).
  destruct (refresh_texts_others h1 poll) as (Hq3 & _).
  set (h3 := refresh_texts h1 poll) in *.
  destruct (updateAnswers_installs h3 poll)
    as (Hl4 & Ho4 & Ht4 & Hp4 & Hq4 & _ & _ & _ & _ & Hc4).
  set (h4 := updateAnswers h3 poll) in *.
  destruct (updateVotes_fields sort h4 poll Hs (eq_sym Hl4) Hmax)
    as (percents & h5 & Hper & Hpl & Hup & Ha5 & Hv5 & Hc5 & _ & Hp5).
  destruct (updateVotes_others sort h4 poll h5 Hup)
    as (_ & Hq5 & _ & _ & _ & Ht5 & _).
  rewrite Hup.
  destruct (update_zipped_fields
              (negb (PollData.voted poll) && negb (_closed h4))
              (Z.max 1 (max_element_votes (PollData.answers poll)))
              (_answers h4) (PollData.answers poll) percents
              (eq_sym Hl4) (eq_trans Hpl (eq_sym Hl4)))
    as (_ & Fo & Ft & Fv & Fp & Ff).
  rewrite <- Ha5 in Fo, Ft, Fv, Fp, Ff.
  rewrite Hc4, Hc3 in Fp. fold (poll_canVote poll) in Fp.
  set (h6 := if snd (checkAnimationStart (with_version h poll) poll)
             then startAnswersAnimation duration h5 else h5).
  assert (H6 : same_data h5 h6).
  { unfold h6. destruct (snd _).
    - apply startAnswersAnimation_data.
    - apply same_data_refl. }
  destruct H6 as (E1 & E2 & _ & E4 & E5 & _ & E7 & E8).
  exists h6, percents. rewrite E1, E2, E4, E5, E7, E8.
  repeat split; try assumption; try congruence.
  rewrite Hp5, Hp4, Hp3, Hp1. reflexivity.
Qed.

Lemma updateTexts_installs_poll_witness :
  let poll :=
    PollData.make "Tea or coffee?"
      [PollAnswer.make "Tea" "0" 2 false; PollAnswer.make "Coffee" "1" 1 true]
      3 false true "" 7 in
  let h :=
    mkHistoryPoll 6 "Tea?"
      None [Answer.make "Tea" "0" 1 100 1 "100%" false] 1 None true false
      None None in
  exists h',
    updateTexts insertion_sort 300 h poll = Some h'
    /\ _pollVersion h' = 7
    /\ map Answer.text (_answers h') = ["Tea"; "Coffee"]%string
    /\ map Answer.votesPercent (_answers h') = [67; 33].
Proof.
  intros poll h.
  destruct (updateTexts_installs_poll insertion_sort 300 h poll
              insertion_sort_sorts)
    as (h' & percents & Hup & Hver & _ & _ & _ & _ & _ & Htext & _ & Hper
        & Hpercent & _).
  { simpl. discriminate. }
  { unfold kMaxOptions. simpl. lia. }
  exists h'. split; [exact Hup|]. split; [exact Hver|].
  split; [exact Htext|].
  rewrite Hpercent.
  assert (Hvalue : percents = [67; 33]).
  { vm_compute in Hper. now injection Hper as <-. }
  rewrite Hvalue. reflexivity.
Defined.

Lemma updateTexts_version sort duration h poll h' :
  updateTexts sort duration h poll = Some h' ->
  _pollVersion h' = PollData.version poll.
Proof.
  rewrite updateTexts_steps.
  destruct (_pollVersion h =? PollData.version poll) eqn:E.
  { intros H. injection H as <-. now apply Z.eqb_eq. }
  destruct (checkAnimationStart_data (with_version h poll) poll)
    as (Hp1 & _).
  set (h1 := fst (checkAnimationStart (with_version h poll) poll)) in *.
  destruct (refresh_texts_fields h1 poll) as (_ & _ & _ & _ & Hp3).
  set (h3 := refresh_texts h1 poll) in *.
  destruct (updateAnswers_installs h3 poll) as (_ & _ & _ & Hp4 & _).
  set (h4 := updateAnswers h3 poll) in *.
  destruct (updateVotes sort h4 poll) as [h5|] eqn:Ev; [|discriminate].
  destruct (updateVotes_others sort h4 poll h5 Ev) as (Hp5 & _).
  intros H. injection H as <-.
  assert (Hp6 : _pollVersion h5 = PollData.version poll).
  { rewrite Hp5, Hp4, Hp3, Hp1. reflexivity. }
  destruct (snd _); [|exact Hp6].
  destruct (startAnswersAnimation_data duration h5) as (-> & _). exact Hp6.
Qed.

(** X11.  An update is done once per version: when [updateTexts] has gone
    through for a poll, the view holds the poll's version, and calling it
    again with the same poll changes nothing (in particular an animation it
    started is not started again). *)
Theorem updateTexts_once_per_version :
  forall (sort : list PercentCounterItem -> list PercentCounterItem)
         (duration : Z) (h h' : HistoryPoll) (poll : PollData.t),
    updateTexts sort duration h poll = Some h' ->
    _pollVersion h' = PollData.version poll
    /\ updateTexts sort duration h' poll = Some h'.
Proof.
  intros sort duration h h' poll Hup.
  pose proof (updateTexts_version sort duration h poll h' Hup) as Hv.
  split; [exact Hv|].
  rewrite updateTexts_steps, Hv, Z.eqb_refl. reflexivity.
Qed.

Lemma updateTexts_once_per_version_witness :
  let poll :=
    PollData.make "Tea or coffee?"
      [PollAnswer.make "Tea" "0" 3 true; PollAnswer.make "Coffee" "1" 1 false]
      4 false true "" 1 in
  exists h',
    updateTexts insertion_sort 300 HistoryPoll_new poll = Some h'
    /\ _pollVersion h' = 1
    /\ updateTexts insertion_sort 300 h' poll = Some h'.
Proof.
  intros poll.
  destruct (updateTexts insertion_sort 300 HistoryPoll_new poll) as [h'|]
    eqn:Hup; [|vm_compute in Hup; discriminate].
  exists h'. split; [reflexivity|].
  exact (updateTexts_once_per_version insertion_sort 300 HistoryPoll_new h'
           poll Hup).
Defined.

(** ** When the animation is asked for *)

Lemma answerVotesChanged_iff h poll :
  length (PollData.answers poll) = length (_answers h) ->
  answerVotesChanged h poll = true
  <-> map Answer.votes (_answers h) <> poll_votes poll.
Proof.
  intros Hlen. unfold answerVotesChanged, poll_votes.
  rewrite Hlen, Nat.eqb_refl. simpl negb. simpl orb.
  destruct (length (_answers h) =? 0)%nat eqn:E0.
  - apply Nat.eqb_eq in E0. rewrite E0 in Hlen.
    destruct (_answers h); [|discriminate].
    destruct (PollData.answers poll); [|discriminate].
    simpl. split; [discriminate | congruence].
  - pose proof (ranges_equal_map Z.eqb Answer.votes PollAnswer.votes Z.eqb_eq
                  (_answers h) (PollData.answers poll)) as Hiff.
    destruct (ranges_equal Z.eqb Answer.votes PollAnswer.votes (_answers h)
                (PollData.answers poll)); simpl.
    + split; [discriminate|]. intros Hne. exfalso. apply Hne.
      now apply Hiff.
    + split; [|reflexivity]. intros _ Heq. apply Hiff in Heq. discriminate.
Qed.


Lemma checkAnimationStart_quiet h poll :
  length (PollData.answers poll) = length (_answers h) ->
  canVote h = poll_canVote poll ->
  map Answer.votes (_answers h) = poll_votes poll ->
  checkAnimationStart h poll = (h, false).
Proof.
  intros Hlen Hcan Hvotes. unfold checkAnimationStart.
  fold (poll_canVote poll).
  rewrite Hlen, Nat.eqb_refl. simpl negb. cbv iota zeta.
  rewrite Hcan, eqb_reflx. simpl negb. simpl orb.
  destruct (answerVotesChanged h poll) eqn:E; [|reflexivity].
  apply (answerVotesChanged_iff h poll Hlen) in E. contradiction.
Qed.

(** X13.  An update that brings the same options, the same votes and the
    same ability to vote (of a poll within the capacity) goes through and
    touches neither animation: none is created, and one that is running
    keeps its entries and its progress. *)
Theorem updateTexts_quiet :
  forall (sort : list PercentCounterItem -> list PercentCounterItem)
         (duration : Z) (h : HistoryPoll) (poll : PollData.t),
    sorts sort ->
    (length (PollData.answers poll) <= kMaxOptions)%nat ->
    map Answer.option (_answers h)
    = map PollAnswer.option (PollData.answers poll) ->
    map Answer.votes (_answers h) = poll_votes poll ->
    canVote h = poll_canVote poll ->
    exists h',
      updateTexts sort duration h poll = Some h'
      /\ _answersAnimation h' = _answersAnimation h
      /\ _sendingAnimation h' = _sendingAnimation h
      /\ map Answer.votes (_answers h') = map Answer.votes (_answers h).
Proof.
  intros sort duration h poll Hs Hmax Hopt Hvotes Hcan.
  rewrite updateTexts_steps.
  destruct (_pollVersion h =? PollData.version poll).
  { exists h. auto. }
  assert (Hlen : length (PollData.answers poll) = length (_answers h)).
  { rewrite <- (length_map PollAnswer.option), <- Hopt. apply length_map. }
  rewrite (checkAnimationStart_quiet (with_version h poll) poll Hlen Hcan
             Hvotes).
  cbn [fst snd].
  destruct (refresh_texts_fields (with_version h poll) poll)
    as (Ha3 & _ & _ & Hn3 & _).
  destruct (refresh_texts_others (with_version h poll) poll)
    as (_ & _ & _ & Hs3 & _).
  set (h3 := refresh_texts (with_version h poll) poll) in *.
  assert (Heq : ranges_equal String.eqb Answer.option PollAnswer.option
                  (_answers h3) (PollData.answers poll) = true).
  { apply same_options_equal. rewrite Ha3. exact Hopt. }
  destruct (updateAnswers_same_options h3 poll Heq)
    as (Hl4 & _ & _ & _ & _ & _ & _ & Hn4 & _).
  assert (Hs4 : _sendingAnimation (updateAnswers h3 poll)
                = _sendingAnimation h3).
  { unfold updateAnswers. rewrite Heq. reflexivity. }
  set (h4 := updateAnswers h3 poll) in *.
  assert (Hlen4 : length (PollData.answers poll) = length (_answers h4)).
  { rewrite Hl4, Ha3. exact Hlen. }
  destruct (updateVotes_fields sort h4 poll Hs Hlen4 Hmax)
    as (percents & h5 & _ & Hpl & Hup & Ha5 & _ & _ & Hn5 & _).
  destruct (updateVotes_others sort h4 poll h5 Hup)
    as (_ & _ & _ & _ & _ & _ & Hs5 & _).
  destruct (update_zipped_fields
              (negb (PollData.voted poll) && negb (_closed h4))
              (Z.max 1 (max_element_votes (PollData.answers poll)))
              (_answers h4) (PollData.answers poll) percents
              Hlen4 (eq_trans Hpl Hlen4))
    as (_ & _ & _ & Fv & _).
  rewrite <- Ha5 in Fv.
  rewrite Hup. exists h5.
  split; [reflexivity|].
  split; [rewrite Hn5, Hn4, Hn3; reflexivity|].
  split; [rewrite Hs5, Hs4, Hs3; reflexivity|].
  rewrite Fv, Hvotes. reflexivity.
Qed.

Lemma updateTexts_quiet_witness :
  let poll :=
    PollData.make "Tea or coffee, then?"
      [PollAnswer.make "Tea" "0" 3 true; PollAnswer.make "Coffee" "1" 1 false]
      4 false true "" 2 in
  let h :=
    mkHistoryPoll 1 "Tea or coffee?" (Some lng_polls_anonymous)
      [Answer.make "Tea" "0" 3 75 1 "75%" true;
       Answer.make "Coffee" "1" 1 25 0 "25%" false]
      4 None true false None None in
  exists h',
    updateTexts insertion_sort 300 h poll = Some h'
    /\ _answersAnimation h' = None
    /\ _question h' = "Tea or coffee, then?"%string.
Proof.
  intros poll h.
  destruct (updateTexts_quiet insertion_sort 300 h poll insertion_sort_sorts)
    as (h' & Hup & Hnone & _).
  { unfold kMaxOptions. simpl. lia. }
  { reflexivity. }
  { reflexivity. }
  { reflexivity. }
  exists h'. split; [exact Hup|]. split; [exact Hnone|].
  vm_compute in Hup. injection Hup as <-. reflexivity.
Defined.

(** ** A saved state is always started *)

Lemma updateTexts_started sort duration h poll h' :
  animation_started duration h ->
  updateTexts sort duration h poll = Some h' ->
  animation_started duration h'.
Proof.
  intros Hinv. rewrite updateTexts_steps.
  destruct (_pollVersion h =? PollData.version poll).
  { intros H. now injection H as <-. }
  pose proof (checkAnimationStart_result (with_version h poll) poll) as Hres.
  set (h1 := fst (checkAnimationStart (with_version h poll) poll)) in *.
  destruct (refresh_texts_fields h1 poll) as (_ & _ & _ & Hn3 & _).
  set (h3 := refresh_texts h1 poll) in *.
  destruct (updateVotes sort (updateAnswers h3 poll) poll) as [h5|] eqn:Ev;
    [|discriminate].
  apply updateVotes_keeps in Ev. destruct Ev as [_ Hn5].
  intros H. injection H as <-.
  destruct (snd (checkAnimationStart (with_version h poll) poll)).
  - intros animation' Ha.
    destruct (_answersAnimation h5) as [animation|] eqn:Hold.
    + destruct (startAnswersAnimation_started duration h5 animation Hold)
        as (started & Hs1 & Hs2 & _).
      rewrite Hs1 in Ha. injection Ha as <-. exact Hs2.
    + unfold startAnswersAnimation in Ha. rewrite Hold in Ha. congruence.
  - intros animation Ha. rewrite Hn5 in Ha.
    destruct (ranges_equal String.eqb Answer.option PollAnswer.option
                (_answers h3) (PollData.answers poll)) eqn:Eo.
    + destruct (updateAnswers_same_options h3 poll Eo)
        as (_ & _ & _ & _ & _ & _ & _ & Hn4 & _).
      rewrite Hn4, Hn3, Hres in Ha. now apply Hinv.
    + destruct (updateAnswers_new_options h3 poll Eo)
        as (_ & _ & _ & _ & _ & Hn4 & _).
      congruence.
Qed.

Lemma draw_started duration h poll now h' :
  animation_started duration h ->
  draw h poll now = Some h' ->
  animation_started duration h'.
Proof.
  intros Hinv. unfold draw. cbv zeta.
  destruct (checkSendingAnimation_fields h poll) as (_ & Hn1).
  set (h1 := checkSendingAnimation h poll) in *.
  set (progress := match _answersAnimation h1 with
                   | Some animation => _
                   | None => 1%float
                   end).
  set (h2 := if PrimFloat.eqb progress 1
             then resetAnswersAnimation h1 poll else h1).
  assert (Hinv2 : animation_started duration h2).
  { unfold h2. destruct (PrimFloat.eqb progress 1).
    - intros animation Ha.
      destruct (resetAnswersAnimation_fields h1 poll) as (_ & Hnone).
      congruence.
    - intros animation Ha. rewrite Hn1 in Ha. now apply Hinv. }
  destruct (_answersAnimation h2) as [animation|] eqn:Han.
  - destruct (draw_answers _ _ _) as [data|]; [|discriminate].
    intros H. injection H as <-. intros animation' Ha.
    cbn [set_answersAnimation _answersAnimation] in Ha.
    injection Ha as <-. cbn [AnswersAnimation.progress].
    now apply Hinv2.
  - intros H. injection H as <-. exact Hinv2.
Qed.

(** X14.  In every view that can arise from a new view through updates and
    paints, an answers animation that exists has been started: its progress
    runs from 0 to 1 over [st::historyPollDuration].  The state that
    [saveStateInAnimation] saves with a progress at rest never stays that
    way to the end of the update: [startAnswersAnimation] starts it, or
    [updateAnswers] has dropped it before. *)
Theorem reachable_animation_started :
  forall (sort : list PercentCounterItem -> list PercentCounterItem)
         (duration : Z) (h : HistoryPoll),
    reachable sort duration h -> animation_started duration h.
Proof.
  intros sort duration h Hreach.
  induction Hreach as [|h h' _ IH Hstep].
  - intros animation Ha. discriminate.
  - destruct Hstep as [h poll h' Hup | h poll now h' Hdraw].
    + now apply (updateTexts_started sort duration h poll h').
    + now apply (draw_started duration h poll now h').
Qed.

Lemma reachable_animation_started_witness :
  let poll1 :=
    PollData.make "Tea or coffee?"
      [PollAnswer.make "Tea" "0" 1 true; PollAnswer.make "Coffee" "1" 0 false]
      1 false true "" 1 in
  let poll2 :=
    PollData.make "Tea or coffee?"
      [PollAnswer.make "Tea" "0" 1 true; PollAnswer.make "Coffee" "1" 2 false]
      3 false true "" 2 in
  let after h poll :=
    match updateTexts insertion_sort 300 h poll with
    | Some h' => h'
    | None => h
    end in
  let h := after (after HistoryPoll_new poll1) poll2 in
  (exists animation,
     _answersAnimation h = Some animation
     /\ AnswersAnimation.progress animation = Simple_start 0 1 300)
  /\ animation_started 300 h.
Proof.
  intros poll1 poll2 after h.
  assert (Hstarted : animation_started 300 h).
  { apply (reachable_animation_started insertion_sort 300 h).
    apply reachable_step with (h := after HistoryPoll_new poll1).
    - apply reachable_step with (h := HistoryPoll_new).
      + apply reachable_new.
      + apply step_updateTexts with (poll := poll1). vm_compute. reflexivity.
    - apply step_updateTexts with (poll := poll2). vm_compute. reflexivity. }
  split; [|exact Hstarted].
  destruct (_answersAnimation h) as [animation|] eqn:Ha.
  - exists animation. split; [reflexivity|]. now apply Hstarted.
  - vm_compute in Ha. discriminate.
Defined.

(** ** The paint *)











(* ===================================================================== *)
(** * Part VIII: layout and hit testing *)
(* ===================================================================== *)

Lemma sum_list_app l1 l2 : sum_list (l1 ++ l2) = sum_list l1 + sum_list l2.
Proof.
  unfold sum_list. induction l1 as [|x l1 IH]; simpl; [reflexivity|].
  rewrite IH. lia.
Qed.

Lemma fold_left_add_sum l a0 : fold_left Z.add l a0 = a0 + sum_list l.
Proof.
  revert a0. unfold sum_list.
  induction l as [|x l IH]; intros a0; simpl; [lia|].
  rewrite IH. lia.
Qed.

Lemma fold_left_sum {A : Type} (f : A -> Z) l a0 :
  fold_left (fun sum x => sum + f x) l a0 = a0 + sum_list (map f l).
Proof.
  revert a0. unfold sum_list.
  induction l as [|x l IH]; intros a0; simpl; [lia|].
  rewrite IH. lia.
Qed.

Lemma firstn_succ_nth {A : Type} (l : list A) i x :
  nth_error l i = Some x -> firstn (S i) l = firstn i l ++ [x].
Proof.
  revert i. induction l as [|y l IH]; intros [|i] H; simpl in H;
    try discriminate.
  - now injection H as ->.
  - change (firstn (S (S i)) (y :: l)) with (y :: firstn (S i) l).
    rewrite (IH i H). reflexivity.
Qed.

Section LayoutFacts.

Variable st : Style.

Variable text : TextMeasures.

Variable isBubbleTop : bool.

Local Abbreviation height := (countAnswerHeight st text).

Local Abbreviation top := (countAnswerTop st text isBubbleTop).

(** The result of [textState] over an answer. *)
Local Abbreviation over can lookup point index answer :=
  (if can then (mkTextState (Some index) false None, Some point)
   else
     (mkTextState None true
        (if lookup
         then Some (if negb (Answer.votes answer =? 0)
                    then tooltip_votes_count (Answer.votes answer)
                    else tooltip_votes_none)
         else None),
      None)).

Lemma heights_nonneg w answers n :
  Forall (fun answer => 0 <= height answer w) answers ->
  0 <= sum_list (map (fun answer => height answer w) (firstn n answers)).
Proof.
  intros Hall. apply sum_list_nonneg. apply Forall_map.
  apply Forall_forall. intros x Hx.
  rewrite Forall_forall in Hall. apply Hall.
  rewrite <- (firstn_skipn n answers). apply in_or_app. now left.
Qed.

Lemma countAnswerTop_next h i answer w :
  nth_error (_answers h) i = Some answer ->
  top h (S i) w = top h i w + height answer w.
Proof.
  intros Hnth. unfold countAnswerTop. cbv zeta.
  rewrite !fold_left_sum, (firstn_succ_nth _ _ _ Hnth), map_app, sum_list_app.
  unfold sum_list at 2. simpl. lia.
Qed.

Lemma countAnswerTop_sum h i w :
  top h i w
  = top h 0 w
    + sum_list (map (fun answer => height answer w) (firstn i (_answers h))).
Proof.
  unfold countAnswerTop. cbv zeta. rewrite !fold_left_sum. simpl firstn.
  unfold sum_list at 2. simpl. lia.
Qed.

Lemma textState_answers_hit can lookup point w answers :
  forall k t j answer,
    Forall (fun answer => 0 <= height answer w) answers ->
    nth_error answers j = Some answer ->
    t + sum_list (map (fun answer => height answer w) (firstn j answers))
    <= point_y point
    < t + sum_list (map (fun answer => height answer w) (firstn j answers))
      + height answer w ->
    textState_answers st text can lookup point w answers k t
    = over can lookup point (k + j)%nat answer.
Proof.
  induction answers as [|a answers IH]; intros k t [|j] answer Hall Hnth Hy;
    simpl in Hnth; try discriminate.
  - injection Hnth as ->. simpl firstn in Hy. unfold sum_list in Hy.
    simpl in Hy. cbn [textState_answers]. cbv zeta.
    replace (point_y point >=? t) with true by lia.
    replace (point_y point <? t + height answer w) with true by lia.
    simpl andb. cbv iota. rewrite Nat.add_0_r. reflexivity.
  - inversion Hall as [|? ? Ha Hrest]; subst.
    pose proof (heights_nonneg w answers j Hrest) as Hsum.
    change (firstn (S j) (a :: answers)) with (a :: firstn j answers) in Hy.
    cbn [map] in Hy. unfold sum_list in Hy, Hsum. cbn [fold_right] in Hy.
    fold (sum_list (map (fun answer => height answer w) (firstn j answers)))
      in Hy, Hsum.
    cbn [textState_answers]. cbv zeta.
    replace (point_y point <? t + height a w) with false by lia.
    rewrite andb_false_r. cbv iota.
    rewrite (IH (S k) (t + height a w) j answer Hrest Hnth) by lia.
    replace (S k + j)%nat with (k + S j)%nat by lia. reflexivity.
Qed.

Lemma textState_answers_outside can lookup point w answers :
  forall k t,
    Forall (fun answer => 0 <= height answer w) answers ->
    point_y point < t
    \/ t + sum_list (map (fun answer => height answer w) answers)
       <= point_y point ->
    textState_answers st text can lookup point w answers k t
    = (TextState_new, None).
Proof.
  induction answers as [|a answers IH]; intros k t Hall Hy;
    [reflexivity|].
  inversion Hall as [|? ? Ha Hrest]; subst.
  pose proof (heights_nonneg w answers (length answers) Hrest) as Hsum.
  rewrite firstn_all in Hsum.
  cbn [map] in Hy. unfold sum_list in Hy, Hsum. cbn [fold_right] in Hy.
  fold (sum_list (map (fun answer => height answer w) answers)) in Hy, Hsum.
  cbn [textState_answers]. cbv zeta.
  replace ((point_y point >=? t) && (point_y point <? t + height a w))
    with false by (destruct Hy; lia).
  apply IH; [exact Hrest|]. lia.
Qed.

Lemma textState_answers_link can lookup point w answers :
  forall k t state last i,
    textState_answers st text can lookup point w answers k t = (state, last) ->
    link state = Some i ->
    exists j answer,
      i = (k + j)%nat
      /\ nth_error answers j = Some answer
      /\ can = true
      /\ last = Some point
      /\ customTooltip state = false
      /\ t + sum_list (map (fun answer => height answer w) (firstn j answers))
         <= point_y point
         < t + sum_list (map (fun answer => height answer w)
                           (firstn j answers))
           + height answer w.
Proof.
  induction answers as [|a answers IH]; intros k t state last i Hrun Hlink.
  { simpl in Hrun. injection Hrun as <- <-. discriminate. }
  cbn [textState_answers] in Hrun. cbv zeta in Hrun.
  destruct ((point_y point >=? t) && (point_y point <? t + height a w))
    eqn:Eband.
  - destruct can.
    + injection Hrun as <- <-. simpl in Hlink. injection Hlink as <-.
      exists 0%nat, a. simpl firstn. unfold sum_list. simpl.
      apply andb_true_iff in Eband.
      repeat split; try reflexivity; lia.
    + injection Hrun as <- <-. discriminate.
  - destruct (IH (S k) (t + height a w) state last i Hrun Hlink)
      as (j & answer & Hi & Hnth & Hcan & Hlast & Htip & Hy).
    exists (S j), answer.
    change (firstn (S j) (a :: answers)) with (a :: firstn j answers).
    cbn [map]. unfold sum_list in Hy |- *. cbn [fold_right].
    repeat split; try assumption; lia.
Qed.

(** X18.  [countCurrentSize] stacks the answers as [countAnswerTop] does:
    the width is the smaller of the new width and the largest width, the
    top of the answer after answer [i] is the top of [i] plus the height of
    [i], and the height of the whole is the top of the place after the last
    answer plus the room for the total: [st::historyPollTotalVotesSkip], a
    line of the date font and the bottom padding. *)
Theorem countCurrentSize_stacks_answers :
  forall (h : HistoryPoll) (newWidth maxWidth : Z),
    let innerWidth :=
      Z.min newWidth maxWidth - msgPadding_left st - msgPadding_right st in
    countCurrentSize st text isBubbleTop h newWidth maxWidth
    = (Z.min newWidth maxWidth,
       top h (length (_answers h)) innerWidth
       + historyPollTotalVotesSkip st
       + msgDateFont_height st
       + msgPadding_bottom st)
    /\ forall i answer w,
         nth_error (_answers h) i = Some answer ->
         top h (S i) w = top h i w + height answer w.
Proof.
  intros h newWidth maxWidth innerWidth.
  split; [|intros i answer w; apply countAnswerTop_next].
  unfold countCurrentSize, countAnswerTop. cbv zeta. fold innerWidth.
  rewrite firstn_all, fold_left_add_sum, fold_left_sum.
  f_equal. destruct isBubbleTop; simpl negb; cbv iota; lia.
Qed.

(** X19.  Over answers of non-negative height, with no vote being sent,
    [textState] finds the answer whose band [countAnswerTop] and
    [countAnswerHeight] give: for a point from the top of answer [i]
    (inclusive) to its top plus its height (exclusive) the result is the
    link of answer [i] while the viewer can vote (and the point is kept as
    the last link point), and the tooltip of answer [i] otherwise (its vote
    count, or that there are no votes; only when the request asks for it).
    For a point above the first answer, or at or below the end of the last,
    nothing is set. *)
Theorem textState_hits_answer :
  forall (h : HistoryPoll) (poll : PollData.t) (point : QPoint)
         (lookup : bool) (width : Z),
    let paintw := width - (msgPadding_left st + msgPadding_right st) in
    isEmpty (PollData.sendingVote poll) = true ->
    Forall (fun answer => 0 <= height answer paintw) (_answers h) ->
    (forall i answer,
       nth_error (_answers h) i = Some answer ->
       top h i paintw <= point_y point
       < top h i paintw + height answer paintw ->
       textState st text isBubbleTop h poll point lookup width
       = over (canVote h) lookup point i answer)
    /\ (point_y point < top h 0 paintw
        \/ top h (length (_answers h)) paintw <= point_y point ->
        textState st text isBubbleTop h poll point lookup width
        = (TextState_new, None)).
Proof.
  intros h poll point lookup width paintw Hsend Hall.
  assert (Htop0 : top h 0 paintw
                  = (if negb isBubbleTop
                     then historyPollQuestionTop st - msgFileTopMinus st
                     else historyPollQuestionTop st)
                    + (question_countHeight text (_question h) paintw
                       + historyPollSubtitleSkip st)
                    + (msgDateFont_height st + historyPollAnswersSkip st)).
  { unfold countAnswerTop. cbv zeta. simpl. lia. }
  split.
  - intros i answer Hnth Hy. rewrite countAnswerTop_sum in Hy.
    unfold textState. rewrite Hsend. simpl negb. cbv iota zeta.
    fold paintw. rewrite <- Htop0.
    apply (textState_answers_hit (canVote h) lookup point paintw (_answers h)
             0%nat (top h 0 paintw) i answer Hall Hnth Hy).
  - intros Hy. rewrite (countAnswerTop_sum h (length (_answers h))) in Hy.
    rewrite firstn_all in Hy.
    unfold textState. rewrite Hsend. simpl negb. cbv iota zeta.
    fold paintw. rewrite <- Htop0.
    now apply textState_answers_outside.
Qed.

(** X20.  A link that [textState] returns is the handler of an answer that
    exists, it is returned only while the viewer can vote and no vote is
    being sent, and the point is kept as the last link point.  The point
    lies in the band of that answer, so the ripple that [toggleRipple] then
    makes for it (a mask as wide as the view and as high as the answer)
    gets its origin inside the mask's height: the point, moved up by the
    top of the answer. *)
Theorem textState_link_inside_ripple :
  forall (h : HistoryPoll) (poll : PollData.t) (point : QPoint)
         (lookup : bool) (width : Z) (state : TextState)
         (last : option QPoint) (i : nat),
    textState st text isBubbleTop h poll point lookup width = (state, last) ->
    link state = Some i ->
    let innerWidth := width - msgPadding_left st - msgPadding_right st in
    exists answer origin,
      nth_error (_answers h) i = Some answer
      /\ canVote h = true
      /\ isEmpty (PollData.sendingVote poll) = true
      /\ last = Some point
      /\ customTooltip state = false
      /\ top h i innerWidth <= point_y point
         < top h i innerWidth + height answer innerWidth
      /\ toggleRipple st text isBubbleTop h i false true width point
         = Some [Ripple_new width (height answer innerWidth);
                 Ripple_add origin]
      /\ point_x origin = point_x point
      /\ 0 <= point_y origin < height answer innerWidth.
Proof.
  intros h poll point lookup width state last i Hrun Hlink innerWidth.
  unfold textState in Hrun.
  destruct (isEmpty (PollData.sendingVote poll)) eqn:Hsend;
    simpl negb in Hrun; cbv iota zeta in Hrun.
  2:{ injection Hrun as <- <-. discriminate. }
  replace (width - (msgPadding_left st + msgPadding_right st))
    with innerWidth in Hrun by (unfold innerWidth; lia).
  destruct (textState_answers_link _ _ _ _ _ _ _ _ _ _ Hrun Hlink)
    as (j & answer & Hi & Hnth & Hcan & Hlast & Htip & Hy).
  simpl in Hi. subst j.
  assert (Hband : top h i innerWidth <= point_y point
                  < top h i innerWidth + height answer innerWidth).
  { rewrite countAnswerTop_sum.
    replace (top h 0 innerWidth)
      with ((if negb isBubbleTop
             then historyPollQuestionTop st - msgFileTopMinus st
             else historyPollQuestionTop st)
            + (question_countHeight text (_question h) innerWidth
               + historyPollSubtitleSkip st)
            + (msgDateFont_height st + historyPollAnswersSkip st))
      by (unfold countAnswerTop; cbv zeta; simpl; lia).
    exact Hy. }
  exists answer,
    (mkPoint (point_x point - 0) (point_y point - top h i innerWidth)).
  repeat split; try assumption; try (simpl; lia).
  unfold toggleRipple. rewrite Hnth. reflexivity.
Qed.

End LayoutFacts.

Lemma countCurrentSize_stacks_answers_witness :
  let h :=
    mkHistoryPoll 1 "Tea or coffee?" (Some lng_polls_anonymous)
      [Answer.make "Tea" "0" 3 75 1 "75%" true;
       Answer.make "Coffee, with milk and sugar" "1" 1 25 0 "25%" false]
      4 (Some (total_label_of 4)) true false None None in
  countCurrentSize example_style example_measures true h 300 280
  = (280, 174)
  /\ countAnswerTop example_style example_measures true h 0 254 = 57
  /\ countAnswerTop example_style example_measures true h 1 254 = 92
  /\ countAnswerTop example_style example_measures true h 2 254 = 147.
Proof.
  intros h.
  destruct (countCurrentSize_stacks_answers example_style example_measures
              true h 300 280) as [Hsize Hnext].
  split; [rewrite Hsize; vm_compute; reflexivity|].
  split; [vm_compute; reflexivity|].
  split.
  - rewrite (Hnext 0%nat (Answer.make "Tea" "0" 3 75 1 "75%" true) 254
               eq_refl).
    vm_compute. reflexivity.
  - rewrite (Hnext 1%nat
               (Answer.make "Coffee, with milk and sugar" "1" 1 25 0 "25%"
                  false) 254 eq_refl).
    vm_compute. reflexivity.
Defined.

Lemma textState_hits_answer_witness :
  let poll :=
    PollData.make "Tea or coffee?"
      [PollAnswer.make "Tea" "0" 0 false;
       PollAnswer.make "Coffee, with milk and sugar" "1" 0 false]
      0 false false "" 1 in
  let h :=
    mkHistoryPoll 1 "Tea or coffee?" (Some lng_polls_anonymous)
      [Answer.make "Tea" "0" 0 0 0 "" false;
       Answer.make "Coffee, with milk and sugar" "1" 0 0 0 "" false]
      0 (Some lng_polls_votes_none) false false None None in
  textState example_style example_measures true h poll (mkPoint 40 100)
    false 280
  = (mkTextState (Some 1%nat) false None, Some (mkPoint 40 100))
  /\ textState example_style example_measures true h poll (mkPoint 40 147)
       false 280
     = (TextState_new, None).
Proof.
  intros poll h.
  destruct (textState_hits_answer example_style example_measures true h poll
              (mkPoint 40 100) false 280) as [Hhit _].
  { reflexivity. }
  { repeat (apply Forall_cons; [apply Z.leb_le; vm_compute; reflexivity|]).
    apply Forall_nil. }
  destruct (textState_hits_answer example_style example_measures true h poll
              (mkPoint 40 147) false 280) as [_ Hout].
  { reflexivity. }
  { repeat (apply Forall_cons; [apply Z.leb_le; vm_compute; reflexivity|]).
    apply Forall_nil. }
  split.
  - apply (Hhit 1%nat
             (Answer.make "Coffee, with milk and sugar" "1" 0 0 0 "" false)
             eq_refl).
    split; [apply Z.leb_le | apply Z.ltb_lt]; vm_compute; reflexivity.
  - apply Hout. right. apply Z.leb_le. vm_compute. reflexivity.
Defined.

Lemma textState_link_inside_ripple_witness :
  let poll :=
    PollData.make "Tea or coffee?"
      [PollAnswer.make "Tea" "0" 0 false;
       PollAnswer.make "Coffee, with milk and sugar" "1" 0 false]
      0 false false "" 1 in
  let h :=
    mkHistoryPoll 1 "Tea or coffee?" (Some lng_polls_anonymous)
      [Answer.make "Tea" "0" 0 0 0 "" false;
       Answer.make "Coffee, with milk and sugar" "1" 0 0 0 "" false]
      0 (Some lng_polls_votes_none) false false None None in
  fst (textState example_style example_measures true h poll (mkPoint 40 100)
         false 280)
  = mkTextState (Some 1%nat) false None
  /\ exists origin,
       toggleRipple example_style example_measures true h 1 false true 280
         (mkPoint 40 100)
       = Some [Ripple_new 280 55; Ripple_add origin]
       /\ 0 <= point_y origin < 55.
Proof.
  intros poll h.
  split; [vm_compute; reflexivity|].
  destruct (textState_link_inside_ripple example_style example_measures true
              h poll (mkPoint 40 100) false 280
              (mkTextState (Some 1%nat) false None)
              (Some (mkPoint 40 100)) 1%nat)
    as (answer & origin & Hnth & _ & _ & _ & _ & _ & Hripple & _ & Hinside).
  { vm_compute. reflexivity. }
  { reflexivity. }
  cbn in Hnth. injection Hnth as <-.
  exists origin. split; [exact Hripple | exact Hinside].
Defined.

(** ** The optimal size *)

Lemma fold_left_over_map {A B C : Type} (g : C -> B -> C) (f : A -> B) l a0 :
  fold_left (fun acc x => g acc (f x)) l a0 = fold_left g (map f l) a0.
Proof.
  revert a0. induction l as [|x l IH]; intros a0; simpl; [reflexivity|].
  apply IH.
Qed.

(** An update with a poll of another version, within the capacity, goes
    through and leaves the poll's question and answer texts in the view. *)
Lemma updateTexts_texts sort duration h poll :
  sorts sort ->
  PollData.version poll <> _pollVersion h ->
  (length (PollData.answers poll) <= kMaxOptions)%nat ->
  exists h',
    updateTexts sort duration h poll = Some h'
    /\ _question h' = PollData.question poll
    /\ map Answer.text (_answers h')
       = map PollAnswer.text (PollData.answers poll).
Proof.
  intros Hs Hver Hmax. rewrite updateTexts_steps.
  destruct (_pollVersion h =? PollData.version poll) eqn:E;
    [apply Z.eqb_eq in E; congruence|].
  set (h1 := fst (checkAnimationStart (with_version h poll) poll)).
  destruct (refresh_texts_others h1 poll) as (Hq3 & _).
  set (h3 := refresh_texts h1 poll) in *.
  destruct (updateAnswers_installs h3 poll)
    as (Hl4 & _ & Ht4 & _ & Hq4 & _).
  set (h4 := updateAnswers h3 poll) in *.
  destruct (updateVotes_fields sort h4 poll Hs (eq_sym Hl4) Hmax)
    as (percents & h5 & _ & Hpl & Hup & Ha5 & _).
  destruct (updateVotes_others sort h4 poll h5 Hup) as (_ & Hq5 & _).
  destruct (update_zipped_fields
              (negb (PollData.voted poll) && negb (_closed h4))
              (Z.max 1 (max_element_votes (PollData.answers poll)))
              (_answers h4) (PollData.answers poll) percents
              (eq_sym Hl4) (eq_trans Hpl (eq_sym Hl4)))
    as (_ & _ & Ft & _).
  rewrite <- Ha5 in Ft.
  rewrite Hup.
  set (h6 := if snd (checkAnimationStart (with_version h poll) poll)
             then startAnswersAnimation duration h5 else h5).
  assert (H6 : same_data h5 h6).
  { unfold h6. destruct (snd _).
    - apply startAnswersAnimation_data.
    - apply same_data_refl. }
  destruct H6 as (_ & E2 & _ & E4 & _).
  exists h6. split; [reflexivity|]. rewrite E2, E4. split; congruence.
Qed.

(** X21.  [countOptimalSize] measures the poll, not what the view held
    before: for a poll of another version (within the capacity) it goes
    through, and the size it returns is computed from the poll's question
    and answer texts.  The width is the largest of [st::msgFileMinWidth],
    the question's width and each answer's width with their paddings; the
    height adds up the question, the subtitle line, every answer with its
    padding, and the line of the total, less [st::msgFileTopMinus] when the
    media is not at the top of the bubble. *)
Theorem countOptimalSize_measures_poll :
  forall (st : Style) (text : TextMeasures) (isBubbleTop : bool)
         (sort : list PercentCounterItem -> list PercentCounterItem)
         (duration : Z) (h : HistoryPoll) (poll : PollData.t),
    sorts sort ->
    PollData.version poll <> _pollVersion h ->
    (length (PollData.answers poll) <= kMaxOptions)%nat ->
    let paddings := msgPadding_left st + msgPadding_right st in
    let texts := map PollAnswer.text (PollData.answers poll) in
    exists h',
      updateTexts sort duration h poll = Some h'
      /\ countOptimalSize st text isBubbleTop sort duration h poll
         = Some
             (h',
              (fold_left Z.max
                 (map (fun s =>
                         paddings
                         + historyPollAnswerPadding_left st
                         + answer_maxWidth text s
                         + historyPollAnswerPadding_right st) texts)
                 (Z.max (msgFileMinWidth st)
                    (paddings
                     + question_maxWidth text (PollData.question poll))),
               historyPollQuestionTop st
               + question_minHeight text (PollData.question poll)
               + historyPollSubtitleSkip st
               + msgDateFont_height st
               + historyPollAnswersSkip st
               + sum_list
                   (map (fun s =>
                           historyPollAnswerPadding_top st
                           + answer_minHeight text s
                           + historyPollAnswerPadding_bottom st) texts)
               + msgPadding_bottom st
               + msgDateFont_height st
               + msgPadding_bottom st
               - (if isBubbleTop then 0 else msgFileTopMinus st))).
Proof.
  intros st text isBubbleTop sort duration h poll Hs Hver Hmax paddings texts.
  destruct (updateTexts_texts sort duration h poll Hs Hver Hmax)
    as (h' & Hup & Hq & Ht).
  exists h'. split; [exact Hup|].
  unfold countOptimalSize. rewrite Hup. f_equal. f_equal.
  unfold optimalSize. cbv zeta. fold paddings. rewrite Hq.
  rewrite (fold_left_over_map Z.max
             (fun answer =>
                paddings + historyPollAnswerPadding_left st
                + answer_maxWidth text (Answer.text answer)
                + historyPollAnswerPadding_right st)).
  rewrite fold_left_add_sum.
  rewrite <- (map_map Answer.text
                (fun s => paddings + historyPollAnswerPadding_left st
                          + answer_maxWidth text s
                          + historyPollAnswerPadding_right st)).
  rewrite <- (map_map Answer.text
                (fun s => historyPollAnswerPadding_top st
                          + answer_minHeight text s
                          + historyPollAnswerPadding_bottom st)).
  rewrite Ht. fold texts.
  f_equal. destruct isBubbleTop; simpl negb; cbv iota; lia.
Qed.

Lemma countOptimalSize_measures_poll_witness :
  let poll :=
    PollData.make "Tea or coffee?"
      [PollAnswer.make "Tea" "0" 2 false;
       PollAnswer.make "Coffee, with milk and sugar" "1" 1 true]
      3 false true "" 7 in
  let h :=
    mkHistoryPoll 6 "Tea?"
      None [Answer.make "Tea" "0" 1 100 1 "100%" false] 1 None true false
      None None in
  exists h',
    countOptimalSize example_style example_measures false insertion_sort 300
      h poll
    = Some (h', (334, 145)).
Proof.
  intros poll h.
  destruct (countOptimalSize_measures_poll example_style example_measures
              false insertion_sort 300 h poll insertion_sort_sorts)
    as (h' & _ & Hsize).
  { simpl. discriminate. }
  { unfold kMaxOptions. simpl. lia. }
  exists h'. rewrite Hsize. vm_compute. reflexivity.
Defined.

(** ** When an update fails *)

(** X22.  [updateTexts] stops at a failed assertion exactly when the poll
    has another version than the view and more than [kMaxOptions] answers:
    the [Assert] of [updateAnswerVotes].  No state of the view leads to a
    failure, and [CountNicePercent] called from here never fails. *)
Theorem updateTexts_fails_iff :
  forall (sort : list PercentCounterItem -> list PercentCounterItem)
         (duration : Z) (h : HistoryPoll) (poll : PollData.t),
    sorts sort ->
    (updateTexts sort duration h poll = None
     <-> PollData.version poll <> _pollVersion h
         /\ (kMaxOptions < length (PollData.answers poll))%nat).
Proof.
  intros sort duration h poll Hs. split.
  - intros Hnone.
    destruct (Z.eq_dec (PollData.version poll) (_pollVersion h)) as [Ev|Ev].
    { rewrite updateTexts_steps, Ev, Z.eqb_refl in Hnone. discriminate. }
    split; [exact Ev|].
    destruct (Nat.le_gt_cases (length (PollData.answers poll)) kMaxOptions)
      as [Hmax|Hmax]; [|exact Hmax].
    destruct (updateTexts_texts sort duration h poll Hs Ev Hmax)
      as (h' & Hup & _).
    congruence.
  - intros [Ev Hmax]. rewrite updateTexts_steps.
    destruct (_pollVersion h =? PollData.version poll) eqn:E;
      [apply Z.eqb_eq in E; congruence|].
    set (h1 := fst (checkAnimationStart (with_version h poll) poll)).
    set (h3 := refresh_texts h1 poll).
    destruct (updateAnswers_installs h3 poll) as (Hl4 & _).
    set (h4 := updateAnswers h3 poll) in *.
    assert (Hnone : updateVotes sort h4 poll = None).
    { unfold updateVotes, updateAnswerVotes. cbn [_answers].
      rewrite Hl4, Nat.eqb_refl. simpl negb. simpl orb.
      destruct (length (PollData.answers poll) =? 0)%nat eqn:E0.
      { apply Nat.eqb_eq in E0. unfold kMaxOptions in Hmax. lia. }
      cbv zeta. apply Nat.leb_gt in Hmax. rewrite Hmax. reflexivity. }
    rewrite Hnone. reflexivity.
Qed.

Lemma updateTexts_fails_iff_witness :
  let poll :=
    PollData.make "Which number?"
      (map (fun n => PollAnswer.make n n 0 false)
         ["0"; "1"; "2"; "3"; "4"; "5"; "6"; "7"; "8"; "9"; "10"]%string)
      0 false false "" 1 in
  updateTexts insertion_sort 300 HistoryPoll_new poll = None
  /\ PollData.version poll <> _pollVersion HistoryPoll_new
  /\ (kMaxOptions < length (PollData.answers poll))%nat.
Proof.
  intros poll.
  assert (Hcase : PollData.version poll <> _pollVersion HistoryPoll_new
                  /\ (kMaxOptions < length (PollData.answers poll))%nat).
  { split; [simpl; discriminate | unfold kMaxOptions; simpl; lia]. }
  split; [|exact Hcase].
  apply (updateTexts_fails_iff insertion_sort 300 HistoryPoll_new poll
           insertion_sort_sorts).
  exact Hcase.
Defined.
